(** * Connection: the streaming-transport fallback controller

    A shallow embedding of the [Connection] class (the facade over the
    WebSocket / SignalR streaming transports) and the properties its
    specification states about it.

    The class is single threaded and callback driven.  Its fields become a
    record, its methods become computations in a small state-and-exception
    monad, and every call that leaves the class (a transport method, a static
    probe, a constructor, the logger, a consumer function) is appended to a
    chronological trace.  What a transport does on its own initiative (report
    a failure, invoke a callback it was handed) is a separate step of the
    environment.  The transports, the logger and the consumer's functions
    are outside the class: a call to a transport or to the logger is
    recorded and returns; a call to a consumer function is recorded and
    returns or throws, as the function decides. *)

From Equations Require Import Equations.
From Equations.Prop Require Import Logic.
From stdpp Require Import gmap strings list fin_maps sorting.

Set Default Proof Using "Type".
Open Scope string_scope.
Open Scope nat_scope.
Open Scope list_scope.

(** ** Values crossing the boundary *)

(** The JavaScript values the class passes around without looking inside:
    option values, callback arguments, the error payload of a failure. *)
Inductive Value :=
| VUndefined
| VNull
| VBool (b : bool)
| VNum (n : Z)
| VStr (s : string)
| VArr (names : list string).

#[global] Instance Value_eq_dec : EqDecision Value.
Proof. solve_decision. Defined.

(** The three transport classes the file imports. *)
Inductive TransportClass :=
| SignalrCoreTransport
| WebsocketTransport
| SignalrTransport.

#[global] Instance TransportClass_eq_dec : EqDecision TransportClass.
Proof. solve_decision. Defined.

(** What the class reads off a transport class or one of its instances: the
    static capability probe, the name used for logging, and whether the
    optional hooks are there.  The transport implementations are not among
    the sources; what they answer is a parameter (see [Imports]). *)
Record TransportStatics := {
  isSupported : bool;
  name : string;
  has_onOrphanFound : bool;
  has_onSubscribeNetworkError : bool;
  hasOwn_getTransport : bool
}.

(** A registry entry: [{ options, instance }]. *)
Record TransportEntry := {
  entry_options : gmap string Value;
  entry_instance : TransportClass
}.

(** What [TRANSPORT_NAME_MAP[name]] can be when it is truthy: an entry of
    the object literal, or, for a name the literal does not define but every
    object inherits from [Object.prototype], the inherited value (a function,
    or the prototype itself for [__proto__]).  An inherited value has
    neither [options] nor [instance]. *)
Inductive Candidate :=
| Listed (entry : TransportEntry)
| Inherited (name : string).

#[global] Instance TransportEntry_eq_dec : EqDecision TransportEntry.
Proof. solve_decision. Defined.

#[global] Instance Candidate_eq_dec : EqDecision Candidate.
Proof. solve_decision. Defined.

(** The names every object inherits from [Object.prototype]. *)
Definition Object_prototype : list string :=
  ["constructor"; "hasOwnProperty"; "isPrototypeOf"; "propertyIsEnumerable";
   "toLocaleString"; "toString"; "valueOf"; "__proto__";
   "__defineGetter__"; "__defineSetter__";
   "__lookupGetter__"; "__lookupSetter__"].

(** A transport instance, identified by the class it was built from and the
    position of the registry entry in [this.transports]. *)
Record Transport := {
  t_index : nat;
  t_class : TransportClass
}.

(** Function values.  [NOOP] is the module constant, [Consumer ref] a function
    supplied by the consumer (compared by reference), and
    [Bound callback callbackType] is
    [this.ensureValidState.bind(this, callback, callbackType)]. *)
Inductive Callback :=
| NOOP
| Consumer (ref : nat)
| Bound (callback : Callback) (callbackType : string).

#[global] Instance Callback_eq_dec : EqDecision Callback.
Proof. solve_decision. Defined.

(** How many guards wrap the innermost function. *)
Fixpoint depth (f : Callback) : nat :=
  match f with
  | Bound callback _ => S (depth callback)
  | _ => 0
  end.

(** The arrow function [this.onTransportFail], bound once per Connection. *)
Inductive FailHandler := this_onTransportFail.

Inductive State :=
| STATE_CREATED
| STATE_STARTED
| STATE_STOPPED
| STATE_DISPOSED.

#[global] Instance State_eq_dec : EqDecision State.
Proof. solve_decision. Defined.

Inductive Level := debug | info | warn | error.

Definition LOG_AREA : string := "Connection".

(** ** The trace of outgoing calls

    [Log] is a call of the logger, always under [LOG_AREA]; [IsSupported]
    the static probe of the class at a position of the candidate list;
    [New] the construction of an instance; the next ten are method calls on
    an instance; [Called] is the call of a function value. *)

Inductive Event :=
| Log (level : Level) (message : string) (details : list (string * Value))
| IsSupported (i : nat) (c : TransportClass)
| New (t : Transport) (baseUrl : string) (failCallback : FailHandler)
| SetReceivedCallback (t : Transport) (cb : option Callback)
| SetStateChangedCallback (t : Transport) (cb : option Callback)
| SetUnauthorizedCallback (t : Transport) (cb : option Callback)
| SetConnectionSlowCallback (t : Transport) (cb : option Callback)
| UpdateQuery (t : Transport) (authToken contextId : option string)
    (authExpiry : Value) (forceAuth : option bool)
| Start (t : Transport) (transportOptions : gmap string Value)
    (cb : option Callback)
| Stop (t : Transport)
| GetQuery (t : Transport)
| OnOrphanFound (t : Transport)
| OnSubscribeNetworkError (t : Transport)
| GetTransport (t : Transport)
| Called (f : Callback) (args : list Value).

(** What lies outside the class and is not among the sources, as
    parameters of the development: the identifiers of [./transportTypes],
    the transport classes, and the functions the consumer hands in.
    [raises ref args past] is what the consumer function [ref] throws when
    it is called with [args] after the calls [past], if it throws. *)
Class Imports := {
  SIGNALR_CORE_WEBSOCKETS : string;
  SIGNALR_CORE_LONG_POLLING : string;
  PLAIN_WEBSOCKETS : string;
  LEGACY_SIGNALR_WEBSOCKETS : string;
  LEGACY_SIGNALR_LONG_POLLING : string;
  statics : TransportClass → TransportStatics;
  raises : nat → list Value → list Event → option Value
}.

(** ** The fields of the class *)

Record Connection := mkConnection {
  baseUrl : string;
  failCallback : Callback;
  startCallback : option Callback;
  stateChangedCallback : Callback;
  receiveCallback : Callback;
  connectionSlowCallback : Callback;
  authToken : option string;
  authExpiry : Value;
  contextId : option string;
  options : gmap string Value;
  transports : list Candidate;
  state : State;
  transportIndex : option nat;
  transport : option Transport;
  unauthorizedCallback : option Callback
}.

Definition set_startCallback (v : option Callback) (c : Connection) :=
  mkConnection (baseUrl c) (failCallback c) v (stateChangedCallback c)
    (receiveCallback c) (connectionSlowCallback c) (authToken c)
    (authExpiry c) (contextId c) (options c) (transports c) (state c)
    (transportIndex c) (transport c) (unauthorizedCallback c).

Definition set_stateChangedCallback (v : Callback) (c : Connection) :=
  mkConnection (baseUrl c) (failCallback c) (startCallback c) v
    (receiveCallback c) (connectionSlowCallback c) (authToken c)
    (authExpiry c) (contextId c) (options c) (transports c) (state c)
    (transportIndex c) (transport c) (unauthorizedCallback c).

Definition set_receiveCallback (v : Callback) (c : Connection) :=
  mkConnection (baseUrl c) (failCallback c) (startCallback c)
    (stateChangedCallback c) v (connectionSlowCallback c) (authToken c)
    (authExpiry c) (contextId c) (options c) (transports c) (state c)
    (transportIndex c) (transport c) (unauthorizedCallback c).

Definition set_connectionSlowCallback (v : Callback) (c : Connection) :=
  mkConnection (baseUrl c) (failCallback c) (startCallback c)
    (stateChangedCallback c) (receiveCallback c) v (authToken c)
    (authExpiry c) (contextId c) (options c) (transports c) (state c)
    (transportIndex c) (transport c) (unauthorizedCallback c).

Definition set_query (tok : option string) (ctx : option string)
    (expiry : Value) (c : Connection) :=
  mkConnection (baseUrl c) (failCallback c) (startCallback c)
    (stateChangedCallback c) (receiveCallback c) (connectionSlowCallback c)
    tok expiry ctx (options c) (transports c) (state c)
    (transportIndex c) (transport c) (unauthorizedCallback c).

Definition set_state (v : State) (c : Connection) :=
  mkConnection (baseUrl c) (failCallback c) (startCallback c)
    (stateChangedCallback c) (receiveCallback c) (connectionSlowCallback c)
    (authToken c) (authExpiry c) (contextId c) (options c) (transports c) v
    (transportIndex c) (transport c) (unauthorizedCallback c).

Definition set_transportIndex (v : option nat) (c : Connection) :=
  mkConnection (baseUrl c) (failCallback c) (startCallback c)
    (stateChangedCallback c) (receiveCallback c) (connectionSlowCallback c)
    (authToken c) (authExpiry c) (contextId c) (options c) (transports c)
    (state c) v (transport c) (unauthorizedCallback c).

Definition set_transport (v : option Transport) (c : Connection) :=
  mkConnection (baseUrl c) (failCallback c) (startCallback c)
    (stateChangedCallback c) (receiveCallback c) (connectionSlowCallback c)
    (authToken c) (authExpiry c) (contextId c) (options c) (transports c)
    (state c) (transportIndex c) v (unauthorizedCallback c).

Definition set_unauthorizedCallback (v : option Callback) (c : Connection) :=
  mkConnection (baseUrl c) (failCallback c) (startCallback c)
    (stateChangedCallback c) (receiveCallback c) (connectionSlowCallback c)
    (authToken c) (authExpiry c) (contextId c) (options c) (transports c)
    (state c) (transportIndex c) (transport c) v.

(** ** State, trace and exceptions *)

Record World := mkWorld {
  conn : Connection;
  trace : list Event
}.

(** What can be thrown: a [TypeError] of the runtime, or whatever a
    consumer function throws. *)
Inductive Error :=
| TypeError (message : string)
| Thrown (value : Value).

Inductive Outcome (A : Type) :=
| Return (a : A)
| Throw (e : Error).
Arguments Return {A} a.
Arguments Throw {A} e.

(** A method body: it runs on the fields and the trace so far and either
    returns or throws; the fields written before a throw stay written. *)
Definition M (A : Type) : Type := World → Outcome A * World.

#[global] Instance M_ret : MRet M := λ A a w, (Return a, w).
#[global] Instance M_bind : MBind M := λ A B k m w,
  match m w with
  | (Return a, w') => k a w'
  | (Throw e, w') => (Throw e, w')
  end.

Definition this : M Connection := λ w, (Return (conn w), w).
Definition history : M (list Event) := λ w, (Return (trace w), w).
Definition assign (f : Connection → Connection) : M unit :=
  λ w, (Return (), mkWorld (f (conn w)) (trace w)).
Definition emit (e : Event) : M unit :=
  λ w, (Return (), mkWorld (conn w) (trace w ++ [e])).
Definition throw {A} (e : Error) : M A := λ w, (Throw e, w).

(** The events a computation appended, given the world it started from. *)
Definition emitted (before after : World) : list Event :=
  drop (length (trace before)) (trace after).

Definition of_string (o : option string) : Value :=
  match o with Some s => VStr s | None => VNull end.

Definition of_index (o : option nat) : Value :=
  match o with Some i => VNum (Z.of_nat i) | None => VNull end.

Definition of_optional (o : option Value) : Value :=
  match o with Some v => v | None => VUndefined end.

(** The one-character strings [s[0], s[1], ...]. *)
Fixpoint characters (s : string) : list string :=
  match s with
  | EmptyString => []
  | String a rest => String a EmptyString :: characters rest
  end.

(** [options.transport] as [getSupportedTransports] reads it: [None] when
    the value is falsy and the defaults are taken, otherwise the names
    [transportNames[0 .. length-1]].  The option is typed
    [Array<TransportTypes> | undefined] and nothing checks it: a non-empty
    string is indexed character by character, and a number or [true] has no
    [length], so the loop over it ends at once. *)
Definition requestedTransports (o : gmap string Value)
    : option (list string) :=
  match o !! "transport" with
  | Some (VArr names) => Some names
  | Some (VStr s) => if decide (s = "") then None else Some (characters s)
  | Some (VNum n) => if decide (n = 0%Z) then None else Some []
  | Some (VBool true) => Some []
  | _ => None
  end.

(** [{ ...defaults, ...overrides }]: the keys of [overrides] win. *)
Definition spread (defaults overrides : gmap string Value)
    : gmap string Value :=
  overrides ∪ defaults.

Section Methods.
Context {imports : Imports}.

(** ** The registry *)

Definition DEFAULT_TRANSPORTS : list string :=
  [PLAIN_WEBSOCKETS; LEGACY_SIGNALR_WEBSOCKETS].

Definition signalrCoreWebsockets : TransportEntry :=
  {| entry_options :=
       <["skipNegotiation" := VBool true]>
         {["transportType" := VStr SIGNALR_CORE_WEBSOCKETS]};
     entry_instance := SignalrCoreTransport |}.

Definition signalrCoreLongPolling : TransportEntry :=
  {| entry_options :=
       <["skipNegotiation" := VBool false]>
         {["transportType" := VStr SIGNALR_CORE_LONG_POLLING]};
     entry_instance := SignalrCoreTransport |}.

Definition plainWebsockets : TransportEntry :=
  {| entry_options := ∅; entry_instance := WebsocketTransport |}.

Definition legacySignalr : TransportEntry :=
  {| entry_options := ∅; entry_instance := SignalrTransport |}.

(** The own properties of the object literal, its computed keys written in
    source order: a key that repeats an earlier one would replace it. *)
Definition TRANSPORT_NAME_MAP : gmap string TransportEntry :=
  <[LEGACY_SIGNALR_LONG_POLLING := legacySignalr]>
  (<[LEGACY_SIGNALR_WEBSOCKETS := legacySignalr]>
  (<[PLAIN_WEBSOCKETS := plainWebsockets]>
  (<[SIGNALR_CORE_LONG_POLLING := signalrCoreLongPolling]>
  (<[SIGNALR_CORE_WEBSOCKETS := signalrCoreWebsockets]> ∅)))).

(** [TRANSPORT_NAME_MAP[transportName]]: the own property if there is one,
    else what the prototype chain gives, else [undefined]. *)
Definition TRANSPORT_NAME_MAP_at (transportName : string)
    : option Candidate :=
  match TRANSPORT_NAME_MAP !! transportName with
  | Some entry => Some (Listed entry)
  | None =>
      if decide (transportName ∈ Object_prototype)
      then Some (Inherited transportName)
      else None
  end.

(** The [for] loop of [getSupportedTransports], pushing onto [supported]
    whatever the lookup gives that is truthy. *)
Fixpoint pushSupported (transportNames : list string)
    (supported : list Candidate) : list Candidate :=
  match transportNames with
  | [] => supported
  | transportName :: rest =>
      match TRANSPORT_NAME_MAP_at transportName with
      | Some found => pushSupported rest (supported ++ [found])
      | None => pushSupported rest supported
      end
  end.

Definition getSupportedTransports (requestedTrasnports : option (list string))
    : list Candidate :=
  let transportNames :=
    match requestedTrasnports with
    | Some names => names
    | None => DEFAULT_TRANSPORTS
    end in
  pushSupported transportNames [].

(** ** Private helpers *)

Definition getLogDetails (c : Connection) : list (string * Value) :=
  [("url", VStr (baseUrl c));
   ("index", of_index (transportIndex c));
   ("contextId", of_string (contextId c));
   ("enabledTransports", of_optional (options c !! "transport"))].

Definition transport_name (t : Transport) : string :=
  name (statics (t_class t)).

(** Calling a function value; every call is recorded.  [NOOP] returns; a
    consumer function returns or throws as [raises] says.  A bound
    [ensureValidState] runs the guard: in the disposed state it reads
    [this.transport.name] for the log record (a [TypeError] when
    [this.transport] is [null]), logs and returns; otherwise it calls
    [callback] with the same arguments, and what [callback] throws
    propagates. *)
Fixpoint call (f : Callback) (args : list Value) : M unit :=
  emit (Called f args);;
  match f with
  | Bound callback callbackType =>
      c ← this;
      if decide (state c = STATE_DISPOSED) then
        match transport c with
        | None =>
            throw (TypeError "Cannot read properties of null (reading 'name')")
        | Some t =>
            emit (Log warn "callback called after transport was disposed"
                    [("callback", VStr callbackType);
                     ("transport", VStr (transport_name t));
                     ("contextId", of_string (contextId c))])
        end
      else call callback args
  | Consumer ref =>
      past ← history;
      match raises ref args past with
      | Some value => throw (Thrown value)
      | None => mret ()
      end
  | NOOP => mret ()
  end.

Definition ensureValidState (callback : Callback) (callbackType : string)
    (args : list Value) : M unit :=
  call (Bound callback callbackType) args.

(** The cursor value [createTransport] moves to. *)
Definition advance (c : Connection) : nat :=
  match transportIndex c with
  | None => 0
  | Some i => S i
  end.

(** [this.transportIndex > this.transports.length - 1], on integers. *)
Definition pastLast (i : nat) (c : Connection) : bool :=
  (Z.of_nat (length (transports c)) - 1 <? Z.of_nat i)%Z.

Definition remaining (w : World) : nat :=
  S (length (transports (conn w))) - advance (conn w).

(** [createTransport(baseUrl)]: the cursor moves first; past the last index
    the method returns [null]; otherwise it reads the [instance] of the
    candidate under the cursor and calls its [isSupported()], which throws
    a [TypeError] when the candidate is an inherited value, whose
    [instance] is [undefined]; an unsupported class sends the method round
    again, a supported one is constructed and returned. *)
Equations? createTransport (url : string) (w : World)
    : Outcome (option Transport) * World by wf (remaining w) lt :=
createTransport url w
    with inspect (pastLast (advance (conn w)) (conn w)) := {
  | exist _ true _ =>
      (Return None,
       mkWorld (set_transportIndex (Some (advance (conn w))) (conn w))
         (trace w));
  | exist _ false Hin
      with inspect (transports (conn w) !! advance (conn w)) := {
    | exist _ None _ =>
        (Throw (TypeError
           "Cannot read properties of undefined (reading 'instance')"),
         mkWorld (set_transportIndex (Some (advance (conn w))) (conn w))
           (trace w));
    | exist _ (Some (Inherited _)) _ =>
        (Throw (TypeError
           "Cannot read properties of undefined (reading 'isSupported')"),
         mkWorld (set_transportIndex (Some (advance (conn w))) (conn w))
           (trace w));
    | exist _ (Some (Listed entry)) Hentry =>
        let i := advance (conn w) in
        let SelectedTransport := entry_instance entry in
        let w' :=
          mkWorld (set_transportIndex (Some i) (conn w))
            (trace w ++ [IsSupported i SelectedTransport]) in
        if isSupported (statics SelectedTransport) then
          let t := {| t_index := i; t_class := SelectedTransport |} in
          (Return (Some t),
           mkWorld (conn w') (trace w' ++ [New t url this_onTransportFail]))
        else createTransport url w'
    }
  }.
Proof.
  unfold pastLast in Hin. apply Z.ltb_ge in Hin.
  subst w' i. unfold remaining, advance in *. cbn.
  destruct (transportIndex (conn w)); lia.
Qed.

(** [{ ...this.transports[this.transportIndex].options, ...this.options }];
    spreading the [undefined] options of an inherited value adds nothing. *)
Definition transportOptions : M (gmap string Value) :=
  c ← this;
  match transportIndex c ≫= (transports c !!.) with
  | Some (Listed entry) => mret (spread (entry_options entry) (options c))
  | Some (Inherited _) => mret (spread ∅ (options c))
  | None =>
      throw (TypeError
        "Cannot read properties of undefined (reading 'options')")
  end.

Definition onTransportFail (err : Value) : M unit :=
  c ← this;
  emit (Log info "Transport failed" (("error", err) :: getLogDetails c));;
  created ← createTransport (baseUrl c);
  assign (set_transport created);;
  c ← this;
  match transport c with
  | None =>
      emit (Log warn "Next supported Transport not found"
              (("error", err) :: getLogDetails c));;
      call (failCallback c) []
  | Some t =>
      emit (Log debug "Next supported Transport found"
              [("name", VStr (transport_name t))]);;
      emit (SetReceivedCallback t (Some (receiveCallback c)));;
      emit (SetStateChangedCallback t (Some (stateChangedCallback c)));;
      emit (SetUnauthorizedCallback t (unauthorizedCallback c));;
      emit (SetConnectionSlowCallback t (Some (connectionSlowCallback c)));;
      if decide (state c = STATE_STARTED) then
        emit (UpdateQuery t (authToken c) (contextId c) (authExpiry c) None);;
        merged ← transportOptions;
        emit (Start t merged (startCallback c))
      else mret ()
  end.

(** ** Construction *)

(** The field initialisers followed by the plain assignments of the
    constructor, up to and including [this.transports]. *)
Definition fields (opts : gmap string Value) (url : string)
    (onFail : Callback) : Connection :=
  {| baseUrl := url;
     failCallback := onFail;
     startCallback := Some NOOP;
     stateChangedCallback := NOOP;
     receiveCallback := NOOP;
     connectionSlowCallback := NOOP;
     authToken := None;
     authExpiry := VNull;
     contextId := None;
     options := opts;
     transports := getSupportedTransports (requestedTransports opts);
     state := STATE_CREATED;
     transportIndex := None;
     transport := None;
     unauthorizedCallback := None |}.

(** The rest of the constructor body. *)
Definition constructor (onFail : Callback) : M unit :=
  c ← this;
  created ← createTransport (baseUrl c);
  assign (set_transport created);;
  c ← this;
  match transport c with
  | None =>
      emit (Log error
              "Unable to setup initial transport. Supported Transport not found."
              (getLogDetails c));;
      call onFail []
  | Some t =>
      emit (Log debug "Supported Transport found"
              [("name", VStr (transport_name t))])
  end.

(** [new Connection(options, baseUrl, failCallback)]; an omitted
    [failCallback] defaults to [NOOP]. *)
Definition new_Connection (opts : gmap string Value) (url : string)
    (onFail : option Callback) : Outcome unit * World :=
  let onFail := default NOOP onFail in
  constructor onFail (mkWorld (fields opts url onFail) []).

(** ** Public methods *)

Definition setUnauthorizedCallback (callback : Callback) : M unit :=
  c ← this;
  match transport c with
  | Some t =>
      let bound := Bound callback "unauthorizedCallback" in
      assign (set_unauthorizedCallback (Some bound));;
      emit (SetUnauthorizedCallback t (Some bound))
  | None => mret ()
  end.

Definition setStateChangedCallback (callback : Callback) : M unit :=
  c ← this;
  match transport c with
  | Some t =>
      let bound := Bound callback "stateChangedCallback" in
      assign (set_stateChangedCallback bound);;
      emit (SetStateChangedCallback t (Some bound))
  | None => mret ()
  end.

Definition setReceivedCallback (callback : Callback) : M unit :=
  c ← this;
  match transport c with
  | Some t =>
      let bound := Bound callback "receivedCallback" in
      assign (set_receiveCallback bound);;
      emit (SetReceivedCallback t (Some bound))
  | None => mret ()
  end.

Definition setConnectionSlowCallback (callback : Callback) : M unit :=
  c ← this;
  match transport c with
  | Some t =>
      let bound := Bound callback "connectionSlowCallback" in
      assign (set_connectionSlowCallback bound);;
      emit (SetConnectionSlowCallback t (Some bound))
  | None => mret ()
  end.

Definition start (callback : Callback) : M unit :=
  c ← this;
  match transport c with
  | Some t =>
      assign (set_state STATE_STARTED);;
      assign (set_startCallback (Some callback));;
      merged ← transportOptions;
      emit (Start t merged (Some callback))
  | None => mret ()
  end.

Definition stop : M unit :=
  c ← this;
  match transport c with
  | Some t =>
      assign (set_state STATE_STOPPED);;
      emit (Stop t)
  | None => mret ()
  end.

Definition dispose : M unit :=
  assign (set_state STATE_DISPOSED).

(** [authExpiry] may be omitted ([undefined]); [forceAuth] defaults to
    [false]. *)
Definition updateQuery (token context : string) (expiry : option Z)
    (forceAuth : option bool) : M unit :=
  let expiry := from_option VNum VUndefined expiry in
  let forceAuth := default false forceAuth in
  assign (set_query (Some token) (Some context) expiry);;
  emit (Log debug "Connection update query"
          [("contextId", VStr context); ("authExpiry", expiry)]);;
  c ← this;
  match transport c with
  | Some t =>
      emit (UpdateQuery t (authToken c) (contextId c) (authExpiry c)
              (Some forceAuth))
  | None => mret ()
  end.

(** What a method hands back: nothing, [null], the active transport, or
    what the transport's own [getQuery()] / [getTransport()] returned. *)
Inductive Returned :=
| RUndefined
| RNull
| RTransport (t : Transport)
| RQueryOf (t : Transport)
| RUnwrapped (t : Transport).

Definition getQuery : M Returned :=
  c ← this;
  match transport c with
  | Some t => emit (GetQuery t);; mret (RQueryOf t)
  | None => mret RUndefined
  end.

Definition onOrphanFound : M unit :=
  c ← this;
  match transport c with
  | Some t =>
      if has_onOrphanFound (statics (t_class t))
      then emit (OnOrphanFound t) else mret ()
  | None => mret ()
  end.

Definition onSubscribeNetworkError : M unit :=
  c ← this;
  match transport c with
  | Some t =>
      if has_onSubscribeNetworkError (statics (t_class t))
      then emit (OnSubscribeNetworkError t) else mret ()
  | None => mret ()
  end.

Definition getTransport : M Returned :=
  c ← this;
  match transport c with
  | None => mret RNull
  | Some t =>
      if hasOwn_getTransport (statics (t_class t))
      then emit (GetTransport t);; mret (RUnwrapped t)
      else mret (RTransport t)
  end.

(** ** The life of a Connection *)

(** What can happen to a constructed Connection: the consumer calls a public
    method, a transport reports failure through the handler it was built
    with, or a transport invokes a function it was handed. *)
Inductive Op :=
| DoSetUnauthorizedCallback (callback : Callback)
| DoSetStateChangedCallback (callback : Callback)
| DoSetReceivedCallback (callback : Callback)
| DoSetConnectionSlowCallback (callback : Callback)
| DoStart (callback : Callback)
| DoStop
| DoDispose
| DoUpdateQuery (token context : string) (expiry : option Z)
    (forceAuth : option bool)
| DoGetQuery
| DoOnOrphanFound
| DoOnSubscribeNetworkError
| DoGetTransport
| TransportFails (err : Value)
| TransportCalls (f : Callback) (args : list Value).

Definition perform (op : Op) : M unit :=
  match op with
  | DoSetUnauthorizedCallback cb => setUnauthorizedCallback cb
  | DoSetStateChangedCallback cb => setStateChangedCallback cb
  | DoSetReceivedCallback cb => setReceivedCallback cb
  | DoSetConnectionSlowCallback cb => setConnectionSlowCallback cb
  | DoStart cb => start cb
  | DoStop => stop
  | DoDispose => dispose
  | DoUpdateQuery token context expiry forceAuth =>
      updateQuery token context expiry forceAuth
  | DoGetQuery => getQuery;; mret ()
  | DoOnOrphanFound => onOrphanFound
  | DoOnSubscribeNetworkError => onSubscribeNetworkError
  | DoGetTransport => getTransport;; mret ()
  | TransportFails err => onTransportFail err
  | TransportCalls f args => call f args
  end.

(** One step: the world after the operation, whether it returned or threw
    (an exception unwinds that one call; the object lives on). *)
Definition step (w : World) (op : Op) : World := (perform op w).2.

Definition run (w : World) (ops : list Op) : World := foldl step w ops.

(** The world right after [new Connection(...)]. *)
Definition constructed (opts : gmap string Value) (url : string)
    (onFail : option Callback) : World :=
  (new_Connection opts url onFail).2.

End Methods.

(** ** Reading a trace *)

Definition instantiated (e : Event) : option nat :=
  match e with New t _ _ => Some (t_index t) | _ => None end.

(** The candidate-list indices at which a transport was constructed, in
    order. *)
Definition instantiations (tr : list Event) : list nat :=
  omap instantiated tr.

Definition probed (e : Event) : option nat :=
  match e with IsSupported i _ => Some i | _ => None end.

(** The candidate-list indices whose [isSupported()] was evaluated. *)
Definition probes (tr : list Event) : list nat := omap probed tr.

(** [is_call_of f e]: the event is the call [f()]. *)
Definition is_call_of (f : Callback) (e : Event) : bool :=
  match e with
  | Called g [] => bool_decide (g = f)
  | _ => false
  end.

(** How many times [f()] was called. *)
Definition fired (f : Callback) (tr : list Event) : nat :=
  length (List.filter (is_call_of f) tr).

Definition reaches_consumer (e : Event) : bool :=
  match e with
  | Called (Consumer _) _ => true
  | _ => false
  end.

(** The calls that ran a function supplied by the consumer. *)
Definition consumer_calls (tr : list Event) : list Event :=
  List.filter reaches_consumer tr.

(** [f] was handed to some transport as one of the four forwarding
    callbacks. *)
Definition registered (f : Callback) (tr : list Event) : Prop :=
  ∃ t, SetReceivedCallback t (Some f) ∈ tr
       ∨ SetStateChangedCallback t (Some f) ∈ tr
       ∨ SetUnauthorizedCallback t (Some f) ∈ tr
       ∨ SetConnectionSlowCallback t (Some f) ∈ tr.

(** [f] is [NOOP] or sits behind the disposal guard. *)
Definition shielded (f : Callback) : Prop :=
  f = NOOP ∨ ∃ callback callbackType, f = Bound callback callbackType.

(** Whatever the event registers as a forwarding callback is shielded. *)
Definition registers_shielded (e : Event) : Prop :=
  match e with
  | SetReceivedCallback _ (Some f)
  | SetStateChangedCallback _ (Some f)
  | SetUnauthorizedCallback _ (Some f)
  | SetConnectionSlowCallback _ (Some f) => shielded f
  | _ => True
  end.

(** The forwarding callbacks stored in the fields are shielded, and so is
    every one registered on a transport so far. *)
Definition all_shielded (w : World) : Prop :=
  shielded (receiveCallback (conn w))
  ∧ shielded (stateChangedCallback (conn w))
  ∧ shielded (connectionSlowCallback (conn w))
  ∧ (∀ f, unauthorizedCallback (conn w) = Some f → shielded f)
  ∧ Forall registers_shielded (trace w).

(** [f] was handed to some transport as its start-completion callback. *)
Definition passed_to_start (f : Callback) (tr : list Event) : Prop :=
  ∃ t merged, Start t merged (Some f) ∈ tr.

(** What a call of [f] may append after its own record: log records and
    calls of functions wrapped inside [f]. *)
Definition inner (f : Callback) (e : Event) : Prop :=
  match e with
  | Called g _ => depth g < depth f
  | Log _ _ _ => True
  | _ => False
  end.

(** The order on cursor values: unset comes first. *)
Definition cursor_le (a b : option nat) : Prop :=
  match a, b with
  | None, _ => True
  | Some i, Some j => i ≤ j
  | Some _, None => False
  end.

Section Search.
Context {imports : Imports}.

Definition viable (entry : TransportEntry) : bool :=
  isSupported (statics (entry_instance entry)).

(** What [candidate.instance.isSupported()] answers.  An inherited value
    has no [instance], so there is nothing to ask: the call throws. *)
Definition answer (x : Candidate) : option bool :=
  match x with
  | Listed entry => Some (viable entry)
  | Inherited _ => None
  end.

(** The candidate is an entry of the object literal. *)
Definition listed (x : Candidate) : Prop :=
  match x with
  | Listed _ => True
  | Inherited _ => False
  end.

(** The cursor search told over the part of the candidate list that lies
    ahead, [rest = drop i transports]: the calls it makes, how it ends and
    where it leaves the cursor.  [createTransport_search] below shows that
    [createTransport] computes exactly this. *)
Fixpoint search (url : string) (i : nat) (rest : list Candidate)
    : list Event * (Outcome (option Transport) * nat) :=
  match rest with
  | [] => ([], (Return None, i))
  | Inherited _ :: _ =>
      ([],
       (Throw (TypeError
          "Cannot read properties of undefined (reading 'isSupported')"),
        i))
  | Listed entry :: rest =>
      let probe := IsSupported i (entry_instance entry) in
      if viable entry then
        let t := {| t_index := i; t_class := entry_instance entry |} in
        ([probe; New t url this_onTransportFail], (Return (Some t), i))
      else
        let '(events, ending) := search url (S i) rest in
        (probe :: events, ending)
  end.

(** The probes made on the candidates [i, i+1, ...] of [candidates] when
    each of them is asked: one per entry of the object literal. *)
Fixpoint probing (i : nat) (candidates : list Candidate) : list Event :=
  match candidates with
  | [] => []
  | Listed entry :: rest =>
      IsSupported i (entry_instance entry) :: probing (S i) rest
  | Inherited _ :: rest => probing (S i) rest
  end.

(** The candidate at [k] is the next viable one for a cursor that advances
    to [i]: it reports supported and every candidate from [i] up to it
    reports unsupported. *)
Definition next_viable (c : Connection) (k : nat) (entry : TransportEntry)
    : Prop :=
  advance c ≤ k
  ∧ transports c !! k = Some (Listed entry)
  ∧ viable entry = true
  ∧ ∀ j skipped, advance c ≤ j < k → transports c !! j = Some skipped →
      answer skipped = Some false.

(** Every candidate ahead of the cursor reports unsupported. *)
Definition exhausted (c : Connection) : Prop :=
  ∀ j skipped, advance c ≤ j → transports c !! j = Some skipped →
    answer skipped = Some false.

(** The search from the cursor stops at [j], on an inherited value: every
    candidate from the cursor up to it reports unsupported. *)
Definition blocked (c : Connection) (j : nat) (inherited : string) : Prop :=
  advance c ≤ j
  ∧ transports c !! j = Some (Inherited inherited)
  ∧ ∀ i skipped, advance c ≤ i < j → transports c !! i = Some skipped →
      answer skipped = Some false.

(** The cursor is past the end of the candidate list. *)
Definition past_the_end (c : Connection) : Prop :=
  ∃ i, transportIndex c = Some i ∧ length (transports c) ≤ i.

(** What the class maintains between operations over a candidate list of
    entries of the object literal: the active transport is the instance
    built from [transports[transportIndex]], or there is none and the
    cursor is past the end. *)
Definition cursor_inv (c : Connection) : Prop :=
  match transport c with
  | Some t =>
      transportIndex c = Some (t_index t)
      ∧ ∃ entry, transports c !! t_index t = Some (Listed entry)
                 ∧ t_class t = entry_instance entry
  | None => past_the_end c
  end.

(** The probes a search makes when it starts from the cursor of [c] and
    stops at [k]. *)
Definition probes_upto (c : Connection) (k : nat) : list Event :=
  probing (advance c)
    (take (S k - advance c) (drop (advance c) (transports c))).

(** The probes of a search that runs off the end of the list. *)
Definition probes_all (c : Connection) : list Event :=
  probing (advance c) (drop (advance c) (transports c)).

(** The four forwarding callbacks as the handler registers them on [t]. *)
Definition registrations (t : Transport) (c : Connection) : list Event :=
  [SetReceivedCallback t (Some (receiveCallback c));
   SetStateChangedCallback t (Some (stateChangedCallback c));
   SetUnauthorizedCallback t (unauthorizedCallback c);
   SetConnectionSlowCallback t (Some (connectionSlowCallback c))].

(** What holds of a Connection between operations whatever its candidate
    list holds, fields and trace taken together: the cursor is set, every
    index was instantiated at most once and in increasing order, none lies
    beyond the cursor, and the active transport is the one constructed
    last, built from the entry at its index, with the cursor inside the
    list. *)
Definition well_searched (w : World) : Prop :=
  is_Some (transportIndex (conn w))
  ∧ StronglySorted lt (instantiations (trace w))
  ∧ (∀ i, i ∈ instantiations (trace w) →
       cursor_le (Some i) (transportIndex (conn w)))
  ∧ (∀ t, transport (conn w) = Some t →
       New t (baseUrl (conn w)) this_onTransportFail ∈ trace w
       ∧ last (instantiations (trace w)) = Some (t_index t)
       ∧ (∃ entry, transports (conn w) !! t_index t = Some (Listed entry)
                   ∧ t_class t = entry_instance entry)
       ∧ ∃ i x, transportIndex (conn w) = Some i
                ∧ transports (conn w) !! i = Some x).

(** [createTransport] on [w] returns [null]: the search runs off the end. *)
Definition finds_nothing (w : World) : bool :=
  match (createTransport (baseUrl (conn w)) w).1 with
  | Return None => true
  | _ => false
  end.

(** How often the failure handler found the candidate list exhausted while
    [ops] ran from [w]. *)
Fixpoint exhausted_handlings (w : World) (ops : list Op) : nat :=
  match ops with
  | [] => 0
  | op :: rest =>
      match op with
      | TransportFails _ => if finds_nothing w then 1 else 0
      | _ => 0
      end + exhausted_handlings (step w op) rest
  end.

(** How often a search found the list exhausted in the life of a
    Connection: possibly once in the constructor, then in the handler. *)
Definition exhaustions (opts : gmap string Value) (url : string)
    (onFail : option Callback) (ops : list Op) : nat :=
  (if finds_nothing (mkWorld (fields opts url (default NOOP onFail)) [])
   then 1 else 0)
  + exhausted_handlings (constructed opts url onFail) ops.

Definition is_failure (op : Op) : bool :=
  match op with TransportFails _ => true | _ => false end.

(** The failures reported in [ops]. *)
Definition failures (ops : list Op) : nat :=
  length (List.filter is_failure ops).

(** The transports keep to their contract: a transport reports failure at
    most once, so each report comes from a transport that was constructed
    and has not reported before. *)
Definition one_report_each (w : World) (ops : list Op) : Prop :=
  ∀ before err after, ops = before ++ TransportFails err :: after →
    failures before < length (instantiations (trace (run w before))).

(** [g] is [f] or a function [f] wraps, at any depth. *)
Fixpoint wraps (f g : Callback) : Prop :=
  g = f
  ∨ match f with
    | Bound callback _ => wraps callback g
    | _ => False
    end.

(** The innermost function of [f], the one the guards stand in front of. *)
Fixpoint innermost (f : Callback) : Callback :=
  match f with
  | Bound callback _ => innermost callback
  | _ => f
  end.

(** The calls recorded when [f] is called with [args] and every guard on
    the way lets the call through. *)
Fixpoint descent (f : Callback) (args : list Value) : list Event :=
  Called f args
  :: match f with
     | Bound callback _ => descent callback args
     | _ => []
     end.

(** How the call of an unguarded function ends, after the calls [past]. *)
Definition outcome_of (f : Callback) (args : list Value) (past : list Event)
    : Outcome unit :=
  match f with
  | Consumer ref =>
      match raises ref args past with
      | Some value => Throw (Thrown value)
      | None => Return ()
      end
  | _ => Return ()
  end.

(** The candidate at position [i] of the list is an entry of the object
    literal. *)
Definition holds_entry (candidates : list Candidate) (i : nat) : bool :=
  match candidates !! i with
  | Some (Listed _) => true
  | _ => false
  end.

End Search.

(** ** A concrete environment

    Identifiers for [./transportTypes], transport classes whose probe
    answers as [supported] says, and consumer functions that return; used
    to run the class on examples. *)
Definition example_imports (supported : TransportClass → bool) : Imports :=
  {| SIGNALR_CORE_WEBSOCKETS := "signalrCoreWebSockets";
     SIGNALR_CORE_LONG_POLLING := "signalrCoreLongPolling";
     PLAIN_WEBSOCKETS := "plainWebSockets";
     LEGACY_SIGNALR_WEBSOCKETS := "webSockets";
     LEGACY_SIGNALR_LONG_POLLING := "longPolling";
     statics := λ c,
       {| isSupported := supported c;
          name :=
            match c with
            | SignalrCoreTransport => "signalr-core"
            | WebsocketTransport => "plainWebSockets"
            | SignalrTransport => "signalr"
            end;
          has_onOrphanFound := bool_decide (c = WebsocketTransport);
          has_onSubscribeNetworkError := bool_decide (c = WebsocketTransport);
          hasOwn_getTransport := bool_decide (c = SignalrTransport) |};
     raises := λ _ _ _, None |}.

(** The same environment, except that the consumer function [ref] throws
    [value] whenever it is called. *)
Definition throwing (ref : nat) (value : Value) (i : Imports) : Imports :=
  {| SIGNALR_CORE_WEBSOCKETS := @SIGNALR_CORE_WEBSOCKETS i;
     SIGNALR_CORE_LONG_POLLING := @SIGNALR_CORE_LONG_POLLING i;
     PLAIN_WEBSOCKETS := @PLAIN_WEBSOCKETS i;
     LEGACY_SIGNALR_WEBSOCKETS := @LEGACY_SIGNALR_WEBSOCKETS i;
     LEGACY_SIGNALR_LONG_POLLING := @LEGACY_SIGNALR_LONG_POLLING i;
     statics := @statics i;
     raises := λ r args past,
       if decide (r = ref) then Some value else @raises i r args past |}.

(** Every transport is supported. *)
Definition modern : Imports := example_imports (λ _, true).

(** No WebSocket in the environment: only the legacy SignalR transport
    reports supported. *)
Definition legacy_only : Imports :=
  example_imports (λ c, bool_decide (c = SignalrTransport)).

(** Nothing is supported. *)
Definition barren : Imports := example_imports (λ _, false).

(** ** More ways to read a trace *)

(** The instance a construction or a method call is addressed to. *)
Definition target (e : Event) : option Transport :=
  match e with
  | New t _ _
  | SetReceivedCallback t _
  | SetStateChangedCallback t _
  | SetUnauthorizedCallback t _
  | SetConnectionSlowCallback t _
  | UpdateQuery t _ _ _ _
  | Start t _ _
  | Stop t
  | GetQuery t
  | OnOrphanFound t
  | OnSubscribeNetworkError t
  | GetTransport t => Some t
  | _ => None
  end.

(** The event probes nothing and, when it is addressed to an instance, that
    instance is [active]. *)
Definition addressed_to (active : option Transport) (e : Event) : Prop :=
  probed e = None
  ∧ ∀ t, target e = Some t → active = Some t.

(** The consumer's public methods, as opposed to what a transport does. *)
Definition is_public (op : Op) : bool :=
  match op with
  | TransportFails _ | TransportCalls _ _ => false
  | _ => true
  end.

(** The public methods that do something even without a transport. *)
Definition needs_no_transport (op : Op) : bool :=
  match op with
  | DoDispose | DoUpdateQuery _ _ _ _ => true
  | _ => false
  end.

(** * TransportCore: the request layer

    The class of [transport/core.ts].  Its collaborators ([formatUrl],
    [shouldUseCloud], [getRequestId], [fetch], the base class) are not among
    the sources: the first two are parameters, the request id that
    [getRequestId().toString()] would yield is an argument of the call, and
    the call of [this.fetch] is what a transport method returns.  Bodies,
    query parameters, template arguments and service options are passed
    through unread, so their types are parameters too. *)
Module TransportCore.

Inductive Exception :=
| Error (message : string).

(** [!s] for a value typed [string | null | undefined]. *)
Definition missing (s : option string) : bool :=
  match s with
  | Some s => bool_decide (s = "")
  | None => true
  end.

Section Core.
Context {Body QueryParams TemplateArgs ServiceOptions : Type}.
Variable formatUrl :
  string → option TemplateArgs → option QueryParams → string.
Variable shouldUseCloud : option ServiceOptions → bool.

(** The constructor's [options]. *)
Record Options := {
  opt_language : option string;
  opt_defaultCache : option bool;
  opt_services : option (gmap string ServiceOptions)
}.

(** The per-call [options]. *)
Record TransportCoreOptions := {
  headers : option (gmap string string);
  body : option Body;
  cache : option bool;
  queryParams : option QueryParams;
  requestId : option string
}.

(** The fields of the class. *)
Record Instance := {
  baseUrl : string;
  language : option string;
  services : gmap string ServiceOptions;
  defaultCache : bool;
  useXHttpMethodOverride : bool
}.

(** The third argument of [this.fetch]. *)
Record FetchOptions := {
  fetch_body : option Body;
  fetch_headers : gmap string string;
  fetch_cache : bool;
  fetch_useXHttpMethodOverride : bool
}.

(** A call [this.fetch(method, url, options)]; [asked_for_id] tells whether
    [getRequestId()] was called on the way. *)
Record Fetch := {
  fetch_method : string;
  fetch_url : string;
  fetch_options : FetchOptions;
  asked_for_id : bool
}.

Definition constructor (baseUrl : option string) (options : option Options)
    : Exception + Instance :=
  match baseUrl with
  | Some url =>
      if missing (Some url) then
        inl (Error "Missing required parameter: baseUrl")
      else
        inr {| baseUrl := url;
               language := options ≫= opt_language;
               services := default ∅ (options ≫= opt_services);
               defaultCache :=
                 match options ≫= opt_defaultCache with
                 | Some b => b
                 | None => true
                 end;
               useXHttpMethodOverride := false |}
  | None => inl (Error "Missing required parameter: baseUrl")
  end.

Definition setUseXHttpMethodOverride (value : bool) (this : Instance)
    : Instance :=
  {| baseUrl := baseUrl this;
     language := language this;
     services := services this;
     defaultCache := defaultCache this;
     useXHttpMethodOverride := value |}.

(** [if (this.language) { if (!headers['Accept-Language']) ... }] *)
Definition addLanguage (this : Instance) (headers : gmap string string)
    : gmap string string :=
  match language this with
  | Some lang =>
      if negb (missing (Some lang)) && missing (headers !! "Accept-Language")
      then <["Accept-Language" := (lang ++ ", *;q=0.5")%string]> headers
      else headers
  | None => headers
  end.

(** [if (!headers['X-Request-Id']) { headers['X-Request-Id'] =
    (options && options.requestId) || getRequestId().toString() }];
    the boolean tells whether [getRequestId()] was called. *)
Definition addRequestId (options : option TransportCoreOptions)
    (generated : string) (headers : gmap string string)
    : gmap string string * bool :=
  if missing (headers !! "X-Request-Id") then
    if missing (options ≫= requestId) then
      (<["X-Request-Id" := generated]> headers, true)
    else
      (<["X-Request-Id" := default "" (options ≫= requestId)]> headers, false)
  else (headers, false).

(** The function [prepareTransportMethod(method)] returns, applied to its
    four arguments; [generated] is what [getRequestId().toString()] yields
    if it is called.  [headers] is the caller's own object when one is
    given, so what is sent is also what the caller's object holds
    afterwards. *)
Definition prepareTransportMethod (this : Instance) (method : string)
    (servicePath urlTemplate : option string)
    (templateArgs : option TemplateArgs)
    (options : option TransportCoreOptions) (generated : string)
    : Exception + Fetch :=
  match servicePath, urlTemplate with
  | Some servicePath, Some urlTemplate =>
      if missing (Some servicePath) || missing (Some urlTemplate) then
        inl (Error "Transport calls require a service path and a URL")
      else
        let headers : gmap string string :=
          default ∅ (options ≫= headers) in
        let cache :=
          match options ≫= cache with
          | Some b => b
          | None => defaultCache this
          end in
        let url := formatUrl urlTemplate templateArgs (options ≫= queryParams) in
        let headers := addLanguage this headers in
        let headers := addRequestId options generated headers in
        let basePath :=
          if shouldUseCloud (services this !! servicePath)
          then "/oapi" else "/openapi" in
        inr {| fetch_method := method;
               fetch_url :=
                 (baseUrl this ++ basePath ++ "/" ++ servicePath ++ "/"
                  ++ url)%string;
               fetch_options :=
                 {| fetch_body := options ≫= body;
                    fetch_headers := headers.1;
                    fetch_cache := cache;
                    fetch_useXHttpMethodOverride :=
                      useXHttpMethodOverride this |};
               asked_for_id := headers.2 |}
  | _, _ => inl (Error "Transport calls require a service path and a URL")
  end.

End Core.

End TransportCore.

(** ** A concrete request layer *)

(** A gateway that sends English, with every service outside the cloud and
    templates used as they are. *)
Definition gateway : TransportCore.Instance (ServiceOptions := unit) :=
  {| TransportCore.baseUrl := "https://gateway";
     TransportCore.language := Some "en";
     TransportCore.services := ∅;
     TransportCore.defaultCache := true;
     TransportCore.useXHttpMethodOverride := false |}.

Definition plain_template (template : string) (args : option unit)
    (query : option unit) : string := template.

Definition never_cloud (service : option unit) : bool := false.

(** A call with its own request-id header and nothing else. *)
Definition tagged_call : TransportCore.TransportCoreOptions
    (Body := unit) (QueryParams := unit) :=
  {| TransportCore.headers := Some {["X-Request-Id" := "abc"]};
     TransportCore.body := None;
     TransportCore.cache := Some false;
     TransportCore.queryParams := None;
     TransportCore.requestId := Some "ignored" |}.

(** * Properties *)

Section Facts.
Context {imports : Imports}.

(** ** The cursor search *)

Lemma createTransport_eq url w :
  createTransport url w =
    let i := advance (conn w) in
    let moved := set_transportIndex (Some i) (conn w) in
    if pastLast i (conn w) then (Return None, mkWorld moved (trace w))
    else
      match transports (conn w) !! i with
      | None =>
          (Throw (TypeError
             "Cannot read properties of undefined (reading 'instance')"),
           mkWorld moved (trace w))
      | Some (Inherited _) =>
          (Throw (TypeError
             "Cannot read properties of undefined (reading 'isSupported')"),
           mkWorld moved (trace w))
      | Some (Listed entry) =>
          let w' :=
            mkWorld moved (trace w ++ [IsSupported i (entry_instance entry)]) in
          if viable entry then
            let t := {| t_index := i; t_class := entry_instance entry |} in
            (Return (Some t),
             mkWorld moved (trace w' ++ [New t url this_onTransportFail]))
          else createTransport url w'
      end.
Proof.
  rewrite createTransport_equation_1.
  assert (second : ∀ o (e : transports (conn w) !! advance (conn w) = o) Hin,
    createTransport_unfold_clause_1_clause_2 url w (o ↾ e) Hin =
      match o with
      | None =>
          (Throw (TypeError
             "Cannot read properties of undefined (reading 'instance')"),
           mkWorld (set_transportIndex (Some (advance (conn w))) (conn w))
             (trace w))
      | Some (Inherited _) =>
          (Throw (TypeError
             "Cannot read properties of undefined (reading 'isSupported')"),
           mkWorld (set_transportIndex (Some (advance (conn w))) (conn w))
             (trace w))
      | Some (Listed entry) =>
          let w' :=
            mkWorld (set_transportIndex (Some (advance (conn w))) (conn w))
              (trace w ++ [IsSupported (advance (conn w)) (entry_instance entry)])
          in
          if viable entry then
            let t := {| t_index := advance (conn w);
                        t_class := entry_instance entry |} in
            (Return (Some t),
             mkWorld (set_transportIndex (Some (advance (conn w))) (conn w))
               (trace w' ++ [New t url this_onTransportFail]))
          else createTransport url w'
      end).
  { intros [[entry|inherited]|] e Hin; reflexivity. }
  match goal with |- _ = ?rhs => set (body := rhs) end.
  assert (first : ∀ b (e : pastLast (advance (conn w)) (conn w) = b),
    pastLast (advance (conn w)) (conn w) = b →
    createTransport_unfold_clause_1 url w (b ↾ e) = body).
  { intros [] e Hb; subst body; cbv zeta;
      (etransitivity; [|rewrite Hb; reflexivity]); [reflexivity|].
    apply second. }
  unfold inspect. by apply first.
Qed.

Lemma pastLast_true i c : pastLast i c = true ↔ length (transports c) ≤ i.
Proof. unfold pastLast. rewrite Z.ltb_lt. lia. Qed.

Lemma pastLast_false i c : pastLast i c = false ↔ i < length (transports c).
Proof. unfold pastLast. rewrite Z.ltb_ge. lia. Qed.

Lemma set_transportIndex_twice a b c :
  set_transportIndex a (set_transportIndex b c) = set_transportIndex a c.
Proof. reflexivity. Qed.

(** [createTransport] always comes to an end, and it computes [search] on
    the part of the candidate list ahead of the cursor. *)
Lemma createTransport_search url w :
  createTransport url w =
    let i := advance (conn w) in
    let found := search url i (drop i (transports (conn w))) in
    (found.2.1,
     mkWorld (set_transportIndex (Some found.2.2) (conn w))
       (trace w ++ found.1)).
Proof.
  remember (remaining w) as n eqn:Hn.
  revert w Hn. induction (lt_wf n) as [n _ IH]. intros w ->.
  rewrite createTransport_eq. cbv zeta.
  destruct (pastLast _ _) eqn:Hpast.
  - apply pastLast_true in Hpast.
    rewrite drop_ge by done. cbn [search fst snd].
    rewrite app_nil_r. reflexivity.
  - apply pastLast_false in Hpast.
    destruct (lookup_lt_is_Some_2 _ _ Hpast) as [x Hx].
    rewrite Hx, (drop_S _ _ _ Hx). destruct x as [entry|inherited].
    2:{ cbn [search fst snd]. rewrite app_nil_r. reflexivity. }
    cbn [search]. destruct (viable entry) eqn:Hv.
    + cbn. rewrite <- app_assoc. reflexivity.
    + set (w' := mkWorld _ _).
      assert (Hlt : remaining w' < remaining w).
      { clear IH. unfold remaining, advance in *. cbn.
        destruct (transportIndex (conn w)); cbn in *; lia. }
      rewrite (IH _ Hlt _ eq_refl). subst w'.
      cbn [conn transports set_transportIndex advance transportIndex trace].
      destruct (search url (S (advance (conn w)))
                  (drop (S (advance (conn w))) (transports (conn w))))
        as [events ending] eqn:Hs.
      cbn [fst snd]. rewrite <- app_assoc. cbn [app].
      rewrite set_transportIndex_twice. reflexivity.
Qed.

Lemma probes_probing i candidates :
  Forall listed candidates →
  probes (probing i candidates) = seq i (length candidates).
Proof.
  intros Hall. revert i.
  induction Hall as [|[e|n] l Hx _ IH]; intros i; [done| |done].
  cbn. f_equal. apply IH.
Qed.

Lemma instantiations_probing i candidates :
  instantiations (probing i candidates) = [].
Proof.
  revert i. induction candidates as [|[e|n] l IH]; intros i; [done|..];
    cbn; apply IH.
Qed.

Lemma consumer_calls_probing i candidates :
  consumer_calls (probing i candidates) = [].
Proof.
  revert i. induction candidates as [|[e|n] l IH]; intros i; [done|..];
    cbn; apply IH.
Qed.

(** Every event of [probing] is a probe. *)
Lemma probing_probes i candidates e :
  e ∈ probing i candidates → ∃ j cls, e = IsSupported j cls.
Proof.
  revert i. induction candidates as [|[x|n] l IH]; intros i; cbn.
  - by intros ?%elem_of_nil.
  - intros [->|Hin]%elem_of_cons; [by eexists _, _|by eapply IH].
  - apply IH.
Qed.

(** The search stops at the first candidate that reports supported. *)
Lemma search_found url i rest d entry :
  rest !! d = Some (Listed entry) →
  viable entry = true →
  (∀ j skipped, j < d → rest !! j = Some skipped →
     answer skipped = Some false) →
  let t := {| t_index := i + d; t_class := entry_instance entry |} in
  search url i rest =
    (probing i (take (S d) rest) ++ [New t url this_onTransportFail],
     (Return (Some t), i + d)).
Proof.
  revert i d. induction rest as [|x rest IH]; intros i d Hd Hv Hskip; [done|].
  destruct d as [|d]; cbn in Hd.
  - injection Hd as ->. cbn [search]. rewrite Hv. rewrite Nat.add_0_r.
    cbn [take]. rewrite take_0. reflexivity.
  - pose proof (Hskip 0 x) as Hx. destruct x as [e|n]; cbn in Hx;
      [|by discriminate Hx; [lia|]].
    assert (Hv' : viable e = false).
    { assert (Some (viable e) = Some false) as [= ->] by (apply Hx; [lia|done]).
      done. }
    cbn [search]. rewrite Hv'.
    rewrite (IH (S i) d Hd Hv).
    2:{ intros j sk Hj Hsk. apply (Hskip (S j)); [lia|done]. }
    cbn [take probing].
    replace (S i + d) with (i + S d) by lia. reflexivity.
Qed.

(** It runs to the end of the list when every candidate reports
    unsupported. *)
Lemma search_exhausted url i rest :
  (∀ j skipped, rest !! j = Some skipped → answer skipped = Some false) →
  search url i rest = (probing i rest, (Return None, i + length rest)).
Proof.
  revert i. induction rest as [|x rest IH]; intros i Hall.
  - cbn. by rewrite Nat.add_0_r.
  - pose proof (Hall 0 x eq_refl) as Hx. destruct x as [e|n]; [|done].
    injection Hx as Hv. cbn [search]. rewrite Hv.
    rewrite IH by (intros j x; apply (Hall (S j))).
    cbn [probing length]. replace (S i + length rest) with (i + S (length rest))
      by lia. reflexivity.
Qed.

(** It throws at the first inherited value it comes to. *)
Lemma search_blocked url i rest d inherited :
  rest !! d = Some (Inherited inherited) →
  (∀ j skipped, j < d → rest !! j = Some skipped →
     answer skipped = Some false) →
  search url i rest =
    (probing i (take (S d) rest),
     (Throw (TypeError
        "Cannot read properties of undefined (reading 'isSupported')"),
      i + d)).
Proof.
  revert i d. induction rest as [|x rest IH]; intros i d Hd Hskip; [done|].
  destruct d as [|d]; cbn in Hd.
  - injection Hd as ->. cbn [search take probing]. rewrite take_0.
    by rewrite Nat.add_0_r.
  - pose proof (Hskip 0 x) as Hx. destruct x as [e|n]; cbn in Hx;
      [|by discriminate Hx; [lia|]].
    assert (Hv' : viable e = false).
    { assert (Some (viable e) = Some false) as [= ->] by (apply Hx; [lia|done]).
      done. }
    cbn [search]. rewrite Hv'.
    rewrite (IH (S i) d Hd).
    2:{ intros j sk Hj Hsk. apply (Hskip (S j)); [lia|done]. }
    cbn [take probing].
    replace (S i + d) with (i + S d) by lia. reflexivity.
Qed.

(** Whatever the list, the search ends in one of these three ways. *)
Lemma search_cases (rest : list Candidate) :
  (∃ d entry, rest !! d = Some (Listed entry) ∧ viable entry = true
     ∧ ∀ j skipped, j < d → rest !! j = Some skipped →
         answer skipped = Some false)
  ∨ (∀ j skipped, rest !! j = Some skipped → answer skipped = Some false)
  ∨ (∃ d inherited, rest !! d = Some (Inherited inherited)
       ∧ ∀ j skipped, j < d → rest !! j = Some skipped →
           answer skipped = Some false).
Proof.
  induction rest as [|x rest IH].
  { right; left. intros j y. by rewrite lookup_nil. }
  destruct x as [e|n].
  2:{ right; right. exists 0, n. split; [done|]. intros j sk Hj. lia. }
  destruct (viable e) eqn:Hv.
  { left. exists 0, e. split_and!; [done..|]. intros j sk Hj. lia. }
  assert (Hcons : ∀ d, (∀ j skipped, j < d → rest !! j = Some skipped →
                          answer skipped = Some false) →
    ∀ j skipped, j < S d → (Listed e :: rest) !! j = Some skipped →
      answer skipped = Some false).
  { intros d Hskip [|j] sk Hj Hsk; cbn in Hsk.
    - injection Hsk as <-. cbn. by rewrite Hv.
    - apply (Hskip j); [lia|done]. }
  destruct IH as [(d & y & Hd & Hy & Hskip)|[Hall|(d & n & Hd & Hskip)]].
  - left. exists (S d), y. split_and!; [done..|]. by apply Hcons.
  - right; left. intros [|j] y Hy; cbn in Hy.
    + injection Hy as <-. cbn. by rewrite Hv.
    + by apply (Hall j).
  - right; right. exists (S d), n. split; [done|]. by apply Hcons.
Qed.

Lemma search_ends c :
  (∃ k entry, next_viable c k entry)
  ∨ exhausted c
  ∨ (∃ j inherited, blocked c j inherited).
Proof.
  assert (Hshift : ∀ d,
    (∀ j skipped, j < d → drop (advance c) (transports c) !! j = Some skipped →
       answer skipped = Some false) →
    ∀ j skipped, advance c ≤ j < advance c + d →
      transports c !! j = Some skipped → answer skipped = Some false).
  { intros d Hskip j sk Hj Hsk. apply (Hskip (j - advance c)); [lia|].
    rewrite lookup_drop.
    by replace (advance c + (j - advance c)) with j by lia. }
  destruct (search_cases (drop (advance c) (transports c)))
    as [(d & entry & Hd & Hv & Hskip)|[Hall|(d & n & Hd & Hskip)]].
  - left. exists (advance c + d), entry. rewrite lookup_drop in Hd.
    split_and!; [lia|done..|]. by apply Hshift.
  - right; left. intros j x Hj Hx. apply (Hall (j - advance c)).
    rewrite lookup_drop. by replace (advance c + (j - advance c)) with j by lia.
  - right; right. exists (advance c + d), n. rewrite lookup_drop in Hd.
    split_and!; [lia|done|]. by apply Hshift.
Qed.

Lemma next_viable_exhausted c k entry :
  next_viable c k entry → exhausted c → False.
Proof.
  intros (Hk & Hentry & Hv & _) Hall.
  specialize (Hall k _ Hk Hentry). cbn in Hall. congruence.
Qed.

Lemma blocked_exhausted c j inherited :
  blocked c j inherited → exhausted c → False.
Proof.
  intros (Hj & Hentry & _) Hall.
  specialize (Hall j _ Hj Hentry). done.
Qed.

Lemma next_viable_blocked c k entry j inherited :
  next_viable c k entry → blocked c j inherited → False.
Proof.
  intros (Hk & Hentry & Hv & Hskip) (Hj & Hvalue & Hbefore).
  destruct (Nat.lt_trichotomy j k) as [Hlt|[->|Hlt]].
  - specialize (Hskip j _ (conj Hj Hlt) Hvalue). done.
  - congruence.
  - specialize (Hbefore k _ (conj Hk Hlt) Hentry). cbn in Hbefore. congruence.
Qed.

Lemma blocked_not_listed c j inherited :
  blocked c j inherited → Forall listed (transports c) → False.
Proof.
  intros (_ & Hvalue & _) Hall.
  apply (proj1 (Forall_lookup _ _) Hall j _ Hvalue).
Qed.

Lemma createTransport_next url w k entry :
  next_viable (conn w) k entry →
  let t := {| t_index := k; t_class := entry_instance entry |} in
  createTransport url w =
    (Return (Some t),
     mkWorld (set_transportIndex (Some k) (conn w))
       (trace w ++ probes_upto (conn w) k ++ [New t url this_onTransportFail])).
Proof.
  intros (Hk & Hentry & Hv & Hskip) t.
  rewrite createTransport_search. cbv zeta.
  rewrite (search_found url (advance (conn w)) _ (k - advance (conn w)) entry).
  - cbn [fst snd]. subst t. unfold probes_upto.
    replace (advance (conn w) + (k - advance (conn w))) with k by lia.
    replace (S (k - advance (conn w)))
      with (S k - advance (conn w)) by lia.
    reflexivity.
  - rewrite lookup_drop.
    by replace (advance (conn w) + (k - advance (conn w))) with k by lia.
  - done.
  - intros j sk Hj Hsk. rewrite lookup_drop in Hsk.
    apply (Hskip (advance (conn w) + j)); [lia|done].
Qed.

Lemma createTransport_none url w :
  exhausted (conn w) →
  createTransport url w =
    (Return None,
     mkWorld
       (set_transportIndex
          (Some (advance (conn w) `max` length (transports (conn w))))
          (conn w))
       (trace w ++ probes_all (conn w))).
Proof.
  intros Hall. rewrite createTransport_search. cbv zeta.
  rewrite search_exhausted.
  - cbn [fst snd]. rewrite length_drop.
    replace (advance (conn w) + (length (transports (conn w)) - advance (conn w)))
      with (advance (conn w) `max` length (transports (conn w))) by lia.
    reflexivity.
  - intros j x Hj. rewrite lookup_drop in Hj.
    apply (Hall (advance (conn w) + j)); [lia|done].
Qed.

(** At an inherited value the search throws: the cursor has moved there,
    and nothing was probed or built at that position. *)
Lemma createTransport_blocked url w j inherited :
  blocked (conn w) j inherited →
  createTransport url w =
    (Throw (TypeError
       "Cannot read properties of undefined (reading 'isSupported')"),
     mkWorld (set_transportIndex (Some j) (conn w))
       (trace w ++ probes_upto (conn w) j)).
Proof.
  intros (Hj & Hvalue & Hskip).
  rewrite createTransport_search. cbv zeta.
  rewrite (search_blocked url (advance (conn w)) _ (j - advance (conn w))
             inherited).
  - cbn [fst snd]. unfold probes_upto.
    replace (advance (conn w) + (j - advance (conn w))) with j by lia.
    replace (S (j - advance (conn w)))
      with (S j - advance (conn w)) by lia.
    reflexivity.
  - rewrite lookup_drop.
    by replace (advance (conn w) + (j - advance (conn w))) with j by lia.
  - intros i sk Hi Hsk. rewrite lookup_drop in Hsk.
    apply (Hskip (advance (conn w) + i)); [lia|done].
Qed.

(** [createTransport] returns [null] exactly when every candidate ahead
    reports unsupported. *)
Lemma finds_nothing_exhausted w :
  finds_nothing w = true ↔ exhausted (conn w).
Proof.
  unfold finds_nothing.
  destruct (search_ends (conn w))
    as [(k & entry & Hnext)|[Hall|(j & n & Hblocked)]].
  - rewrite (createTransport_next _ _ k entry Hnext). cbn. split; [done|].
    intros Hall. exfalso. by eapply next_viable_exhausted.
  - rewrite (createTransport_none _ _ Hall). done.
  - rewrite (createTransport_blocked _ _ j n Hblocked). cbn. split; [done|].
    intros Hall. exfalso. by eapply blocked_exhausted.
Qed.

(** ** The failure handler and the constructor, case by case *)

Ltac run_monad :=
  unfold mbind, M_bind, mret, M_ret, this, history, assign, emit, throw;
  cbn [conn trace fst snd].

Ltac tidy_trace :=
  cbn [conn trace fst snd]; rewrite <- ?app_assoc; cbn [app];
  rewrite ?app_nil_r.

(** The handler when a viable candidate lies ahead. *)
Lemma onTransportFail_next err w k entry :
  next_viable (conn w) k entry →
  let c := conn w in
  let t := {| t_index := k; t_class := entry_instance entry |} in
  onTransportFail err w =
    (Return (),
     mkWorld (set_transport (Some t) (set_transportIndex (Some k) c))
       (trace w
        ++ [Log info "Transport failed" (("error", err) :: getLogDetails c)]
        ++ probes_upto c k
        ++ [New t (baseUrl c) this_onTransportFail;
            Log debug "Next supported Transport found"
              [("name", VStr (transport_name t))]]
        ++ registrations t c
        ++ (if decide (state c = STATE_STARTED) then
              [UpdateQuery t (authToken c) (contextId c) (authExpiry c) None;
               Start t (spread (entry_options entry) (options c))
                 (startCallback c)]
            else []))).
Proof.
  intros Hnext c t.
  assert (Hentry : transports c !! k = Some (Listed entry)) by apply Hnext.
  unfold onTransportFail. run_monad.
  rewrite (createTransport_next _ _ k entry) by exact Hnext.
  run_monad. cbn [transport set_transport set_transportIndex state].
  unfold registrations. fold c.
  destruct (decide (state c = STATE_STARTED)) as [Hs|Hs].
  - unfold transportOptions. run_monad.
    cbn [transportIndex set_transport set_transportIndex transports mbind
         option_bind].
    rewrite Hentry. run_monad.
    cbn [authToken contextId authExpiry startCallback options
         receiveCallback stateChangedCallback unauthorizedCallback
         connectionSlowCallback set_transport set_transportIndex baseUrl].
    tidy_trace. reflexivity.
  - cbn [receiveCallback stateChangedCallback unauthorizedCallback
         connectionSlowCallback set_transport set_transportIndex baseUrl].
    tidy_trace. reflexivity.
Qed.

(** The handler when nothing viable lies ahead: it logs, leaves
    [this.transport] null and makes the one call [this.failCallback()]. *)
Lemma onTransportFail_none err w :
  exhausted (conn w) →
  let c := conn w in
  let moved :=
    set_transportIndex (Some (advance c `max` length (transports c))) c in
  onTransportFail err w =
    call (failCallback c) []
      (mkWorld (set_transport None moved)
         (trace w
          ++ [Log info "Transport failed" (("error", err) :: getLogDetails c)]
          ++ probes_all c
          ++ [Log warn "Next supported Transport not found"
                (("error", err) :: getLogDetails moved)])).
Proof.
  intros Hall c moved.
  unfold onTransportFail. run_monad.
  rewrite createTransport_none by exact Hall.
  run_monad. cbn [transport set_transport].
  tidy_trace. reflexivity.
Qed.

(** The handler when the search comes to an inherited value: the
    [TypeError] leaves it before [this.transport] is assigned, so the
    transport that failed stays active while the cursor has moved on. *)
Lemma onTransportFail_blocked err w j inherited :
  blocked (conn w) j inherited →
  let c := conn w in
  onTransportFail err w =
    (Throw (TypeError
       "Cannot read properties of undefined (reading 'isSupported')"),
     mkWorld (set_transportIndex (Some j) c)
       (trace w
        ++ [Log info "Transport failed" (("error", err) :: getLogDetails c)]
        ++ probes_upto c j)).
Proof.
  intros Hblocked c.
  unfold onTransportFail. run_monad.
  rewrite (createTransport_blocked _ _ j inherited) by exact Hblocked.
  tidy_trace. reflexivity.
Qed.

(** The constructor when a viable candidate exists. *)
Lemma constructor_next onFail w k entry :
  next_viable (conn w) k entry →
  let c := conn w in
  let t := {| t_index := k; t_class := entry_instance entry |} in
  constructor onFail w =
    (Return (),
     mkWorld (set_transport (Some t) (set_transportIndex (Some k) c))
       (trace w
        ++ probes_upto c k
        ++ [New t (baseUrl c) this_onTransportFail;
            Log debug "Supported Transport found"
              [("name", VStr (transport_name t))]])).
Proof.
  intros Hnext c t.
  unfold constructor. run_monad.
  rewrite (createTransport_next _ _ k entry) by exact Hnext.
  run_monad. cbn [transport set_transport].
  tidy_trace. reflexivity.
Qed.

(** The constructor when no candidate is viable. *)
Lemma constructor_none onFail w :
  exhausted (conn w) →
  let c := conn w in
  let moved :=
    set_transportIndex (Some (advance c `max` length (transports c))) c in
  constructor onFail w =
    call onFail []
      (mkWorld (set_transport None moved)
         (trace w
          ++ probes_all c
          ++ [Log error
                "Unable to setup initial transport. Supported Transport not found."
                (getLogDetails moved)])).
Proof.
  intros Hall c moved.
  unfold constructor. run_monad.
  rewrite createTransport_none by exact Hall.
  run_monad. cbn [transport set_transport].
  tidy_trace. reflexivity.
Qed.

(** The constructor when the search comes to an inherited value. *)
Lemma constructor_blocked onFail w j inherited :
  blocked (conn w) j inherited →
  constructor onFail w =
    (Throw (TypeError
       "Cannot read properties of undefined (reading 'isSupported')"),
     mkWorld (set_transportIndex (Some j) (conn w))
       (trace w ++ probes_upto (conn w) j)).
Proof.
  intros Hblocked.
  unfold constructor. run_monad.
  by rewrite (createTransport_blocked _ _ j inherited) by exact Hblocked.
Qed.

(** ** Calling a function value *)

Lemma emitted_app w w' events :
  trace w' = trace w ++ events → emitted w w' = events.
Proof. intros Heq. unfold emitted. by rewrite Heq, drop_app_length. Qed.

Lemma inner_mono f g e : depth f ≤ depth g → inner f e → inner g e.
Proof. destruct e; cbn; try done. lia. Qed.

(** A call never writes a field; it records itself and then only logs or
    calls what it wraps. *)
Lemma call_spec f args w :
  ∃ r events,
    call f args w = (r, mkWorld (conn w) (trace w ++ Called f args :: events))
    ∧ Forall (inner f) events.
Proof.
  revert w. induction f as [| ref | callback IH callbackType]; intros w.
  - exists (Return ()), []. by destruct w.
  - cbn [call]. run_monad.
    destruct (raises ref args _) as [value|];
      [exists (Throw (Thrown value)), []|exists (Return ()), []]; done.
  - cbn [call]. run_monad.
    destruct (decide (state (conn w) = STATE_DISPOSED)) as [Hd|Hd].
    + destruct (transport (conn w)) as [t|].
      * eexists (Return ()), [_]. split.
        -- run_monad. tidy_trace. reflexivity.
        -- by repeat constructor.
      * by exists (Throw (TypeError
            "Cannot read properties of null (reading 'name')")), [].
    + destruct (IH (mkWorld (conn w) (trace w ++ [Called (Bound callback callbackType) args])))
        as (r & events & Heq & Hin).
      exists r, (Called callback args :: events). split.
      * rewrite Heq. tidy_trace. reflexivity.
      * constructor; [cbn; lia|].
        eapply Forall_impl; [exact Hin|].
        intros e. apply inner_mono. cbn. lia.
Qed.

Lemma call_conn f args w : conn (call f args w).2 = conn w.
Proof. destruct (call_spec f args w) as (r & ev & -> & _). done. Qed.

Lemma inner_not_instantiated f events :
  Forall (inner f) events → instantiations events = [].
Proof.
  induction 1 as [|e l He _ IH]; [done|].
  destruct e; cbn in *; done.
Qed.

Lemma inner_not_fired f events :
  Forall (inner f) events → fired f events = 0.
Proof.
  unfold fired. induction 1 as [|e l He _ IH]; [done|].
  destruct e as [| | | | | | | | | | | | | |g a]; cbn in *; try done.
  destruct a; [|done]. rewrite bool_decide_eq_false_2; [done|].
  intros ->. lia.
Qed.

Lemma fired_app f l1 l2 : fired f (l1 ++ l2) = fired f l1 + fired f l2.
Proof. unfold fired. by rewrite List.filter_app, length_app. Qed.

Lemma instantiations_app l1 l2 :
  instantiations (l1 ++ l2) = instantiations l1 ++ instantiations l2.
Proof. apply omap_app. Qed.

Lemma fired_probing f i candidates : fired f (probing i candidates) = 0.
Proof.
  revert i. induction candidates as [|[e|n] l IH]; intros i; [done|..];
    unfold fired in *; cbn; apply IH.
Qed.

(** ** One step *)

Ltac unfold_methods :=
  unfold step, perform, setUnauthorizedCallback, setStateChangedCallback,
    setReceivedCallback, setConnectionSlowCallback, start, stop, dispose,
    updateQuery, getQuery, onOrphanFound, onSubscribeNetworkError,
    getTransport, transportOptions.

(** What the failure handler does to the fields and the trace. *)
Lemma onTransportFail_step err w :
  let c := conn w in
  (∃ k entry events,
      next_viable c k entry
      ∧ let t := {| t_index := k; t_class := entry_instance entry |} in
        step w (TransportFails err) =
          mkWorld (set_transport (Some t) (set_transportIndex (Some k) c))
            (trace w ++ events)
        ∧ instantiations events = [k]
        ∧ New t (baseUrl c) this_onTransportFail ∈ events)
  ∨ (∃ events,
      exhausted c
      ∧ step w (TransportFails err) =
          mkWorld
            (set_transport None
               (set_transportIndex
                  (Some (advance c `max` length (transports c))) c))
            (trace w ++ events)
      ∧ instantiations events = [])
  ∨ (∃ j inherited events,
      blocked c j inherited
      ∧ step w (TransportFails err) =
          mkWorld (set_transportIndex (Some j) c) (trace w ++ events)
      ∧ instantiations events = []).
Proof.
  intros c. destruct (search_ends c)
    as [(k & entry & Hnext)|[Hall|(j & n & Hblocked)]].
  - left. exists k, entry. eexists. split; [done|]. cbv zeta.
    unfold step, perform. rewrite (onTransportFail_next _ _ k entry Hnext).
    cbn [snd]. split; [reflexivity|]. split.
    + unfold probes_upto, registrations.
      rewrite !instantiations_app, instantiations_probing.
      destruct (decide _); reflexivity.
    + rewrite !elem_of_app. right; right; left. apply list_elem_of_here.
  - right; left. unfold step, perform. rewrite (onTransportFail_none _ _ Hall).
    cbv zeta.
    match goal with
    | |- context [call ?f ?a ?w0] =>
        destruct (call_spec f a w0) as (r & events & Heq & Hin); rewrite Heq
    end.
    cbn [snd conn trace].
    eexists. split; [done|]. split.
    + rewrite <- !app_assoc. reflexivity.
    + unfold probes_all.
      rewrite !instantiations_app, instantiations_probing. cbn.
      apply (inner_not_instantiated _ _ Hin).
  - right; right. exists j, n. unfold step, perform.
    rewrite (onTransportFail_blocked _ _ j n Hblocked). cbn [snd].
    eexists. split; [done|]. split; [reflexivity|].
    unfold probes_upto. by rewrite !instantiations_app, instantiations_probing.
Qed.

(** Every other step leaves the cursor and the active transport alone and
    constructs nothing. *)
Lemma quiet_step w op :
  (∀ err, op ≠ TransportFails err) →
  ∃ events,
    trace (step w op) = trace w ++ events
    ∧ instantiations events = []
    ∧ transportIndex (conn (step w op)) = transportIndex (conn w)
    ∧ transport (conn (step w op)) = transport (conn w)
    ∧ transports (conn (step w op)) = transports (conn w)
    ∧ baseUrl (conn (step w op)) = baseUrl (conn w)
    ∧ failCallback (conn (step w op)) = failCallback (conn w)
    ∧ options (conn (step w op)) = options (conn w).
Proof.
  intros Hop.
  destruct op; try (by destruct (Hop err)).
  13:{ destruct (call_spec f args w) as (r & events & Heq & Hin).
       exists (Called f args :: events). unfold step, perform.
       rewrite Heq. split_and!; try reflexivity.
       apply (inner_not_instantiated f events Hin). }
  all: unfold_methods; run_monad;
    repeat case_match; simplify_eq; run_monad; tidy_trace;
    try (exists []; by rewrite app_nil_r);
    (eexists; split; [reflexivity|]); done.
Qed.

(** ** Construction and the invariant *)

Lemma constructed_cases opts url onFail :
  let c := fields opts url (default NOOP onFail) in
  (∃ k entry events,
      next_viable c k entry
      ∧ let t := {| t_index := k; t_class := entry_instance entry |} in
        constructed opts url onFail =
          mkWorld (set_transport (Some t) (set_transportIndex (Some k) c))
            events
        ∧ instantiations events = [k]
        ∧ New t url this_onTransportFail ∈ events)
  ∨ (∃ events,
      exhausted c
      ∧ constructed opts url onFail =
          mkWorld
            (set_transport None
               (set_transportIndex (Some (length (transports c))) c))
            events
      ∧ instantiations events = [])
  ∨ (∃ j inherited events,
      blocked c j inherited
      ∧ constructed opts url onFail =
          mkWorld (set_transportIndex (Some j) c) events
      ∧ instantiations events = []).
Proof.
  intros c. unfold constructed, new_Connection. cbv zeta. fold c.
  destruct (search_ends c) as [(k & entry & Hnext)|[Hall|(j & n & Hblocked)]].
  - left. exists k, entry. eexists. split; [done|]. cbv zeta.
    rewrite (constructor_next _ (mkWorld c []) k entry Hnext).
    cbn [snd trace conn app]. split; [reflexivity|]. split.
    + unfold probes_upto.
      by rewrite !instantiations_app, instantiations_probing.
    + rewrite !elem_of_app. right. apply list_elem_of_here.
  - right; left. rewrite (constructor_none _ (mkWorld c []) Hall). cbv zeta.
    match goal with
    | |- context [call ?f ?a ?w0] =>
        destruct (call_spec f a w0) as (r & events & Heq & Hin); rewrite Heq
    end.
    cbn [snd conn trace app]. eexists. split; [done|]. split; [reflexivity|].
    unfold probes_all.
    rewrite !instantiations_app, instantiations_probing. cbn.
    apply (inner_not_instantiated _ _ Hin).
  - right; right. exists j, n.
    rewrite (constructor_blocked _ (mkWorld c []) j n Hblocked).
    cbn [snd conn trace app]. eexists. split; [done|]. split; [reflexivity|].
    unfold probes_upto. apply instantiations_probing.
Qed.

Lemma fails_or_not op :
  (∃ err, op = TransportFails err) ∨ (∀ err, op ≠ TransportFails err).
Proof. destruct op; try (by right); left; by eexists. Qed.

Lemma well_searched_constructed opts url onFail :
  well_searched (constructed opts url onFail).
Proof.
  destruct (constructed_cases opts url onFail)
    as [(k & entry & events & Hnext & Heq & Hinst & Hnew)
       |[(events & Hall & Heq & Hinst)
        |(j & n & events & Hblocked & Heq & Hinst)]];
    rewrite Heq; unfold well_searched; cbn [conn trace]; rewrite Hinst.
  - destruct Hnext as (_ & Hentry & _). split_and!.
    + done.
    + repeat constructor.
    + intros i ->%list_elem_of_singleton. cbn. lia.
    + cbn. intros t [= <-]. split_and!; [done..|by exists entry|].
      by eexists _, _.
  - split_and!; [done|constructor| |done].
    intros i Hi. by apply elem_of_nil in Hi.
  - split_and!; [done|constructor| |done].
    intros i Hi. by apply elem_of_nil in Hi.
Qed.

Lemma well_searched_step w op :
  well_searched w → well_searched (step w op).
Proof.
  intros (Hset & Hsorted & Hbelow & Hactive).
  destruct (fails_or_not op) as [[err ->]|Hop].
  - assert (Hadv : ∀ i, i ∈ instantiations (trace w) → i < advance (conn w)).
    { intros i Hi. specialize (Hbelow i Hi). unfold advance.
      destruct (transportIndex (conn w)); cbn in Hbelow; [lia|done]. }
    destruct (onTransportFail_step err w)
      as [(k & entry & events & Hnext & Heq & Hinst & Hnew)
         |[(events & Hall & Heq & Hinst)
          |(j & n & events & Hblocked & Heq & Hinst)]];
      rewrite Heq; unfold well_searched;
      cbn [conn trace]; rewrite instantiations_app, Hinst.
    + destruct Hnext as (Hk & Hentry & _). split_and!.
      * done.
      * apply StronglySorted_app. split_and!; [|done|repeat constructor].
        intros i j Hi ->%list_elem_of_singleton. specialize (Hadv i Hi). lia.
      * intros i [Hi| ->%list_elem_of_singleton]%elem_of_app; cbn; [|done].
        specialize (Hadv i Hi). lia.
      * cbn. intros t [= <-]. split_and!.
        -- apply elem_of_app. by right.
        -- apply last_snoc.
        -- by exists entry.
        -- by eexists _, _.
    + rewrite app_nil_r. split_and!; [done|done| |done].
      intros i Hi. cbn. specialize (Hadv i Hi). lia.
    + rewrite app_nil_r. destruct Hblocked as (Hj & Hvalue & _).
      split_and!; [done|done| |].
      * intros i Hi. cbn. specialize (Hadv i Hi). lia.
      * cbn. intros t Ht.
        destruct (Hactive t Ht) as (Hnew & Hlast & Hentry & _).
        split_and!; [apply elem_of_app; by left|done..|].
        by eexists _, _.
  - destruct (quiet_step w op)
      as (events & Htr & Hinst & Hidx & Ht & Hts & Hurl & _).
    { exact Hop. }
    unfold well_searched.
    rewrite Htr, instantiations_app, Hinst, app_nil_r, Hidx, Ht, Hts, Hurl.
    split_and!; [done..|].
    intros t Heq. destruct (Hactive t Heq) as (Hnew & Hrest).
    split; [|done]. apply elem_of_app. by left.
Qed.

Lemma run_snoc w ops op : run w (ops ++ [op]) = step (run w ops) op.
Proof. unfold run. by rewrite foldl_snoc. Qed.

Lemma run_app w ops more : run w (ops ++ more) = run (run w ops) more.
Proof. unfold run. by rewrite foldl_app. Qed.

Lemma well_searched_run w ops : well_searched w → well_searched (run w ops).
Proof.
  revert w. induction ops as [|op ops IH]; intros w Hw; [done|].
  cbn. apply IH. by apply well_searched_step.
Qed.




(** The fields no method assigns after construction. *)
Lemma step_static w op :
  transports (conn (step w op)) = transports (conn w)
  ∧ baseUrl (conn (step w op)) = baseUrl (conn w)
  ∧ failCallback (conn (step w op)) = failCallback (conn w)
  ∧ options (conn (step w op)) = options (conn w).
Proof.
  destruct (fails_or_not op) as [[err ->]|Hop].
  - destruct (onTransportFail_step err w)
      as [(k & entry & events & _ & -> & _)
         |[(events & _ & -> & _)|(j & n & events & _ & -> & _)]]; done.
  - destruct (quiet_step w op Hop) as (_ & _ & _ & _ & _ & -> & -> & -> & ->).
    done.
Qed.

Lemma run_static w ops :
  transports (conn (run w ops)) = transports (conn w)
  ∧ baseUrl (conn (run w ops)) = baseUrl (conn w)
  ∧ failCallback (conn (run w ops)) = failCallback (conn w)
  ∧ options (conn (run w ops)) = options (conn w).
Proof.
  revert w. induction ops as [|op ops IH]; intros w; [done|].
  change (run w (op :: ops)) with (run (step w op) ops).
  destruct (IH (step w op)) as (-> & -> & -> & ->). apply step_static.
Qed.

Lemma constructed_static opts url onFail :
  let c := conn (constructed opts url onFail) in
  transports c = getSupportedTransports (requestedTransports opts)
  ∧ baseUrl c = url
  ∧ failCallback c = default NOOP onFail
  ∧ options c = opts.
Proof.
  destruct (constructed_cases opts url onFail)
    as [(k & entry & events & _ & -> & _)
       |[(events & _ & -> & _)|(j & n & events & _ & -> & _)]]; done.
Qed.

Lemma reached_static opts url onFail ops :
  let c := conn (run (constructed opts url onFail) ops) in
  transports c = getSupportedTransports (requestedTransports opts)
  ∧ baseUrl c = url
  ∧ failCallback c = default NOOP onFail
  ∧ options c = opts.
Proof.
  cbv zeta.
  destruct (run_static (constructed opts url onFail) ops) as (-> & -> & -> & ->).
  apply constructed_static.
Qed.

(** Over a candidate list of entries of the object literal the cursor
    invariant holds between operations. *)
Lemma cursor_inv_constructed opts url onFail :
  Forall listed (getSupportedTransports (requestedTransports opts)) →
  cursor_inv (conn (constructed opts url onFail)).
Proof.
  intros Hlisted.
  destruct (constructed_cases opts url onFail)
    as [(k & entry & events & Hnext & Heq & _)
       |[(events & Hall & Heq & _)
        |(j & n & events & Hblocked & Heq & _)]]; rewrite Heq.
  - destruct Hnext as (_ & Hentry & _). cbn. split; [done|]. by exists entry.
  - cbn. eexists. split; [done|]. done.
  - exfalso. by eapply blocked_not_listed.
Qed.

Lemma cursor_inv_step w op :
  Forall listed (transports (conn w)) →
  cursor_inv (conn w) → cursor_inv (conn (step w op)).
Proof.
  intros Hlisted Hcur.
  destruct (fails_or_not op) as [[err ->]|Hop].
  - destruct (onTransportFail_step err w)
      as [(k & entry & events & Hnext & Heq & _)
         |[(events & Hall & Heq & _)
          |(j & n & events & Hblocked & Heq & _)]]; rewrite Heq.
    + destruct Hnext as (_ & Hentry & _). cbn. split; [done|]. by exists entry.
    + cbn. eexists. split; [done|]. cbn. lia.
    + exfalso. by eapply blocked_not_listed.
  - destruct (quiet_step w op Hop) as (_ & _ & _ & Hidx & Ht & Hts & _).
    unfold cursor_inv, past_the_end. by rewrite Hidx, Ht, Hts.
Qed.

Lemma cursor_inv_run opts url onFail ops :
  Forall listed (getSupportedTransports (requestedTransports opts)) →
  cursor_inv (conn (run (constructed opts url onFail) ops)).
Proof.
  intros Hlisted. induction ops as [|op ops IH] using rev_ind.
  - by apply cursor_inv_constructed.
  - rewrite run_snoc. apply cursor_inv_step; [|done].
    by destruct (reached_static opts url onFail ops) as (-> & _).
Qed.

(** ** The claims *)


Lemma next_viable_fresh c k entry :
  transportIndex c = None →
  transports c !! k = Some (Listed entry) →
  viable entry = true →
  (∀ j skipped, j < k → transports c !! j = Some skipped →
     answer skipped = Some false) →
  next_viable c k entry.
Proof.
  intros Hfresh Hentry Hv Hskip. unfold next_viable, advance.
  rewrite Hfresh. split_and!; [lia|done..|].
  intros j sk [_ Hj]. by apply Hskip.
Qed.

Lemma answered_listed x b : answer x = Some b → listed x.
Proof. by destruct x. Qed.

(** C6. Over a candidate list whose entries before [k] report unsupported
    and whose entry [k] reports supported, [createTransport] on a fresh
    cursor probes the entries [0..k] once each, in order, constructs entry
    [k] with [(baseUrl, this.onTransportFail)] and nothing else, and leaves
    the cursor at [k]; so the constructed Connection has that instance as
    its active transport.  One invocation moves the cursor from unset to 0
    and otherwise by one, and returns [null] when that is past the last
    index. *)
Theorem skip_unsupported opts url onFail k entry :
  let candidates := getSupportedTransports (requestedTransports opts) in
  candidates !! k = Some (Listed entry) →
  viable entry = true →
  (∀ j skipped, j < k → candidates !! j = Some skipped →
     answer skipped = Some false) →
  let c := fields opts url (default NOOP onFail) in
  let t := {| t_index := k; t_class := entry_instance entry |} in
  createTransport url (mkWorld c []) =
    (Return (Some t),
     mkWorld (set_transportIndex (Some k) c)
       (probing 0 (take (S k) candidates)
        ++ [New t url this_onTransportFail]))
  ∧ probes (probing 0 (take (S k) candidates)) = seq 0 (S k)
  ∧ instantiations (probing 0 (take (S k) candidates)) = []
  ∧ transport (conn (constructed opts url onFail)) = Some t
  ∧ transportIndex (conn (constructed opts url onFail)) = Some k
  ∧ (∀ w, advance (conn w) =
            match transportIndex (conn w) with None => 0 | Some i => S i end)
  ∧ (∀ w, ∃ i, transportIndex (conn (createTransport url w).2) = Some i
               ∧ advance (conn w) ≤ i)
  ∧ (∀ w skipped,
       transports (conn w) !! advance (conn w) = Some (Listed skipped) →
       viable skipped = false →
       createTransport url w =
         createTransport url
           (mkWorld (set_transportIndex (Some (advance (conn w))) (conn w))
              (trace w
               ++ [IsSupported (advance (conn w)) (entry_instance skipped)])))
  ∧ (∀ w, length (transports (conn w)) ≤ advance (conn w) →
       createTransport url w =
         (Return None,
          mkWorld (set_transportIndex (Some (advance (conn w))) (conn w))
            (trace w))).
Proof.
  intros candidates Hentry Hv Hskip c t.
  assert (Hnext : next_viable c k entry) by by apply next_viable_fresh.
  assert (Hlen : k < length candidates) by by eapply lookup_lt_Some.
  split_and!.
  - rewrite (createTransport_next url (mkWorld c []) k entry Hnext).
    unfold probes_upto. cbn [conn trace app advance transportIndex c fields].
    rewrite Nat.sub_0_r, drop_0. reflexivity.
  - rewrite probes_probing.
    + rewrite length_take. f_equal. lia.
    + apply Forall_lookup. intros j x [Hx Hj]%lookup_take_Some.
      destruct (decide (j = k)) as [->|Hne].
      * rewrite Hentry in Hx. by injection Hx as <-.
      * eapply answered_listed, (Hskip j); [lia|done].
  - apply instantiations_probing.
  - unfold constructed, new_Connection. cbv zeta.
    by rewrite (constructor_next _ (mkWorld c []) k entry Hnext).
  - unfold constructed, new_Connection. cbv zeta.
    by rewrite (constructor_next _ (mkWorld c []) k entry Hnext).
  - reflexivity.
  - intros w. destruct (search_ends (conn w))
      as [(i & x & Hx)|[Hall|(j & n & Hblocked)]].
    + rewrite (createTransport_next _ _ i x Hx). cbn. exists i.
      split; [done|]. apply Hx.
    + rewrite (createTransport_none _ _ Hall). cbn. eexists.
      split; [done|]. lia.
    + rewrite (createTransport_blocked _ _ j n Hblocked). cbn. exists j.
      split; [done|]. apply Hblocked.
  - intros w skipped Hsk Hnot. rewrite createTransport_eq at 1. cbv zeta.
    rewrite (proj2 (pastLast_false _ _)) by by eapply lookup_lt_Some.
    by rewrite Hsk, Hnot.
  - intros w Hpast. rewrite createTransport_eq. cbv zeta.
    by rewrite (proj2 (pastLast_true _ _) Hpast).
Qed.




(** ** Total failure *)

Lemma fired_call f w :
  fired f (emitted w (call f [] w).2) = 1.
Proof.
  destruct (call_spec f [] w) as (r & events & -> & Hin).
  rewrite (emitted_app _ _ (Called f [] :: events)) by done.
  change (Called f [] :: events) with ([Called f []] ++ events).
  rewrite fired_app, (inner_not_fired _ _ Hin).
  unfold fired. cbn. by rewrite bool_decide_eq_true_2.
Qed.

Lemma wraps_refl f : wraps f f.
Proof. destruct f; by left. Qed.

(** What a call of [f] calls: [f] and the functions [f] wraps, each with
    the arguments [f] was given. *)
Lemma call_calls f args w h a :
  Called h a ∈ emitted w (call f args w).2 → a = args ∧ wraps f h.
Proof.
  revert w. induction f as [| ref | callback IH callbackType]; intros w.
  - cbn [call]. run_monad. erewrite emitted_app by reflexivity.
    intros [= -> ->]%list_elem_of_singleton. split; [done|by left].
  - cbn [call]. run_monad.
    destruct (raises ref args _); run_monad;
      (erewrite emitted_app by reflexivity);
      intros [= -> ->]%list_elem_of_singleton; (split; [done|by left]).
  - cbn [call]. run_monad.
    destruct (decide (state (conn w) = STATE_DISPOSED)) as [Hd|Hd].
    + destruct (transport (conn w)) as [t|]; run_monad; tidy_trace;
        (erewrite emitted_app by reflexivity);
        rewrite ?elem_of_cons, elem_of_nil;
        intros Hin; destruct_or?; simplify_eq; split; (done || by left).
    + set (w' := mkWorld _ _).
      destruct (call_spec callback args w') as (r & events & Heq & _).
      specialize (IH w' ). rewrite Heq in IH |- *. cbn [snd conn trace] in *.
      subst w'. cbn [trace conn] in *.
      erewrite emitted_app in IH by reflexivity.
      erewrite emitted_app by (rewrite <- app_assoc; reflexivity).
      cbn [app]. intros [Hin|Hin]%elem_of_cons.
      * injection Hin as -> ->. split; [done|by left].
      * destruct (IH Hin) as [-> Hw]. split; [done|]. by right.
Qed.

Lemma not_called_in_probing i candidates h a :
  Called h a ∉ probing i candidates.
Proof. intros (j & cls & [=])%probing_probes. Qed.

(** A public method calls no function value. *)
Lemma public_step_calls_nothing w op h a :
  is_public op = true → Called h a ∉ emitted w (step w op).
Proof.
  intros Hpublic.
  destruct op as [cb|cb|cb|cb|cb| | |tok ctx ex fa| | | | |err|f args];
    try done.
  all: unfold_methods; run_monad;
    repeat case_match; simplify_eq; run_monad; tidy_trace;
    try (unfold emitted; rewrite drop_all; by intros ?%elem_of_nil);
    (erewrite emitted_app by reflexivity);
    rewrite ?elem_of_cons, elem_of_nil; intros Hin;
    destruct_or?; done.
Qed.

(** What the failure handler calls: nothing, or [this.failCallback] with
    no argument when the search ran off the end. *)
Lemma fail_step_calls err w h a :
  Called h a ∈ emitted w (step w (TransportFails err)) →
  exhausted (conn w) ∧ a = [] ∧ wraps (failCallback (conn w)) h.
Proof.
  unfold step, perform.
  destruct (search_ends (conn w))
    as [(k & entry & Hnext)|[Hall|(j & n & Hblocked)]].
  - rewrite (onTransportFail_next _ _ k entry Hnext). cbn [snd].
    erewrite emitted_app by reflexivity.
    unfold probes_upto, registrations. rewrite !elem_of_app.
    intros [Hin|[Hin|[Hin|[Hin|Hin]]]]; exfalso.
    + by apply list_elem_of_singleton in Hin.
    + by apply not_called_in_probing in Hin.
    + rewrite !elem_of_cons, elem_of_nil in Hin. destruct_or?; done.
    + rewrite !elem_of_cons, elem_of_nil in Hin. destruct_or?; done.
    + destruct (decide _); [|by apply elem_of_nil in Hin].
      rewrite !elem_of_cons, elem_of_nil in Hin. destruct_or?; done.
  - rewrite (onTransportFail_none _ _ Hall). cbv zeta.
    set (w' := mkWorld _ _). intros Hin. split; [done|].
    apply (call_calls _ _ w').
    destruct (call_spec (failCallback (conn w)) [] w')
      as (r & events & Heq & _).
    rewrite Heq in Hin |- *. subst w'. cbn [snd trace conn] in *.
    erewrite emitted_app by reflexivity.
    erewrite emitted_app in Hin by (rewrite <- !app_assoc; reflexivity).
    unfold probes_all in Hin. rewrite !elem_of_app in Hin.
    destruct Hin as [Hin|[Hin|[Hin|Hin]]]; [exfalso..|done].
    + by apply list_elem_of_singleton in Hin.
    + by apply not_called_in_probing in Hin.
    + by apply list_elem_of_singleton in Hin.
  - rewrite (onTransportFail_blocked _ _ j n Hblocked). cbn [snd].
    erewrite emitted_app by reflexivity.
    unfold probes_upto. rewrite !elem_of_app.
    intros [Hin|Hin]; exfalso.
    + by apply list_elem_of_singleton in Hin.
    + by apply not_called_in_probing in Hin.
Qed.

(** What the constructor calls: nothing, or [failCallback] with no
    argument when the search ran off the end. *)
Lemma constructed_calls opts url onFail h a :
  Called h a ∈ trace (constructed opts url onFail) →
  exhausted (fields opts url (default NOOP onFail))
  ∧ a = [] ∧ wraps (default NOOP onFail) h.
Proof.
  unfold constructed, new_Connection. cbv zeta.
  set (c := fields opts url (default NOOP onFail)).
  destruct (search_ends c) as [(k & entry & Hnext)|[Hall|(j & n & Hblocked)]].
  - rewrite (constructor_next _ (mkWorld c []) k entry Hnext).
    cbn [snd trace conn app]. unfold probes_upto. rewrite !elem_of_app.
    intros [Hin|Hin]; exfalso.
    + by apply not_called_in_probing in Hin.
    + rewrite !elem_of_cons, elem_of_nil in Hin. destruct_or?; done.
  - rewrite (constructor_none _ (mkWorld c []) Hall). cbv zeta.
    set (w' := mkWorld _ _). intros Hin. split; [done|].
    apply (call_calls _ _ w').
    destruct (call_spec (default NOOP onFail) [] w')
      as (r & events & Heq & _).
    rewrite Heq in Hin |- *. subst w'. cbn [snd trace conn app] in *.
    erewrite emitted_app by reflexivity.
    unfold probes_all in Hin. rewrite <- app_assoc, !elem_of_app in Hin.
    destruct Hin as [Hin|[Hin|Hin]]; [exfalso..|done].
    + by apply not_called_in_probing in Hin.
    + by apply list_elem_of_singleton in Hin.
  - rewrite (constructor_blocked _ (mkWorld c []) j n Hblocked).
    cbn [snd trace conn app]. unfold probes_upto.
    intros Hin. exfalso. by apply not_called_in_probing in Hin.
Qed.

Lemma fired_fail_next err w k entry f :
  next_viable (conn w) k entry →
  fired f (emitted w (step w (TransportFails err))) = 0.
Proof.
  intros Hnext. unfold step, perform.
  rewrite (onTransportFail_next _ _ k entry Hnext). cbn [snd].
  erewrite emitted_app by reflexivity.
  unfold probes_upto, registrations.
  rewrite !fired_app, fired_probing. by destruct (decide _).
Qed.

Lemma fired_fail_blocked err w j inherited f :
  blocked (conn w) j inherited →
  fired f (emitted w (step w (TransportFails err))) = 0.
Proof.
  intros Hblocked. unfold step, perform.
  rewrite (onTransportFail_blocked _ _ j inherited Hblocked). cbn [snd].
  erewrite emitted_app by reflexivity.
  unfold probes_upto. by rewrite !fired_app, fired_probing.
Qed.

Lemma fired_fail_none err w :
  exhausted (conn w) →
  fired (failCallback (conn w)) (emitted w (step w (TransportFails err))) = 1.
Proof.
  intros Hall. unfold step, perform.
  rewrite (onTransportFail_none _ _ Hall). cbv zeta.
  match goal with
  | |- context [call ?f ?a ?w0] =>
      pose proof (fired_call f w0) as Hone;
      destruct (call_spec f a w0) as (r & events & Heq & Hin)
  end.
  rewrite Heq in Hone |- *. cbn [snd conn trace] in Hone |- *.
  erewrite emitted_app in Hone by reflexivity.
  erewrite emitted_app by (rewrite <- !app_assoc; reflexivity).
  unfold probes_all. rewrite !fired_app, fired_probing.
  cbn [set_transport set_transportIndex failCallback] in Hone.
  rewrite Hone. reflexivity.
Qed.

Lemma fired_constructed_next opts url onFail k entry f :
  next_viable (fields opts url (default NOOP onFail)) k entry →
  fired f (trace (constructed opts url onFail)) = 0.
Proof.
  intros Hnext. unfold constructed, new_Connection. cbv zeta.
  rewrite (constructor_next _ (mkWorld _ []) k entry Hnext).
  cbn [snd trace conn app]. unfold probes_upto.
  by rewrite !fired_app, fired_probing.
Qed.

Lemma fired_constructed_blocked opts url onFail j inherited f :
  blocked (fields opts url (default NOOP onFail)) j inherited →
  fired f (trace (constructed opts url onFail)) = 0.
Proof.
  intros Hblocked. unfold constructed, new_Connection. cbv zeta.
  rewrite (constructor_blocked _ (mkWorld _ []) j inherited Hblocked).
  cbn [snd trace conn app]. unfold probes_upto. apply fired_probing.
Qed.

Lemma fired_constructed_none opts url onFail :
  exhausted (fields opts url (default NOOP onFail)) →
  fired (default NOOP onFail) (trace (constructed opts url onFail)) = 1
  ∧ instantiations (trace (constructed opts url onFail)) = []
  ∧ transport (conn (constructed opts url onFail)) = None.
Proof.
  intros Hall. unfold constructed, new_Connection. cbv zeta.
  rewrite (constructor_none _ (mkWorld _ []) Hall). cbv zeta.
  match goal with
  | |- context [call ?f ?a ?w0] =>
      pose proof (fired_call f w0) as Hone;
      destruct (call_spec f a w0) as (r & events & Heq & Hin)
  end.
  rewrite Heq in Hone |- *. cbn [snd conn trace app] in Hone |- *.
  erewrite emitted_app in Hone by reflexivity.
  unfold probes_all.
  rewrite !fired_app, !instantiations_app, fired_probing,
    instantiations_probing.
  split_and!; [exact Hone| |done].
  cbn. apply (inner_not_instantiated _ _ Hin).
Qed.

Lemma exhausted_all_unsupported c :
  Forall (λ x, answer x = Some false) (transports c) → exhausted c.
Proof.
  intros Hall j x _ Hx.
  apply (proj1 (Forall_lookup _ _) Hall j x Hx).
Qed.

(** Nothing is ever constructed over a list whose entries all report
    unsupported. *)
Lemma never_instantiated opts url onFail ops :
  Forall (λ x, answer x = Some false)
    (getSupportedTransports (requestedTransports opts)) →
  let w := run (constructed opts url onFail) ops in
  instantiations (trace w) = [] ∧ transport (conn w) = None.
Proof.
  intros Hall. induction ops as [|op ops IH] using rev_ind.
  - apply fired_constructed_none. by apply exhausted_all_unsupported.
  - cbv zeta in *. rewrite run_snoc.
    set (w := run (constructed opts url onFail) ops) in *.
    destruct IH as [Hinst Hnone].
    assert (Hex : exhausted (conn w)).
    { apply exhausted_all_unsupported. subst w.
      by destruct (reached_static opts url onFail ops) as (-> & _). }
    destruct (fails_or_not op) as [[err ->]|Hop].
    + destruct (onTransportFail_step err w)
        as [(k & entry & events & Hnext & _)
           |[(events & _ & -> & Hev)|(j & n & events & Hblocked & _)]].
      * exfalso. by eapply next_viable_exhausted.
      * cbn [trace conn]. by rewrite instantiations_app, Hinst, Hev.
      * exfalso. by eapply blocked_exhausted.
    + destruct (quiet_step w op Hop) as (events & -> & Hev & _ & -> & _).
      by rewrite instantiations_app, Hinst, Hev.
Qed.

Lemma exhausted_handlings_snoc w ops op :
  exhausted_handlings w (ops ++ [op]) =
    exhausted_handlings w ops
    + match op with
      | TransportFails _ => if finds_nothing (run w ops) then 1 else 0
      | _ => 0
      end.
Proof.
  revert w. induction ops as [|o ops IH]; intros w.
  - cbn. lia.
  - cbn [app exhausted_handlings].
    change (run w (o :: ops)) with (run (step w o) ops). rewrite IH. lia.
Qed.

Lemma failures_snoc ops op :
  failures (ops ++ [op]) = failures ops + (if is_failure op then 1 else 0).
Proof.
  unfold failures. rewrite List.filter_app, length_app. cbn.
  by destruct (is_failure op).
Qed.

Lemma finds_nothing_cases w :
  (finds_nothing w = true ∧ exhausted (conn w))
  ∨ (finds_nothing w = false ∧ ¬ exhausted (conn w)).
Proof.
  pose proof (finds_nothing_exhausted w) as Hiff.
  destruct (finds_nothing w); [left|right]; split; try done.
  - by apply Hiff.
  - intros Hall. by apply Hiff in Hall.
Qed.

(** A transport is constructed, or the list found exhausted, only by the
    constructor or in answer to a report. *)
Lemma reports_balance opts url onFail ops :
  length (instantiations (trace (run (constructed opts url onFail) ops)))
  + exhaustions opts url onFail ops
  ≤ failures ops + 1.
Proof.
  unfold exhaustions. induction ops as [|op ops IH] using rev_ind.
  - cbn [run foldl exhausted_handlings failures List.filter length].
    destruct (finds_nothing_cases
                (mkWorld (fields opts url (default NOOP onFail)) []))
      as [[-> Hex]|[-> Hex]]; cbn [conn] in Hex;
      destruct (constructed_cases opts url onFail)
        as [(k & entry & events & Hnext & -> & Hev & _)
           |[(events & Hall & -> & Hev)|(j & n & events & _ & -> & Hev)]];
      cbn [trace conn]; rewrite Hev; cbn [length]; try lia.
    exfalso. by eapply next_viable_exhausted.
  - rewrite run_snoc, exhausted_handlings_snoc, failures_snoc.
    set (w := run (constructed opts url onFail) ops) in *.
    destruct (fails_or_not op) as [[err ->]|Hop].
    + destruct (finds_nothing_cases w) as [[-> Hex]|[-> Hex]];
        destruct (onTransportFail_step err w)
          as [(k & entry & events & Hnext & -> & Hev & _)
             |[(events & Hall & -> & Hev)|(j & n & events & _ & -> & Hev)]];
        cbn [trace conn is_failure];
        rewrite instantiations_app, length_app, Hev; cbn [length]; try lia.
      exfalso. by eapply next_viable_exhausted.
    + destruct (quiet_step w op Hop) as (events & -> & Hev & _).
      rewrite instantiations_app, length_app, Hev.
      assert (is_failure op = false) as ->.
      { destruct op; try done. by destruct (Hop err). }
      destruct op; try (cbn [length]; lia). by destruct (Hop err).
Qed.

Lemma one_report_each_prefix w ops op :
  one_report_each w (ops ++ [op]) → one_report_each w ops.
Proof.
  intros Hall before err after ->. apply (Hall before err (after ++ [op])).
  by rewrite <- app_assoc.
Qed.

(** While the transports keep to their contract, a search finds the list
    exhausted at most once in the life of a Connection. *)
Lemma exhausted_at_most_once opts url onFail ops :
  one_report_each (constructed opts url onFail) ops →
  exhaustions opts url onFail ops ≤ 1.
Proof.
  induction ops as [|op ops IH] using rev_ind; intros Hall.
  - unfold exhaustions. cbn. by destruct (finds_nothing _); lia.
  - specialize (IH (one_report_each_prefix _ _ _ Hall)).
    destruct (fails_or_not op) as [[err ->]|Hop].
    + pose proof (Hall ops err [] eq_refl) as Hlt.
      pose proof (reports_balance opts url onFail ops) as Hbal.
      assert (Hzero : exhaustions opts url onFail ops = 0) by lia.
      unfold exhaustions in *. rewrite exhausted_handlings_snoc.
      destruct (finds_nothing (run _ ops)); lia.
    + unfold exhaustions in *. rewrite exhausted_handlings_snoc.
      destruct op; try lia. by destruct (Hop err).
Qed.

(** C1. [onFail] is called at most once per run of the candidate search
    (the constructor, or one handling of a transport failure), and exactly
    when that search finds the list exhausted, never while a candidate
    ahead of the cursor reports supported.  Nothing else in the class calls
    it: the constructor and the handler call no function but
    [failCallback], and only when the search ran off the end; a public
    method calls no function value at all; and when a transport invokes a
    function it was handed, only that function and what it wraps run.
    While every transport reports failure at most once, a search finds the
    list exhausted at most once in the life of the Connection.  Over a
    candidate list whose entries all report unsupported the constructor
    calls [onFail] exactly once, no transport is ever constructed and the
    active transport is [null]. *)
Theorem onFail_on_exhaustion_only opts url onFail ops err :
  let f := default NOOP onFail in
  let w0 := constructed opts url onFail in
  let w := run w0 ops in
  (fired f (trace w0) ≤ 1
   ∧ (fired f (trace w0) = 1 ↔ exhausted (fields opts url f)))
  ∧ (fired f (emitted w (step w (TransportFails err))) ≤ 1
     ∧ (fired f (emitted w (step w (TransportFails err))) = 1
        ↔ exhausted (conn w)))
  ∧ (∀ h a, Called h a ∈ trace w0 →
       exhausted (fields opts url f) ∧ a = [] ∧ wraps f h)
  ∧ (∀ h a, Called h a ∈ emitted w (step w (TransportFails err)) →
       exhausted (conn w) ∧ a = [] ∧ wraps f h)
  ∧ (∀ op h a, is_public op = true → Called h a ∉ emitted w (step w op))
  ∧ (∀ g args h a, Called h a ∈ emitted w (step w (TransportCalls g args)) →
       a = args ∧ wraps g h)
  ∧ (one_report_each w0 ops → exhaustions opts url onFail ops ≤ 1)
  ∧ (Forall (λ x, answer x = Some false)
       (getSupportedTransports (requestedTransports opts)) →
     fired f (trace w0) = 1
     ∧ instantiations (trace w) = []
     ∧ transport (conn w0) = None).
Proof.
  intros f w0 w.
  assert (Hf : failCallback (conn w) = f).
  { unfold w, w0.
    by destruct (reached_static opts url onFail ops) as (_ & _ & -> & _). }
  split_and!.
  - destruct (search_ends (fields opts url f))
      as [(k & entry & Hnext)|[Hall|(j & n & Hblocked)]].
    + subst w0 f. rewrite (fired_constructed_next _ _ _ k entry) by done. lia.
    + destruct (fired_constructed_none opts url onFail Hall) as (Hone & _).
      subst w0 f. rewrite Hone. lia.
    + subst w0 f. rewrite (fired_constructed_blocked _ _ _ j n) by done. lia.
  - destruct (search_ends (fields opts url f))
      as [(k & entry & Hnext)|[Hall|(j & n & Hblocked)]].
    + subst w0 f. rewrite (fired_constructed_next _ _ _ k entry) by done.
      split; [done|]. intros Hall. exfalso.
      by eapply next_viable_exhausted.
    + destruct (fired_constructed_none opts url onFail Hall) as (Hone & _).
      done.
    + subst w0 f. rewrite (fired_constructed_blocked _ _ _ j n) by done.
      split; [done|]. intros Hall. exfalso.
      by eapply blocked_exhausted.
  - destruct (search_ends (conn w))
      as [(k & entry & Hnext)|[Hall|(j & n & Hblocked)]].
    + rewrite (fired_fail_next _ _ k entry) by done. lia.
    + rewrite <- Hf, fired_fail_none by done. lia.
    + rewrite (fired_fail_blocked _ _ j n) by done. lia.
  - destruct (search_ends (conn w))
      as [(k & entry & Hnext)|[Hall|(j & n & Hblocked)]].
    + rewrite (fired_fail_next _ _ k entry) by done.
      split; [done|]. intros Hall. exfalso.
      by eapply next_viable_exhausted.
    + rewrite <- Hf, fired_fail_none by done. done.
    + rewrite (fired_fail_blocked _ _ j n) by done.
      split; [done|]. intros Hall. exfalso.
      by eapply blocked_exhausted.
  - intros h a. apply constructed_calls.
  - intros h a Hin. rewrite <- Hf. by apply (fail_step_calls err).
  - intros op h a Hpublic. by apply public_step_calls_nothing.
  - intros g args h a. unfold step, perform. apply call_calls.
  - apply exhausted_at_most_once.
  - intros Hall.
    assert (Hex : exhausted (fields opts url f)).
    { by apply exhausted_all_unsupported. }
    destruct (fired_constructed_none opts url onFail Hex) as (Hone & _ & Hnone).
    split_and!; [done| |done].
    by apply never_instantiated.
Qed.

(** ** Which step writes which field *)

Ltac public_method :=
  unfold_methods; run_monad; repeat case_match; simplify_eq; run_monad;
  try done.

Lemma step_fields w op :
  let c := conn w in
  let c' := conn (step w op) in
  ((∀ cb, op ≠ DoSetReceivedCallback cb) →
     receiveCallback c' = receiveCallback c)
  ∧ ((∀ cb, op ≠ DoSetStateChangedCallback cb) →
     stateChangedCallback c' = stateChangedCallback c)
  ∧ ((∀ cb, op ≠ DoSetConnectionSlowCallback cb) →
     connectionSlowCallback c' = connectionSlowCallback c)
  ∧ ((∀ cb, op ≠ DoSetUnauthorizedCallback cb) →
     unauthorizedCallback c' = unauthorizedCallback c)
  ∧ ((∀ cb, op ≠ DoStart cb) → startCallback c' = startCallback c)
  ∧ ((∀ token context expiry forceAuth,
        op ≠ DoUpdateQuery token context expiry forceAuth) →
     authToken c' = authToken c ∧ contextId c' = contextId c
     ∧ authExpiry c' = authExpiry c).
Proof.
  destruct op as [cb|cb|cb|cb|cb| | |tok ctx ex fa| | | | |err|f args];
    cbv zeta.
  13:{ destruct (onTransportFail_step err w)
         as [(k & entry & events & _ & -> & _)
            |[(events & _ & -> & _)|(j & n & events & _ & -> & _)]];
         done. }
  13:{ unfold step, perform. rewrite call_conn. done. }
  all: split_and!; intros Hop; try (by edestruct Hop); public_method.
Qed.

(** ** Fallback *)

(** C3. In the started state, when the active transport fails and a viable
    candidate lies ahead, the handler constructs the replacement, registers
    the four forwarding callbacks on it, then calls
    [updateQuery(authToken, contextId, authExpiry)] with the stored session
    and after that [start] with the candidate's default options overridden
    by the Connection's options and with the stored start callback.  The
    stored values are those of the last [updateQuery] and [start]: [start]
    stores the consumer's function itself, and nothing else writes these
    fields. *)
Theorem session_replay_on_fallback w err k entry :
  state (conn w) = STATE_STARTED →
  next_viable (conn w) k entry →
  let c := conn w in
  let t := {| t_index := k; t_class := entry_instance entry |} in
  let merged := spread (entry_options entry) (options c) in
  emitted w (step w (TransportFails err)) =
    [Log info "Transport failed" (("error", err) :: getLogDetails c)]
    ++ probes_upto c k
    ++ [New t (baseUrl c) this_onTransportFail;
        Log debug "Next supported Transport found"
          [("name", VStr (transport_name t))];
        SetReceivedCallback t (Some (receiveCallback c));
        SetStateChangedCallback t (Some (stateChangedCallback c));
        SetUnauthorizedCallback t (unauthorizedCallback c);
        SetConnectionSlowCallback t (Some (connectionSlowCallback c));
        UpdateQuery t (authToken c) (contextId c) (authExpiry c) None;
        Start t merged (startCallback c)]
  ∧ transport (conn (step w (TransportFails err))) = Some t
  ∧ (∀ key, merged !! key =
       match options c !! key with
       | Some v => Some v
       | None => entry_options entry !! key
       end)
  ∧ (∀ w1 cb, is_Some (transport (conn w1)) →
       startCallback (conn (step w1 (DoStart cb))) = Some cb
       ∧ state (conn (step w1 (DoStart cb))) = STATE_STARTED)
  ∧ (∀ w1 token context expiry forceAuth,
       let c1 := conn (step w1 (DoUpdateQuery token context expiry forceAuth))
       in authToken c1 = Some token ∧ contextId c1 = Some context
          ∧ authExpiry c1 = from_option VNum VUndefined expiry)
  ∧ (∀ w1 op, (∀ cb, op ≠ DoStart cb) →
       startCallback (conn (step w1 op)) = startCallback (conn w1))
  ∧ (∀ w1 op,
       (∀ token context expiry forceAuth,
          op ≠ DoUpdateQuery token context expiry forceAuth) →
       authToken (conn (step w1 op)) = authToken (conn w1)
       ∧ contextId (conn (step w1 op)) = contextId (conn w1)
       ∧ authExpiry (conn (step w1 op)) = authExpiry (conn w1)).
Proof.
  intros Hstarted Hnext c t merged. split_and!.
  - unfold step, perform. rewrite (onTransportFail_next _ _ k entry Hnext).
    cbn [snd]. erewrite emitted_app by reflexivity. fold c.
    rewrite decide_True by done. reflexivity.
  - unfold step, perform. by rewrite (onTransportFail_next _ _ k entry Hnext).
  - intros key. unfold merged, spread.
    destruct (options c !! key) as [v|] eqn:Hkey.
    + by apply lookup_union_Some_l.
    + by rewrite lookup_union_r.
  - intros w1 cb [t1 Ht1]. public_method.
  - intros w1 token context expiry forceAuth. public_method.
  - intros w1 op. apply step_fields.
  - intros w1 op. apply step_fields.
Qed.

(** C8. In the stopped state the handler still constructs the replacement
    and registers the four forwarding callbacks on it, and that is all: no
    [updateQuery], no [start]; the state stays stopped.  [stop()] on a
    Connection with an active transport is what sets that state. *)
Theorem fallback_after_stop w err k entry :
  state (conn w) = STATE_STOPPED →
  next_viable (conn w) k entry →
  let c := conn w in
  let t := {| t_index := k; t_class := entry_instance entry |} in
  emitted w (step w (TransportFails err)) =
    [Log info "Transport failed" (("error", err) :: getLogDetails c)]
    ++ probes_upto c k
    ++ [New t (baseUrl c) this_onTransportFail;
        Log debug "Next supported Transport found"
          [("name", VStr (transport_name t))];
        SetReceivedCallback t (Some (receiveCallback c));
        SetStateChangedCallback t (Some (stateChangedCallback c));
        SetUnauthorizedCallback t (unauthorizedCallback c);
        SetConnectionSlowCallback t (Some (connectionSlowCallback c))]
  ∧ transport (conn (step w (TransportFails err))) = Some t
  ∧ state (conn (step w (TransportFails err))) = STATE_STOPPED
  ∧ (∀ w1, is_Some (transport (conn w1)) →
       state (conn (step w1 DoStop)) = STATE_STOPPED).
Proof.
  intros Hstopped Hnext c t. split_and!.
  - unfold step, perform. rewrite (onTransportFail_next _ _ k entry Hnext).
    cbn [snd]. erewrite emitted_app by reflexivity. fold c.
    rewrite decide_False by (unfold c; rewrite Hstopped; done).
    unfold registrations. rewrite app_nil_r. reflexivity.
  - unfold step, perform. by rewrite (onTransportFail_next _ _ k entry Hnext).
  - unfold step, perform. by rewrite (onTransportFail_next _ _ k entry Hnext).
  - intros w1 [t1 Ht1]. public_method.
Qed.

Lemma defaults_persist opts url onFail ops :
  let c := conn (run (constructed opts url onFail) ops) in
  ((∀ cb, DoSetReceivedCallback cb ∉ ops) → receiveCallback c = NOOP)
  ∧ ((∀ cb, DoSetStateChangedCallback cb ∉ ops) →
     stateChangedCallback c = NOOP)
  ∧ ((∀ cb, DoSetConnectionSlowCallback cb ∉ ops) →
     connectionSlowCallback c = NOOP)
  ∧ ((∀ cb, DoSetUnauthorizedCallback cb ∉ ops) →
     unauthorizedCallback c = None).
Proof.
  induction ops as [|op ops IH] using rev_ind.
  - cbv zeta. cbn [run foldl].
    destruct (constructed_cases opts url onFail)
      as [(k & entry & events & _ & -> & _)
         |[(events & _ & -> & _)|(j & n & events & _ & -> & _)]]; done.
  - cbv zeta in *. rewrite run_snoc.
    destruct IH as (IH1 & IH2 & IH3 & IH4).
    destruct (step_fields (run (constructed opts url onFail) ops) op)
      as (F1 & F2 & F3 & F4 & _).
    split_and!; intros Hnever.
    + rewrite F1, IH1; [done| |]; intros cb Hin; apply (Hnever cb);
        rewrite elem_of_app, ?list_elem_of_singleton; auto.
    + rewrite F2, IH2; [done| |]; intros cb Hin; apply (Hnever cb);
        rewrite elem_of_app, ?list_elem_of_singleton; auto.
    + rewrite F3, IH3; [done| |]; intros cb Hin; apply (Hnever cb);
        rewrite elem_of_app, ?list_elem_of_singleton; auto.
    + rewrite F4, IH4; [done| |]; intros cb Hin; apply (Hnever cb);
        rewrite elem_of_app, ?list_elem_of_singleton; auto.
Qed.

(** C10. On a fallback the received, state-changed and connection-slow
    slots are registered on the replacement as functions, [NOOP] when the
    consumer never set them; the unauthorized slot is registered as it is
    stored, which is [undefined] when [setUnauthorizedCallback] was never
    called. *)
Theorem unauthorized_slot_defaults_to_undefined
    opts url onFail ops err k entry :
  let w := run (constructed opts url onFail) ops in
  next_viable (conn w) k entry →
  let t := {| t_index := k; t_class := entry_instance entry |} in
  let replaced := emitted w (step w (TransportFails err)) in
  (∃ received changed slow,
      SetReceivedCallback t (Some received) ∈ replaced
      ∧ SetStateChangedCallback t (Some changed) ∈ replaced
      ∧ SetConnectionSlowCallback t (Some slow) ∈ replaced
      ∧ ((∀ cb, DoSetReceivedCallback cb ∉ ops) → received = NOOP)
      ∧ ((∀ cb, DoSetStateChangedCallback cb ∉ ops) → changed = NOOP)
      ∧ ((∀ cb, DoSetConnectionSlowCallback cb ∉ ops) → slow = NOOP))
  ∧ ((∀ cb, DoSetUnauthorizedCallback cb ∉ ops) →
     SetUnauthorizedCallback t None ∈ replaced
     ∧ ∀ t' f, SetUnauthorizedCallback t' (Some f) ∉ replaced).
Proof.
  intros w Hnext t replaced.
  destruct (defaults_persist opts url onFail ops) as (D1 & D2 & D3 & D4).
  fold w in D1, D2, D3, D4.
  assert (Hev : replaced =
    [Log info "Transport failed" (("error", err) :: getLogDetails (conn w))]
    ++ probes_upto (conn w) k
    ++ [New t (baseUrl (conn w)) this_onTransportFail;
        Log debug "Next supported Transport found"
          [("name", VStr (transport_name t))]]
    ++ registrations t (conn w)
    ++ (if decide (state (conn w) = STATE_STARTED) then
          [UpdateQuery t (authToken (conn w)) (contextId (conn w))
             (authExpiry (conn w)) None;
           Start t (spread (entry_options entry) (options (conn w)))
             (startCallback (conn w))]
        else [])).
  { unfold replaced, step, perform.
    rewrite (onTransportFail_next _ _ k entry Hnext). cbn [snd].
    by erewrite emitted_app by reflexivity. }
  assert (Hreg : ∀ e, e ∈ registrations t (conn w) → e ∈ replaced).
  { intros e He. rewrite Hev, !elem_of_app. auto. }
  split.
  - exists (receiveCallback (conn w)), (stateChangedCallback (conn w)),
      (connectionSlowCallback (conn w)).
    split_and!; [apply Hreg..|done|done|done]; unfold registrations.
    + apply (list_elem_of_lookup_2 _ 0). done.
    + apply (list_elem_of_lookup_2 _ 1). done.
    + apply (list_elem_of_lookup_2 _ 3). done.
  - intros Hnever. specialize (D4 Hnever). split.
    + apply Hreg. unfold registrations. rewrite D4.
      apply (list_elem_of_lookup_2 _ 2). done.
    + intros t' f. rewrite Hev. unfold registrations, probes_upto.
      rewrite D4, !elem_of_app, !elem_of_cons, !elem_of_nil.
      intros [Hin|[Hin|[Hin|[Hin|Hin]]]].
      * intuition congruence.
      * apply probing_probes in Hin as (i & cls & Hi). congruence.
      * intuition congruence.
      * intuition congruence.
      * destruct (decide _).
        -- rewrite !elem_of_cons, elem_of_nil in Hin. intuition congruence.
        -- by apply elem_of_nil in Hin.
Qed.

(** ** The disposal guard *)

Lemma shielded_NOOP : shielded NOOP.
Proof. by left. Qed.

Lemma shielded_Bound callback callbackType :
  shielded (Bound callback callbackType).
Proof. right. by eexists _, _. Qed.

Lemma probing_registers_shielded i candidates :
  Forall registers_shielded (probing i candidates).
Proof.
  apply Forall_forall. intros e (j & cls & ->)%probing_probes. done.
Qed.

Lemma inner_registers_shielded f events :
  Forall (inner f) events → Forall registers_shielded events.
Proof.
  intros Hin. eapply Forall_impl; [exact Hin|].
  intros e. destruct e; cbn; done.
Qed.

Lemma all_shielded_constructed opts url onFail :
  all_shielded (constructed opts url onFail).
Proof.
  unfold constructed, new_Connection. cbv zeta.
  set (c := fields opts url (default NOOP onFail)).
  destruct (search_ends c) as [(k & entry & Hnext)|[Hall|(j & n & Hblocked)]].
  - rewrite (constructor_next _ (mkWorld c []) k entry Hnext).
    unfold all_shielded. cbn [snd conn trace app].
    split_and!; try apply shielded_NOOP; [done|].
    rewrite Forall_app. split; [apply probing_registers_shielded|].
    by repeat constructor.
  - rewrite (constructor_none _ (mkWorld c []) Hall). cbv zeta.
    match goal with
    | |- context [call ?f ?a ?w0] =>
        destruct (call_spec f a w0) as (r & events & Heq & Hin); rewrite Heq
    end.
    unfold all_shielded. cbn [snd conn trace app].
    split_and!; try apply shielded_NOOP; [done|].
    rewrite !Forall_app. split_and!; [apply probing_registers_shielded|..].
    + by repeat constructor.
    + constructor; [done|]. by eapply inner_registers_shielded.
  - rewrite (constructor_blocked _ (mkWorld c []) j n Hblocked).
    unfold all_shielded. cbn [snd conn trace app].
    split_and!; try apply shielded_NOOP; [done|].
    apply probing_registers_shielded.
Qed.

Lemma all_shielded_step w op : all_shielded w → all_shielded (step w op).
Proof.
  intros (S1 & S2 & S3 & S4 & Htr).
  assert (Hu : match unauthorizedCallback (conn w) with
               | Some f => shielded f
               | None => True
               end).
  { destruct (unauthorizedCallback (conn w)) eqn:Hu; [by apply S4|done]. }
  destruct op as [cb|cb|cb|cb|cb| | |tok ctx ex fa| | | | |err|f args].
  13:{ unfold step, perform.
       destruct (search_ends (conn w))
         as [(k & entry & Hnext)|[Hall|(j & n & Hblocked)]].
       3:{ rewrite (onTransportFail_blocked _ _ j n Hblocked).
           unfold all_shielded. cbn [snd conn trace].
           split_and!; [done..|].
           rewrite !Forall_app. split_and!;
             [done|by constructor|apply probing_registers_shielded]. }
       - rewrite (onTransportFail_next _ _ k entry Hnext).
         unfold all_shielded. cbn [snd conn trace].
         split_and!; [done..|].
         rewrite !Forall_app. split_and!.
         + done.
         + by constructor.
         + apply probing_registers_shielded.
         + by repeat constructor.
         + unfold registrations. repeat (constructor; [by cbn|]). constructor.
         + destruct (decide _); by repeat constructor.
       - rewrite (onTransportFail_none _ _ Hall). cbv zeta.
         match goal with
         | |- context [call ?f ?a ?w0] =>
             destruct (call_spec f a w0) as (r & events & Heq & Hin);
             rewrite Heq
         end.
         unfold all_shielded. cbn [snd conn trace].
         split_and!; [done..|].
         rewrite !Forall_app. split_and!.
         + done.
         + by constructor.
         + apply probing_registers_shielded.
         + by constructor.
         + constructor; [done|]. by eapply inner_registers_shielded. }
  13:{ unfold step, perform.
       destruct (call_spec f args w) as (r & events & -> & Hin).
       unfold all_shielded. cbn [snd conn trace].
       split_and!; [done..|].
       rewrite Forall_app. split; [done|].
       constructor; [done|]. by eapply inner_registers_shielded. }
  all: clear Hu; unfold all_shielded; unfold_methods; run_monad;
    repeat case_match; simplify_eq; run_monad;
    cbn [receiveCallback stateChangedCallback connectionSlowCallback
         unauthorizedCallback set_unauthorizedCallback
         set_stateChangedCallback set_receiveCallback
         set_connectionSlowCallback set_state set_startCallback set_query];
    (split_and!; try done; try apply shielded_Bound;
     try (intros ? [= <-]; apply shielded_Bound);
     rewrite ?Forall_app; split_and?; try done;
     repeat (apply Forall_cons; split;
             [by (cbn; try apply shielded_Bound)|]);
     apply Forall_nil_2).
Qed.

Lemma all_shielded_run w ops : all_shielded w → all_shielded (run w ops).
Proof.
  revert w. induction ops as [|op ops IH]; intros w Hw; [done|].
  change (run w (op :: ops)) with (run (step w op) ops).
  apply IH. by apply all_shielded_step.
Qed.

Lemma registered_shielded f tr :
  Forall registers_shielded tr → registered f tr → shielded f.
Proof.
  intros Hall [t Hreg]. rewrite Forall_forall in Hall.
  destruct Hreg as [Hin|[Hin|[Hin|Hin]]]; apply (Hall _ Hin).
Qed.

(** The guard in the disposed state, while a transport is active. *)
Lemma guard_drops w t callback callbackType args :
  state (conn w) = STATE_DISPOSED →
  transport (conn w) = Some t →
  call (Bound callback callbackType) args w =
    (Return (),
     mkWorld (conn w)
       (trace w
        ++ [Called (Bound callback callbackType) args;
            Log warn "callback called after transport was disposed"
              [("callback", VStr callbackType);
               ("transport", VStr (transport_name t));
               ("contextId", of_string (contextId (conn w)))]])).
Proof.
  intros Hd Ht. cbn [call]. run_monad.
  rewrite decide_True by done. rewrite Ht. run_monad.
  tidy_trace. reflexivity.
Qed.

(** The guard in any other state. *)
Lemma guard_forwards w callback callbackType args :
  state (conn w) ≠ STATE_DISPOSED →
  call (Bound callback callbackType) args w =
    call callback args
      (mkWorld (conn w)
         (trace w ++ [Called (Bound callback callbackType) args])).
Proof.
  intros Hd. cbn [call]. run_monad.
  rewrite decide_False by done. reflexivity.
Qed.

Lemma consumer_calls_inner_shielded f args events :
  shielded f → Forall (inner f) events →
  (∀ e, e ∈ events → ∃ lvl msg details, e = Log lvl msg details) →
  consumer_calls (Called f args :: events) = [].
Proof.
  intros Hf _ Hlogs.
  assert (Hhead : reaches_consumer (Called f args) = false).
  { destruct Hf as [->|(cb & ty & ->)]; done. }
  unfold consumer_calls. cbn [List.filter]. rewrite Hhead.
  induction events as [|e l IH]; [done|].
  destruct (Hlogs e) as (lvl & msg & d & ->); [apply list_elem_of_here|].
  cbn. apply IH. intros e' He'. apply Hlogs. by apply list_elem_of_further.
Qed.

(** C2, as the class has it.  While the state is disposed and a transport
    is active, calling any function that was registered on a transport as
    one of the four forwarding callbacks (received, state-changed,
    unauthorized, connection-slow) returns normally, runs no consumer
    function and writes no field; when the function is one the consumer
    set, the call logs one warning and that is all. *)
Theorem disposal_silences_forwarding opts url onFail ops f args :
  let w := run (constructed opts url onFail) ops in
  registered f (trace w) →
  state (conn w) = STATE_DISPOSED →
  is_Some (transport (conn w)) →
  (call f args w).1 = Return ()
  ∧ conn (call f args w).2 = conn w
  ∧ consumer_calls (emitted w (call f args w).2) = []
  ∧ (f ≠ NOOP →
     ∃ details,
       emitted w (call f args w).2 =
         [Called f args;
          Log warn "callback called after transport was disposed" details]).
Proof.
  intros w Hreg Hd [t Ht].
  assert (Hsh : shielded f).
  { eapply registered_shielded; [|exact Hreg].
    apply (all_shielded_run _ ops (all_shielded_constructed opts url onFail)). }
  destruct Hsh as [->|(cb & ty & ->)].
  - cbn [call]. run_monad. split_and!; [done..| |done].
    erewrite emitted_app by reflexivity. done.
  - rewrite (guard_drops w t cb ty args Hd Ht). cbn [fst snd conn].
    split_and!; [done..| |].
    + erewrite emitted_app by reflexivity. done.
    + intros _. eexists. erewrite emitted_app by reflexivity. done.
Qed.

(** C4, as the class has it.  In the disposed state every operation other
    than [start] and [stop] leaves the state disposed, and so do [start] and
    [stop] when there is no active transport; with an active transport
    [start] sets the state to started and [stop] sets it to stopped. *)
Theorem disposed_persists_except_start_stop w op :
  state (conn w) = STATE_DISPOSED →
  ((∀ cb, op ≠ DoStart cb) → op ≠ DoStop →
     state (conn (step w op)) = STATE_DISPOSED)
  ∧ (transport (conn w) = None → state (conn (step w op)) = STATE_DISPOSED)
  ∧ (is_Some (transport (conn w)) →
     (∀ cb, state (conn (step w (DoStart cb))) = STATE_STARTED)
     ∧ state (conn (step w DoStop)) = STATE_STOPPED).
Proof.
  intros Hd.
  assert (Hfail : ∀ err, state (conn (step w (TransportFails err)))
                         = STATE_DISPOSED).
  { intros err. destruct (onTransportFail_step err w)
      as [(k & entry & events & _ & -> & _)
         |[(events & _ & -> & _)|(j & n & events & _ & -> & _)]]; done. }
  assert (Hcall : ∀ f args, state (conn (step w (TransportCalls f args)))
                            = STATE_DISPOSED).
  { intros f args. unfold step, perform. by rewrite call_conn. }
  split_and!.
  - intros Hstart Hstop.
    destruct op as [cb|cb|cb|cb|cb| | |tok ctx ex fa| | | | |err|f args];
      [..|apply Hfail|apply Hcall].
    5:{ by destruct (Hstart cb). }
    5:{ by destruct Hstop. }
    all: public_method.
  - intros Hnone.
    destruct op as [cb|cb|cb|cb|cb| | |tok ctx ex fa| | | | |err|f args];
      [..|apply Hfail|apply Hcall]; public_method.
  - intros [t Ht]. split; [intros cb|]; public_method.
Qed.

(** C7, as the class has it.  With an active transport, each of the four
    setters stores the consumer's function behind the disposal guard and
    hands that guarded function to the transport; the guard, in a state
    other than disposed, calls the function with the same arguments.
    [start] stores the function it is given and hands it to the transport
    as it is. *)
Theorem setters_wrap_start_does_not w t callback :
  transport (conn w) = Some t →
  (let bound := Bound callback "unauthorizedCallback" in
   let w' := step w (DoSetUnauthorizedCallback callback) in
   unauthorizedCallback (conn w') = Some bound
   ∧ emitted w w' = [SetUnauthorizedCallback t (Some bound)])
  ∧ (let bound := Bound callback "stateChangedCallback" in
     let w' := step w (DoSetStateChangedCallback callback) in
     stateChangedCallback (conn w') = bound
     ∧ emitted w w' = [SetStateChangedCallback t (Some bound)])
  ∧ (let bound := Bound callback "receivedCallback" in
     let w' := step w (DoSetReceivedCallback callback) in
     receiveCallback (conn w') = bound
     ∧ emitted w w' = [SetReceivedCallback t (Some bound)])
  ∧ (let bound := Bound callback "connectionSlowCallback" in
     let w' := step w (DoSetConnectionSlowCallback callback) in
     connectionSlowCallback (conn w') = bound
     ∧ emitted w w' = [SetConnectionSlowCallback t (Some bound)])
  ∧ (∀ w1 callbackType args, state (conn w1) ≠ STATE_DISPOSED →
       call (Bound callback callbackType) args w1 =
         call callback args
           (mkWorld (conn w1)
              (trace w1 ++ [Called (Bound callback callbackType) args])))
  ∧ (let w' := step w (DoStart callback) in
     startCallback (conn w') = Some callback
     ∧ ∀ i entry,
         transportIndex (conn w) = Some i →
         transports (conn w) !! i = Some (Listed entry) →
         emitted w w' =
           [Start t (spread (entry_options entry) (options (conn w)))
              (Some callback)]).
Proof.
  intros Ht. split_and!; cbv zeta.
  - unfold_methods. run_monad. rewrite Ht. run_monad.
    split; [done|]. by erewrite emitted_app by reflexivity.
  - unfold_methods. run_monad. rewrite Ht. run_monad.
    split; [done|]. by erewrite emitted_app by reflexivity.
  - unfold_methods. run_monad. rewrite Ht. run_monad.
    split; [done|]. by erewrite emitted_app by reflexivity.
  - unfold_methods. run_monad. rewrite Ht. run_monad.
    split; [done|]. by erewrite emitted_app by reflexivity.
  - intros w1 callbackType args Hd. by apply guard_forwards.
  - split.
    + public_method.
    + intros i entry Hi Hentry. unfold_methods. run_monad.
      rewrite Ht. run_monad.
      cbn [transportIndex transports set_startCallback set_state options].
      rewrite Hi. cbn [option_bind]. rewrite Hentry. run_monad.
      by erewrite emitted_app by reflexivity.
Qed.

End Facts.

(** * Further properties of the Connection *)

Section Further.
Context {imports : Imports}.

Ltac run_monad :=
  unfold mbind, M_bind, mret, M_ret, this, history, assign, emit, throw;
  cbn [conn trace fst snd].

Ltac tidy_trace :=
  cbn [conn trace fst snd]; rewrite <- ?app_assoc; cbn [app];
  rewrite ?app_nil_r.

Ltac unfold_methods :=
  unfold step, perform, setUnauthorizedCallback, setStateChangedCallback,
    setReceivedCallback, setConnectionSlowCallback, start, stop, dispose,
    updateQuery, getQuery, onOrphanFound, onSubscribeNetworkError,
    getTransport, transportOptions.

Lemma inner_addressed f active events :
  Forall (inner f) events → Forall (addressed_to active) events.
Proof.
  intros Hin. eapply Forall_impl; [exact Hin|].
  intros e. destruct e; cbn; try done; by split.
Qed.

Lemma probing_targets_nothing i candidates e :
  e ∈ probing i candidates → target e = None.
Proof. by intros (j & cls & ->)%probing_probes. Qed.

(** A step other than a failure report probes nothing and addresses only
    the active transport, which it leaves in place. *)
Lemma quiet_step_events w op :
  (∀ err, op ≠ TransportFails err) →
  ∃ events,
    trace (step w op) = trace w ++ events
    ∧ transport (conn (step w op)) = transport (conn w)
    ∧ Forall (addressed_to (transport (conn w))) events.
Proof.
  intros Hop.
  destruct op as [cb|cb|cb|cb|cb| | |tok ctx ex fa| | | | |err|f args];
    try (by destruct (Hop err)).
  13:{ destruct (call_spec f args w) as (r & events & Heq & Hin).
       exists (Called f args :: events). unfold step, perform.
       rewrite Heq. split_and!; try reflexivity.
       constructor; [by split|]. by eapply inner_addressed. }
  all: unfold_methods; run_monad;
    repeat case_match; simplify_eq; run_monad; tidy_trace;
    try (exists []; rewrite app_nil_r; by split_and!);
    (eexists; split; [reflexivity|]); (split; [done|]);
    repeat (apply Forall_cons; split;
            [split; [done|cbn; by intros ? [= <-]]|]);
    apply Forall_nil_2.
Qed.

(** X1. The Connection talks to one transport at a time: whatever a step
    constructs or calls is the transport that is active when the step ends.
    A transport that was replaced is never called again, not even to stop
    it. *)
Theorem calls_go_to_active_transport w op e t :
  e ∈ emitted w (step w op) →
  target e = Some t →
  transport (conn (step w op)) = Some t.
Proof.
  intros Hin Ht.
  destruct (fails_or_not op) as [[err ->]|Hop].
  - destruct (search_ends (conn w))
      as [(k & entry & Hnext)|[Hall|(j & n & Hblocked)]].
    3:{ exfalso. revert Hin. unfold step, perform.
        rewrite (onTransportFail_blocked _ _ j n Hblocked). cbn [snd conn].
        erewrite emitted_app by reflexivity. rewrite !elem_of_app.
        intros [Hin|Hin].
        - apply list_elem_of_singleton in Hin as ->. done.
        - apply probing_targets_nothing in Hin. congruence. }
    + revert Hin. unfold step, perform.
      rewrite (onTransportFail_next _ _ k entry Hnext). cbn [snd conn].
      erewrite emitted_app by reflexivity.
      unfold registrations. rewrite !elem_of_app.
      intros [Hin|[Hin|[Hin|[Hin|Hin]]]].
      * apply list_elem_of_singleton in Hin as ->. done.
      * apply probing_targets_nothing in Hin. congruence.
      * rewrite !elem_of_cons, elem_of_nil in Hin.
        destruct Hin as [->|[->|[]]]; cbn in Ht; by simplify_eq.
      * rewrite !elem_of_cons, elem_of_nil in Hin.
        destruct Hin as [->|[->|[->|[->|[]]]]]; cbn in Ht; by simplify_eq.
      * destruct (decide _); [|by apply elem_of_nil in Hin].
        rewrite !elem_of_cons, elem_of_nil in Hin.
        destruct Hin as [->|[->|[]]]; cbn in Ht; by simplify_eq.
    + exfalso. revert Hin. unfold step, perform.
      rewrite (onTransportFail_none _ _ Hall). cbv zeta.
      match goal with
      | |- context [call ?f ?a ?w0] =>
          destruct (call_spec f a w0) as (r & events & Heq & Hinner);
          rewrite Heq
      end.
      cbn [snd conn trace].
      erewrite emitted_app by (rewrite <- !app_assoc; reflexivity).
      unfold probes_all. rewrite !elem_of_app.
      intros [Hin|[Hin|[Hin|Hin]]].
      * apply list_elem_of_singleton in Hin as ->. done.
      * apply probing_targets_nothing in Hin. congruence.
      * apply list_elem_of_singleton in Hin as ->. done.
      * apply elem_of_cons in Hin as [->|Hin]; [done|].
        rewrite Forall_forall in Hinner. specialize (Hinner e Hin).
        destruct e; cbn in *; done.
  - destruct (quiet_step_events w op Hop) as (events & Htr & Hsame & Hall).
    rewrite (emitted_app _ _ _ Htr) in Hin.
    rewrite Forall_forall in Hall. destruct (Hall e Hin) as [_ Hto].
    rewrite Hsame. by apply Hto.
Qed.

Lemma past_the_end_step w op :
  transport (conn w) = None →
  past_the_end (conn w) →
  transport (conn (step w op)) = None
  ∧ past_the_end (conn (step w op))
  ∧ instantiations (trace (step w op)) = instantiations (trace w).
Proof.
  intros Hnone (i & Hi & Hlen).
  destruct (fails_or_not op) as [[err ->]|Hop].
  - destruct (onTransportFail_step err w)
      as [(k & entry & events & Hnext & _)
         |[(events & _ & -> & Hev)|(j & n & events & Hblocked & _)]].
    + exfalso. destruct Hnext as (Hk & Hentry & _).
      apply lookup_lt_Some in Hentry. unfold advance in Hk.
      rewrite Hi in Hk. lia.
    + cbn [conn trace transport set_transport transportIndex
           set_transportIndex transports].
      split_and!; [done| |by rewrite instantiations_app, Hev, app_nil_r].
      eexists. split; [done|]. cbn. lia.
    + exfalso. destruct Hblocked as (Hj & Hvalue & _).
      apply lookup_lt_Some in Hvalue. unfold advance in Hj.
      rewrite Hi in Hj. lia.
  - destruct (quiet_step w op Hop)
      as (events & -> & Hev & Hidx & -> & Hts & _).
    split_and!; [done| |by rewrite instantiations_app, Hev, app_nil_r].
    exists i. by rewrite Hidx, Hts.
Qed.

(** When the constructor has returned, [this.transport] is [null] only
    with the cursor past the end of the list. *)
Lemma null_is_past_the_end opts url onFail ops :
  (new_Connection opts url onFail).1 = Return () →
  let w := run (constructed opts url onFail) ops in
  transport (conn w) = None → past_the_end (conn w).
Proof.
  intros Hreturned. induction ops as [|op ops IH] using rev_ind.
  - cbv zeta. cbn [run foldl]. unfold constructed. revert Hreturned.
    unfold new_Connection. cbv zeta.
    set (c := fields opts url (default NOOP onFail)).
    destruct (search_ends c) as [(k & entry & Hnext)|[Hall|(j & n & Hblocked)]].
    + by rewrite (constructor_next _ (mkWorld c []) k entry Hnext).
    + rewrite (constructor_none _ (mkWorld c []) Hall). cbv zeta.
      rewrite call_conn. cbn. intros _ _. eexists. split; [done|]. cbn. lia.
    + by rewrite (constructor_blocked _ (mkWorld c []) j n Hblocked).
  - cbv zeta in *. rewrite run_snoc.
    set (w := run (constructed opts url onFail) ops) in *.
    destruct (transport (conn w)) as [t|] eqn:Ht.
    + destruct (fails_or_not op) as [[err ->]|Hop].
      * destruct (onTransportFail_step err w)
          as [(k & entry & events & _ & -> & _)
             |[(events & _ & -> & _)|(j & n & events & _ & -> & _)]];
          cbn; [done| |congruence].
        intros _. eexists. split; [done|]. cbn. lia.
      * destruct (quiet_step w op Hop) as (_ & _ & _ & _ & -> & _).
        congruence.
    + intros _. by apply past_the_end_step; [|apply IH].
Qed.

(** X2. Once the search has run off the end of the list the cursor stays past
    the end: on a Connection whose constructor returned, once the active
    transport is [null] no later operation or failure report constructs a
    transport or makes one active. *)
Theorem exhaustion_is_permanent opts url onFail ops more :
  (new_Connection opts url onFail).1 = Return () →
  let w := run (constructed opts url onFail) ops in
  transport (conn w) = None →
  transport (conn (run w more)) = None
  ∧ instantiations (trace (run w more)) = instantiations (trace w).
Proof.
  intros Hreturned w Hnone.
  pose proof (null_is_past_the_end opts url onFail ops Hreturned Hnone)
    as Hcur.
  fold w in Hcur. clearbody w. revert w Hnone Hcur.
  induction more as [|op more IH]; intros w Hnone Hcur; [done|].
  change (run w (op :: more)) with (run (step w op) more).
  destruct (past_the_end_step w op Hnone Hcur) as (Hnone' & Hcur' & Hsame).
  destruct (IH (step w op) Hnone' Hcur') as [-> ->]. done.
Qed.

(** X3. Only [start], [stop] and [dispose] write the lifecycle state: a failure
    report, a fallback, a callback or any other method leaves it as it is.
    So no sequence of steps brings a Connection back to the created
    state. *)
Theorem lifecycle_written_by_start_stop_dispose_only w op ops :
  ((∀ cb, op ≠ DoStart cb) → op ≠ DoStop → op ≠ DoDispose →
     state (conn (step w op)) = state (conn w))
  ∧ (state (conn (run w ops)) = STATE_CREATED →
     state (conn w) = STATE_CREATED).
Proof.
  assert (Hstep : ∀ w op,
    (∀ cb, op ≠ DoStart cb) → op ≠ DoStop → op ≠ DoDispose →
    state (conn (step w op)) = state (conn w)).
  { clear. intros w op Hstart Hstop Hdispose.
    destruct op as [cb|cb|cb|cb|cb| | |tok ctx ex fa| | | | |err|f args].
    5: by destruct (Hstart cb).
    5: by destruct Hstop.
    5: by destruct Hdispose.
    10:{ destruct (onTransportFail_step err w)
           as [(k & entry & events & _ & -> & _)
              |[(events & _ & -> & _)|(j & n & events & _ & -> & _)]];
           done. }
    10:{ unfold step, perform. by rewrite call_conn. }
    all: unfold_methods; run_monad; repeat case_match; simplify_eq;
      run_monad; done. }
  split; [apply Hstep|].
  revert w. induction ops as [|o ops IH]; intros w; [done|].
  change (run w (o :: ops)) with (run (step w o) ops).
  intros Hcreated. specialize (IH _ Hcreated).
  destruct o as [cb|cb|cb|cb|cb| | |tok ctx ex fa| | | | |err|f args];
    try (rewrite Hstep in IH; done).
  - revert IH. unfold_methods. run_monad. repeat case_match; simplify_eq;
      run_monad; done.
  - revert IH. unfold_methods. run_monad. repeat case_match; simplify_eq;
      run_monad; done.
Qed.

Lemma nothing_instantiated_no_new events t u h :
  instantiations events = [] → New t u h ∉ events.
Proof.
  intros Hnone Hin.
  assert (Hi : t_index t ∈ instantiations events).
  { apply list_elem_of_omap. by exists (New t u h). }
  rewrite Hnone in Hi. by apply elem_of_nil in Hi.
Qed.

(** What a step constructs, if anything: an instance of the class listed at
    its index, which reports supported, on the Connection's URL. *)
Lemma step_news w op t u h :
  New t u h ∈ emitted w (step w op) →
  u = baseUrl (conn w)
  ∧ ∃ entry, transports (conn w) !! t_index t = Some (Listed entry)
             ∧ t_class t = entry_instance entry
             ∧ viable entry = true.
Proof.
  intros Hin.
  destruct (fails_or_not op) as [[err ->]|Hop].
  - destruct (onTransportFail_step err w)
      as [(k & entry & events & Hnext & Heq & _)
         |[(events & _ & Heq & Hev)|(j & n & events & _ & Heq & Hev)]].
    + clear Heq. revert Hin. unfold step, perform.
      rewrite (onTransportFail_next _ _ k entry Hnext). cbn [snd conn].
      erewrite emitted_app by reflexivity.
      unfold registrations. rewrite !elem_of_app.
      destruct Hnext as (_ & Hentry & Hv & _).
      intros [Hin|[Hin|[Hin|[Hin|Hin]]]].
      * apply list_elem_of_singleton in Hin. done.
      * apply probing_targets_nothing in Hin. done.
      * rewrite !elem_of_cons, elem_of_nil in Hin.
        destruct Hin as [Hsame|[?|[]]]; [|done].
        simplify_eq. split; [done|]. by exists entry.
      * rewrite !elem_of_cons, elem_of_nil in Hin.
        destruct Hin as [?|[?|[?|[?|[]]]]]; done.
      * destruct (decide _); [|by apply elem_of_nil in Hin].
        rewrite !elem_of_cons, elem_of_nil in Hin.
        destruct Hin as [?|[?|[]]]; done.
    + exfalso. rewrite Heq in Hin. erewrite emitted_app in Hin by reflexivity.
      by eapply nothing_instantiated_no_new.
    + exfalso. rewrite Heq in Hin. erewrite emitted_app in Hin by reflexivity.
      by eapply nothing_instantiated_no_new.
  - exfalso. destruct (quiet_step w op Hop) as (events & Htr & Hev & _).
    rewrite (emitted_app _ _ _ Htr) in Hin.
    by eapply nothing_instantiated_no_new.
Qed.

Lemma constructed_news opts url onFail t u h :
  New t u h ∈ trace (constructed opts url onFail) →
  u = url
  ∧ ∃ entry,
      getSupportedTransports (requestedTransports opts) !! t_index t
        = Some (Listed entry)
      ∧ t_class t = entry_instance entry
      ∧ viable entry = true.
Proof.
  destruct (constructed_cases opts url onFail)
    as [(k & entry & events & Hnext & _)
       |[(events & _ & -> & Hev)|(j & n & events & _ & -> & Hev)]].
  - unfold constructed, new_Connection. cbv zeta.
    rewrite (constructor_next _ (mkWorld _ []) k entry Hnext).
    cbn [snd trace conn app]. rewrite !elem_of_app.
    destruct Hnext as (_ & Hentry & Hv & _).
    intros [Hin|Hin].
    + apply probing_targets_nothing in Hin. done.
    + rewrite !elem_of_cons, elem_of_nil in Hin.
      destruct Hin as [Hsame|[?|[]]]; [|done].
      simplify_eq. split; [done|]. by exists entry.
  - intros Hin. exfalso. by eapply nothing_instantiated_no_new.
  - intros Hin. exfalso. by eapply nothing_instantiated_no_new.
Qed.

Lemma news_are_listed opts url onFail ops t u h :
  New t u h ∈ trace (run (constructed opts url onFail) ops) →
  u = url
  ∧ ∃ entry,
      getSupportedTransports (requestedTransports opts) !! t_index t
        = Some (Listed entry)
      ∧ t_class t = entry_instance entry
      ∧ viable entry = true.
Proof.
  induction ops as [|op ops IH] using rev_ind.
  - apply constructed_news.
  - rewrite run_snoc.
    set (w := run (constructed opts url onFail) ops) in *.
    assert (Htr : ∃ events, trace (step w op) = trace w ++ events).
    { destruct (fails_or_not op) as [[err ->]|Hop].
      - destruct (onTransportFail_step err w)
          as [(k & entry & events & _ & -> & _)
             |[(events & _ & -> & _)|(j & n & events & _ & -> & _)]];
          by eexists.
      - destruct (quiet_step w op Hop) as (events & -> & _). by eexists. }
    destruct Htr as (events & Htr). rewrite Htr, elem_of_app.
    intros [Hin|Hin]; [by apply IH|].
    assert (Hem : New t u h ∈ emitted w (step w op))
      by by rewrite (emitted_app _ _ _ Htr).
    apply step_news in Hem. revert Hem. subst w.
    by destruct (reached_static opts url onFail ops) as (-> & -> & _).
Qed.

(** X4. Every transport the Connection ever constructs is built on the
    Connection's URL, from the class listed at its index of the candidate
    list, and that class reported supported: an unsupported or unlisted
    transport is never constructed. *)
Theorem constructed_transports_are_listed_and_supported
    opts url onFail ops t u h :
  New t u h ∈ trace (run (constructed opts url onFail) ops) →
  u = url
  ∧ isSupported (statics (t_class t)) = true
  ∧ ∃ entry,
      getSupportedTransports (requestedTransports opts) !! t_index t
        = Some (Listed entry)
      ∧ t_class t = entry_instance entry.
Proof.
  intros Hin.
  destruct (news_are_listed _ _ _ _ _ _ _ Hin)
    as (-> & entry & Hentry & Hclass & Hv).
  split_and!; [done| |by exists entry].
  unfold viable in Hv. by rewrite Hclass.
Qed.

Lemma probes_app l1 l2 : probes (l1 ++ l2) = probes l1 ++ probes l2.
Proof. apply omap_app. Qed.

Lemma addressed_not_probed active events :
  Forall (addressed_to active) events → probes events = [].
Proof.
  induction 1 as [|e l [He _] _ IH]; [done|].
  unfold probes in *. cbn. by rewrite He.
Qed.

Lemma probes_none events :
  Forall (λ e, probed e = None) events → probes events = [].
Proof.
  induction 1 as [|e l He _ IH]; [done|].
  unfold probes in *. cbn. by rewrite He.
Qed.

Lemma inner_not_probed f events :
  Forall (inner f) events → Forall (λ e, probed e = None) events.
Proof.
  intros Hin. eapply Forall_impl; [exact Hin|]. intros e. by destruct e.
Qed.

(** The probes of [probing] are the positions, in order, that hold an
    entry of the object literal. *)
Lemma probes_probing_filter (P : nat → bool) i candidates :
  (∀ j x, candidates !! j = Some x →
     P (i + j) = match x with Listed _ => true | Inherited _ => false end) →
  probes (probing i candidates) = List.filter P (seq i (length candidates)).
Proof.
  revert i. induction candidates as [|x l IH]; intros i HP; [done|].
  pose proof (HP 0 x eq_refl) as Hx. rewrite Nat.add_0_r in Hx.
  assert (Hrest : probes (probing (S i) l) = List.filter P (seq (S i) (length l))).
  { apply IH. intros j y Hy. rewrite <- (HP (S j) y Hy). f_equal. lia. }
  cbn [length seq List.filter]. rewrite Hx.
  destruct x as [e|n]; cbn [probing]; [|done].
  change (probes (IsSupported i (entry_instance e) :: probing (S i) l))
    with (i :: probes (probing (S i) l)).
  by rewrite Hrest.
Qed.

Lemma probes_upto_filter c k :
  advance c ≤ k → k < length (transports c) →
  probes (probes_upto c k) =
    List.filter (holds_entry (transports c)) (seq (advance c) (S k - advance c)).
Proof.
  intros Hk Hlen. unfold probes_upto.
  rewrite (probes_probing_filter (holds_entry (transports c))).
  - rewrite length_take, length_drop. f_equal. f_equal. lia.
  - intros j x [Hx _]%lookup_take_Some. rewrite lookup_drop in Hx.
    unfold holds_entry. by rewrite Hx.
Qed.

Lemma probes_all_filter c :
  probes (probes_all c) =
    List.filter (holds_entry (transports c))
      (seq (advance c) (length (transports c) - advance c)).
Proof.
  unfold probes_all.
  rewrite (probes_probing_filter (holds_entry (transports c))).
  - by rewrite length_drop.
  - intros j x Hx. rewrite lookup_drop in Hx.
    unfold holds_entry. by rewrite Hx.
Qed.

(** The probes of one run of the failure handler: the positions from where
    the cursor was to where it is left that hold an entry. *)
Lemma fail_step_probes err w :
  let w' := step w (TransportFails err) in
  ∃ i, transportIndex (conn w') = Some i
       ∧ advance (conn w) ≤ i
       ∧ probes (emitted w w') =
           List.filter (holds_entry (transports (conn w)))
             (seq (advance (conn w))
                (S i `min` length (transports (conn w)) - advance (conn w))).
Proof.
  cbv zeta. unfold step, perform.
  destruct (search_ends (conn w))
    as [(k & entry & Hnext)|[Hall|(j & n & Hblocked)]].
  - rewrite (onTransportFail_next _ _ k entry Hnext). cbn [snd conn].
    exists k. destruct Hnext as (Hk & Hentry & _).
    apply lookup_lt_Some in Hentry. split_and!; [done..|].
    erewrite emitted_app by reflexivity. unfold registrations.
    rewrite !probes_app, probes_upto_filter by done.
    rewrite (probes_none [_]) by by repeat constructor.
    rewrite (probes_none [_; _]) by by repeat constructor.
    rewrite (probes_none [_; _; _; _]) by by repeat constructor.
    rewrite (probes_none (if decide _ then _ else _))
      by (destruct (decide _); by repeat constructor).
    rewrite !app_nil_r. cbn [app]. f_equal. f_equal. lia.
  - rewrite (onTransportFail_none _ _ Hall). cbv zeta.
    match goal with
    | |- context [call ?f ?a ?w0] =>
        destruct (call_spec f a w0) as (r & events & Heq & Hin);
        rewrite Heq
    end.
    cbn [snd conn trace transportIndex set_transport set_transportIndex].
    eexists. split_and!; [reflexivity|lia|].
    erewrite emitted_app by (rewrite <- !app_assoc; reflexivity).
    rewrite !probes_app, probes_all_filter.
    rewrite !(probes_none [_]) by by repeat constructor.
    rewrite (probes_none (_ :: events))
      by (constructor; [done|by eapply inner_not_probed]).
    rewrite !app_nil_r. cbn [app]. f_equal. f_equal. lia.
  - rewrite (onTransportFail_blocked _ _ j n Hblocked). cbn [snd conn].
    exists j. destruct Hblocked as (Hj & Hvalue & _).
    apply lookup_lt_Some in Hvalue. split_and!; [done..|].
    erewrite emitted_app by reflexivity.
    rewrite !probes_app, probes_upto_filter by done.
    rewrite (probes_none [_]) by by repeat constructor.
    cbn [app]. f_equal. f_equal. lia.
Qed.

Lemma constructed_probes opts url onFail :
  let w := constructed opts url onFail in
  ∃ i, transportIndex (conn w) = Some i
       ∧ probes (trace w) =
           List.filter (holds_entry (transports (conn w)))
             (seq 0 (S i `min` length (transports (conn w)))).
Proof.
  cbv zeta. unfold constructed, new_Connection. cbv zeta.
  set (c := fields opts url (default NOOP onFail)).
  assert (Hadv : advance c = 0) by done.
  destruct (search_ends c) as [(k & entry & Hnext)|[Hall|(j & n & Hblocked)]].
  - rewrite (constructor_next _ (mkWorld c []) k entry Hnext).
    cbn [snd trace conn app]. exists k. split; [done|].
    destruct Hnext as (Hk & Hentry & _). apply lookup_lt_Some in Hentry.
    rewrite !probes_app, probes_upto_filter by done.
    rewrite (probes_none [_; _]) by by repeat constructor.
    rewrite Hadv, app_nil_r. cbn [transports set_transport set_transportIndex].
    f_equal. f_equal. lia.
  - rewrite (constructor_none _ (mkWorld c []) Hall). cbv zeta.
    match goal with
    | |- context [call ?f ?a ?w0] =>
        destruct (call_spec f a w0) as (r & events & Heq & Hin);
        rewrite Heq
    end.
    cbn [snd conn trace app]. eexists. split; [reflexivity|].
    rewrite !probes_app, probes_all_filter.
    rewrite (probes_none [_]) by by repeat constructor.
    rewrite (probes_none (_ :: events))
      by (constructor; [done|by eapply inner_not_probed]).
    rewrite Hadv, !app_nil_r.
    cbn [transports set_transport set_transportIndex]. f_equal. f_equal. lia.
  - rewrite (constructor_blocked _ (mkWorld c []) j n Hblocked).
    cbn [snd trace conn app]. exists j. split; [done|].
    destruct Hblocked as (Hj & Hvalue & _). apply lookup_lt_Some in Hvalue.
    rewrite probes_upto_filter by done.
    rewrite Hadv. cbn [transports set_transportIndex]. f_equal. f_equal. lia.
Qed.

Lemma seq_glue a b n :
  a ≤ b → seq 0 (a `min` n) ++ seq a (b `min` n - a) = seq 0 (b `min` n).
Proof.
  intros Hab. destruct (decide (a ≤ n)) as [Han|Han].
  - rewrite (Nat.min_l a n) by done.
    replace (b `min` n) with (a + (b `min` n - a)) at 2 by lia.
    by rewrite seq_app.
  - replace (b `min` n - a) with 0 by lia. cbn [seq]. rewrite app_nil_r.
    f_equal. lia.
Qed.

Lemma filter_listed candidates n :
  Forall listed candidates → n ≤ length candidates →
  List.filter (holds_entry candidates) (seq 0 n) = seq 0 n.
Proof.
  intros Hall Hn. apply List.forallb_filter_id, List.forallb_forall.
  intros i [_ Hi]%List.in_seq.
  destruct (lookup_lt_is_Some_2 candidates i) as [x Hx]; [lia|].
  unfold holds_entry. rewrite Hx.
  pose proof (proj1 (Forall_lookup _ _) Hall i x Hx) as Hlisted.
  by destruct x.
Qed.

Lemma probes_follow_cursor opts url onFail ops :
  let w := run (constructed opts url onFail) ops in
  ∃ i, transportIndex (conn w) = Some i
       ∧ probes (trace w) =
           List.filter (holds_entry (transports (conn w)))
             (seq 0 (S i `min` length (transports (conn w)))).
Proof.
  induction ops as [|op ops IH] using rev_ind.
  - apply constructed_probes.
  - cbv zeta in *. rewrite run_snoc.
    set (w := run (constructed opts url onFail) ops) in *.
    destruct IH as (i & Hi & Hprobes).
    assert (Hadv : advance (conn w) = S i) by (unfold advance; by rewrite Hi).
    destruct (step_static w op) as (Hts & _). rewrite Hts.
    destruct (fails_or_not op) as [[err ->]|Hop].
    + destruct (fail_step_probes err w) as (i' & Hi' & Hle & Hnew).
      exists i'. split; [done|].
      assert (Htr : trace (step w (TransportFails err)) =
                    trace w ++ emitted w (step w (TransportFails err))).
      { destruct (onTransportFail_step err w)
          as [(k & entry & events & _ & -> & _)
             |[(events & _ & -> & _)|(j & n & events & _ & -> & _)]];
          by erewrite emitted_app by reflexivity. }
      rewrite Htr, probes_app, Hprobes, Hnew, Hadv.
      rewrite <- List.filter_app. f_equal. apply seq_glue. lia.
    + destruct (quiet_step w op Hop) as (ev1 & _ & _ & Hidx & _).
      destruct (quiet_step_events w op Hop) as (events & Htr & _ & Haddr).
      exists i. rewrite Hidx, Htr, probes_app,
        (addressed_not_probed _ _ Haddr), app_nil_r.
      done.
Qed.

(** X5. Over the whole life of a Connection [isSupported()] is evaluated on
    the candidates in list order, each at most once, and on no position
    beyond the cursor: the probed positions are those among
    [0, 1, ..., n-1] that hold an entry of the registry, where [n] is the
    cursor plus one, or the length of the list once the cursor is past its
    end.  A position that holds a value inherited from [Object.prototype]
    is passed over without a probe.  Over a list of registry entries the
    probed positions are [0, 1, ..., n-1]. *)
Theorem probes_are_consecutive opts url onFail ops :
  let w := run (constructed opts url onFail) ops in
  let candidates := transports (conn w) in
  ∃ i, transportIndex (conn w) = Some i
       ∧ probes (trace w) =
           List.filter (holds_entry candidates)
             (seq 0 (S i `min` length candidates))
       ∧ (Forall listed candidates →
          probes (trace w) = seq 0 (S i `min` length candidates)).
Proof.
  intros w candidates.
  destruct (probes_follow_cursor opts url onFail ops) as (i & Hi & Hprobes).
  fold w in Hi, Hprobes. fold candidates in Hprobes.
  exists i. split_and!; [done..|].
  intros Hlisted. rewrite Hprobes. apply filter_listed; [done|lia].
Qed.

Lemma increasing_within l m n :
  StronglySorted lt l → Forall (λ x, m ≤ x < n) l → length l ≤ n - m.
Proof.
  intros Hsorted. revert m. induction Hsorted as [|x l _ IH Hx]; intros m Hall.
  - cbn. lia.
  - apply Forall_cons in Hall as [Hm Hall]. cbn [length].
    assert (Hrest : Forall (λ y, S x ≤ y < n) l).
    { rewrite Forall_forall in Hall, Hx |- *. intros y Hy.
      specialize (Hall y Hy). specialize (Hx y Hy). lia. }
    specialize (IH (S x) Hrest). lia.
Qed.

(** X6. A Connection constructs at most as many transports in its life as its
    candidate list has entries. *)
Theorem at_most_one_instance_per_candidate opts url onFail ops :
  length (instantiations (trace (run (constructed opts url onFail) ops)))
  ≤ length (getSupportedTransports (requestedTransports opts)).
Proof.
  pose proof (well_searched_run _ ops
    (well_searched_constructed opts url onFail)) as (_ & Hsorted & _).
  rewrite <- (Nat.sub_0_r (length (getSupportedTransports _))).
  apply increasing_within; [done|].
  rewrite Forall_forall. intros i Hi. split; [lia|].
  apply list_elem_of_omap in Hi as (e & He & Hinst).
  destruct e; try done. cbn in Hinst. injection Hinst as <-.
  destruct (news_are_listed _ _ _ _ _ _ _ He) as (_ & entry & Hentry & _).
  by eapply lookup_lt_Some.
Qed.

Lemma run_fields w ops :
  ((∀ cb, DoSetReceivedCallback cb ∉ ops) →
     receiveCallback (conn (run w ops)) = receiveCallback (conn w))
  ∧ ((∀ cb, DoSetStateChangedCallback cb ∉ ops) →
     stateChangedCallback (conn (run w ops)) = stateChangedCallback (conn w))
  ∧ ((∀ cb, DoSetConnectionSlowCallback cb ∉ ops) →
     connectionSlowCallback (conn (run w ops))
       = connectionSlowCallback (conn w))
  ∧ ((∀ cb, DoSetUnauthorizedCallback cb ∉ ops) →
     unauthorizedCallback (conn (run w ops)) = unauthorizedCallback (conn w)).
Proof.
  induction ops as [|op ops IH] using rev_ind; [done|].
  rewrite run_snoc. destruct IH as (IH1 & IH2 & IH3 & IH4).
  destruct (step_fields (run w ops) op) as (F1 & F2 & F3 & F4 & _).
  split_and!; intros Hnever.
  - rewrite F1, IH1; [done| |]; intros cb Hin; apply (Hnever cb);
      rewrite elem_of_app, ?list_elem_of_singleton; auto.
  - rewrite F2, IH2; [done| |]; intros cb Hin; apply (Hnever cb);
      rewrite elem_of_app, ?list_elem_of_singleton; auto.
  - rewrite F3, IH3; [done| |]; intros cb Hin; apply (Hnever cb);
      rewrite elem_of_app, ?list_elem_of_singleton; auto.
  - rewrite F4, IH4; [done| |]; intros cb Hin; apply (Hnever cb);
      rewrite elem_of_app, ?list_elem_of_singleton; auto.
Qed.

Lemma registrations_replaced err w k entry :
  next_viable (conn w) k entry →
  let t := {| t_index := k; t_class := entry_instance entry |} in
  ∀ e, e ∈ registrations t (conn w) →
       e ∈ emitted w (step w (TransportFails err)).
Proof.
  intros Hnext t e He. unfold step, perform.
  rewrite (onTransportFail_next _ _ k entry Hnext). cbn [snd].
  erewrite emitted_app by reflexivity. rewrite !elem_of_app. auto.
Qed.

(** X7. The consumer registers a callback once.  Whatever happens afterwards,
    short of setting that callback again, a fallback registers the same
    guarded function on the replacement transport. *)
Theorem callbacks_survive_fallback w t cb ops err k entry :
  transport (conn w) = Some t →
  let t' := {| t_index := k; t_class := entry_instance entry |} in
  (let w' := run (step w (DoSetReceivedCallback cb)) ops in
   (∀ other, DoSetReceivedCallback other ∉ ops) →
   next_viable (conn w') k entry →
   SetReceivedCallback t' (Some (Bound cb "receivedCallback"))
     ∈ emitted w' (step w' (TransportFails err)))
  ∧ (let w' := run (step w (DoSetStateChangedCallback cb)) ops in
     (∀ other, DoSetStateChangedCallback other ∉ ops) →
     next_viable (conn w') k entry →
     SetStateChangedCallback t' (Some (Bound cb "stateChangedCallback"))
       ∈ emitted w' (step w' (TransportFails err)))
  ∧ (let w' := run (step w (DoSetUnauthorizedCallback cb)) ops in
     (∀ other, DoSetUnauthorizedCallback other ∉ ops) →
     next_viable (conn w') k entry →
     SetUnauthorizedCallback t' (Some (Bound cb "unauthorizedCallback"))
       ∈ emitted w' (step w' (TransportFails err)))
  ∧ (let w' := run (step w (DoSetConnectionSlowCallback cb)) ops in
     (∀ other, DoSetConnectionSlowCallback other ∉ ops) →
     next_viable (conn w') k entry →
     SetConnectionSlowCallback t' (Some (Bound cb "connectionSlowCallback"))
       ∈ emitted w' (step w' (TransportFails err))).
Proof.
  intros Ht t'. split_and!; intros w' Hnever Hnext;
    apply (registrations_replaced err w' k entry Hnext);
    unfold registrations;
    destruct (run_fields (step w (DoSetReceivedCallback cb)) ops)
      as (R1 & _);
    destruct (run_fields (step w (DoSetStateChangedCallback cb)) ops)
      as (_ & R2 & _);
    destruct (run_fields (step w (DoSetUnauthorizedCallback cb)) ops)
      as (_ & _ & _ & R4);
    destruct (run_fields (step w (DoSetConnectionSlowCallback cb)) ops)
      as (_ & _ & R3 & _);
    fold w' in R1, R2, R3, R4.
  - rewrite (R1 Hnever). unfold_methods. run_monad. rewrite Ht. run_monad.
    apply (list_elem_of_lookup_2 _ 0). done.
  - rewrite (R2 Hnever). unfold_methods. run_monad. rewrite Ht. run_monad.
    apply (list_elem_of_lookup_2 _ 1). done.
  - rewrite (R4 Hnever). unfold_methods. run_monad. rewrite Ht. run_monad.
    apply (list_elem_of_lookup_2 _ 2). done.
  - rewrite (R3 Hnever). unfold_methods. run_monad. rewrite Ht. run_monad.
    apply (list_elem_of_lookup_2 _ 3). done.
Qed.

(** X8. [dispose()] does not end the fallback search.  When a transport fails
    after it and a viable candidate lies ahead, the replacement is still
    constructed and wired and becomes the active transport; it is not
    started and the state stays disposed. *)
Theorem fallback_after_dispose w err k entry :
  state (conn w) = STATE_DISPOSED →
  next_viable (conn w) k entry →
  let c := conn w in
  let t := {| t_index := k; t_class := entry_instance entry |} in
  emitted w (step w (TransportFails err)) =
    [Log info "Transport failed" (("error", err) :: getLogDetails c)]
    ++ probes_upto c k
    ++ [New t (baseUrl c) this_onTransportFail;
        Log debug "Next supported Transport found"
          [("name", VStr (transport_name t))]]
    ++ registrations t c
  ∧ transport (conn (step w (TransportFails err))) = Some t
  ∧ state (conn (step w (TransportFails err))) = STATE_DISPOSED.
Proof.
  intros Hd Hnext c t. unfold step, perform.
  rewrite (onTransportFail_next _ _ k entry Hnext). cbn [snd].
  erewrite emitted_app by reflexivity. fold c.
  rewrite decide_False by (unfold c; rewrite Hd; done).
  rewrite app_nil_r. done.
Qed.

(** ** What throws and what does not *)

(** A call that no guard stops: it runs down to the innermost function,
    and ends as that function ends. *)
Lemma call_passes f args w :
  state (conn w) ≠ STATE_DISPOSED ∨ depth f = 0 →
  call f args w =
    (outcome_of (innermost f) args (trace w ++ descent f args),
     mkWorld (conn w) (trace w ++ descent f args)).
Proof.
  revert w. induction f as [| ref | cb IH ty]; intros w Hpass.
  - done.
  - cbn [call descent innermost outcome_of]. run_monad.
    by destruct (raises ref args _).
  - destruct Hpass as [Hd|?]; [|done].
    cbn [call]. run_monad. rewrite decide_False by done.
    rewrite IH by by left. cbn [conn trace descent innermost].
    by rewrite <- !app_assoc.
Qed.

(** X9. Calling a function value throws in two situations only.  One: the
    function is a guarded callback, the state is disposed and there is no
    active transport; then the guard fails on [this.transport.name] before
    it has logged anything.  Two: no guard stops the call (the state is not
    disposed, or the function is not guarded) and the consumer's function
    at the bottom throws; what it throws comes out of the guards as it
    is.  In the disposed state with an active transport a guarded callback
    logs a warning and returns. *)
Theorem guard_throws_exactly_when f args w :
  (∀ callback callbackType,
     f = Bound callback callbackType →
     state (conn w) = STATE_DISPOSED →
     call f args w =
       match transport (conn w) with
       | None =>
           (Throw (TypeError "Cannot read properties of null (reading 'name')"),
            mkWorld (conn w) (trace w ++ [Called f args]))
       | Some t =>
           (Return (),
            mkWorld (conn w)
              (trace w
               ++ [Called f args;
                   Log warn "callback called after transport was disposed"
                     [("callback", VStr callbackType);
                      ("transport", VStr (transport_name t));
                      ("contextId", of_string (contextId (conn w)))]]))
       end)
  ∧ (state (conn w) ≠ STATE_DISPOSED ∨ depth f = 0 →
     call f args w =
       (outcome_of (innermost f) args (trace w ++ descent f args),
        mkWorld (conn w) (trace w ++ descent f args)))
  ∧ ((call f args w).1 ≠ Return () ↔
       (depth f ≠ 0 ∧ state (conn w) = STATE_DISPOSED
        ∧ transport (conn w) = None)
       ∨ ((state (conn w) ≠ STATE_DISPOSED ∨ depth f = 0)
          ∧ ∃ ref value,
              innermost f = Consumer ref
              ∧ raises ref args (trace w ++ descent f args) = Some value)).
Proof.
  assert (Hguard : ∀ callback callbackType,
     f = Bound callback callbackType →
     state (conn w) = STATE_DISPOSED →
     call f args w =
       match transport (conn w) with
       | None =>
           (Throw (TypeError "Cannot read properties of null (reading 'name')"),
            mkWorld (conn w) (trace w ++ [Called f args]))
       | Some t =>
           (Return (),
            mkWorld (conn w)
              (trace w
               ++ [Called f args;
                   Log warn "callback called after transport was disposed"
                     [("callback", VStr callbackType);
                      ("transport", VStr (transport_name t));
                      ("contextId", of_string (contextId (conn w)))]]))
       end).
  { intros cb ty -> Hd. destruct (transport (conn w)) as [t|] eqn:Ht.
    - by apply guard_drops.
    - cbn [call]. run_monad. rewrite decide_True by done. by rewrite Ht. }
  split_and!; [exact Hguard|apply call_passes|].
  assert (Hends : ∀ g past,
    outcome_of g args past ≠ Return () ↔
    ∃ ref value, g = Consumer ref ∧ raises ref args past = Some value).
  { intros g past. destruct g as [|ref|cb ty]; cbn.
    - split; [done|]. by intros (? & ? & ? & _).
    - destruct (raises ref args past) as [v|] eqn:Hr.
      + split; [|done]. intros _. by exists ref, v.
      + split; [done|]. intros (? & ? & [= <-] & ?). congruence.
    - split; [done|]. by intros (? & ? & ? & _). }
  destruct (decide (state (conn w) ≠ STATE_DISPOSED ∨ depth f = 0))
    as [Hpass|Hstop].
  - rewrite (call_passes f args w Hpass). cbn [fst]. rewrite Hends.
    split; [by right|]. intros [(Hdepth & Hd & _)|[_ Hthrows]]; [|done].
    destruct Hpass; done.
  - assert (Hd : state (conn w) = STATE_DISPOSED).
    { destruct (decide (state (conn w) = STATE_DISPOSED)); [done|].
      destruct Hstop. by left. }
    destruct f as [| ref | cb ty]; [destruct Hstop; by right..|].
    rewrite (Hguard cb ty eq_refl Hd).
    destruct (transport (conn w)) as [t|]; cbn [fst].
    + split; [done|]. intros [(_ & _ & [=])|[Hpass _]]. done.
    + split; [|done]. intros _. left. by split_and!.
Qed.

(** X10. No public method throws on a Connection, whatever was done to it
    before; in particular [start] always finds a value under the cursor.
    The constructor returns when it finds a viable candidate; it throws a
    [TypeError] when the search comes to a value inherited from
    [Object.prototype]; and when it finds the list exhausted it ends as the
    call of [failCallback] ends, so it throws what the consumer's function
    throws. *)
Theorem public_methods_return opts url onFail ops op :
  is_public op = true →
  let c := fields opts url (default NOOP onFail) in
  (perform op (run (constructed opts url onFail) ops)).1 = Return ()
  ∧ (∀ k entry, next_viable c k entry →
       (new_Connection opts url onFail).1 = Return ())
  ∧ (∀ j inherited, blocked c j inherited →
       (new_Connection opts url onFail).1 =
         Throw (TypeError
           "Cannot read properties of undefined (reading 'isSupported')"))
  ∧ (exhausted c →
       (new_Connection opts url onFail).1 =
         outcome_of (innermost (default NOOP onFail)) []
           (trace (constructed opts url onFail))).
Proof.
  intros Hpublic c. split_and!.
  - pose proof (well_searched_run _ ops
      (well_searched_constructed opts url onFail)) as (_ & _ & _ & Hact).
    set (w := run (constructed opts url onFail) ops) in *.
    destruct op as [cb|cb|cb|cb|cb| | |tok ctx ex fa| | | | |err|f args];
      try done.
    5:{ unfold_methods. run_monad.
        destruct (transport (conn w)) as [t|]; [|done].
        destruct (Hact t eq_refl) as (_ & _ & _ & i & x & Hidx & Hx).
        run_monad.
        cbn [transportIndex set_startCallback set_state transports].
        rewrite Hidx. cbn [option_bind]. rewrite Hx. by destruct x. }
    all: unfold_methods; run_monad; repeat case_match; simplify_eq;
      run_monad; done.
  - intros k entry Hnext. unfold new_Connection. cbv zeta. fold c.
    by rewrite (constructor_next _ (mkWorld c []) k entry Hnext).
  - intros j n Hblocked. unfold new_Connection. cbv zeta. fold c.
    by rewrite (constructor_blocked _ (mkWorld c []) j n Hblocked).
  - intros Hall. unfold constructed, new_Connection. cbv zeta. fold c.
    rewrite (constructor_none _ (mkWorld c []) Hall). cbv zeta.
    by rewrite call_passes by by left.
Qed.

(** X11. Without an active transport the setters, [start], [stop], [getQuery],
    [getTransport] and the two optional hooks do nothing at all: no field
    is written (a callback passed to a setter is not kept, [start] does not
    even set the state) and nothing is called.  [getQuery] then returns
    [undefined] and [getTransport] returns [null]. *)
Theorem without_transport_nothing_happens w op :
  transport (conn w) = None →
  is_public op = true →
  needs_no_transport op = false →
  perform op w = (Return (), w)
  ∧ getQuery w = (Return RUndefined, w)
  ∧ getTransport w = (Return RNull, w).
Proof.
  intros Hnone Hpublic Hneeds. destruct w as [c tr]. cbn in Hnone.
  split_and!.
  - destruct op; try done; unfold_methods; run_monad; rewrite Hnone; done.
  - unfold getQuery. run_monad. by rewrite Hnone.
  - unfold getTransport. run_monad. by rewrite Hnone.
Qed.

(** [updateQuery] always stores the session and logs; it reaches a
    transport only if one is active, and then with [forceAuth] defaulting
    to [false].  The stored context id is what later log records carry. *)
Theorem updateQuery_stores_and_forwards w token context expiry forceAuth :
  let w' := step w (DoUpdateQuery token context expiry forceAuth) in
  let stored := from_option VNum VUndefined expiry in
  let logged :=
    Log debug "Connection update query"
      [("contextId", VStr context); ("authExpiry", stored)] in
  authToken (conn w') = Some token
  ∧ contextId (conn w') = Some context
  ∧ authExpiry (conn w') = stored
  ∧ emitted w w' =
      match transport (conn w) with
      | Some t =>
          [logged;
           UpdateQuery t (Some token) (Some context) stored
             (Some (default false forceAuth))]
      | None => [logged]
      end
  ∧ getLogDetails (conn w') =
      [("url", VStr (baseUrl (conn w)));
       ("index", of_index (transportIndex (conn w)));
       ("contextId", VStr context);
       ("enabledTransports", of_optional (options (conn w) !! "transport"))]
  ∧ conn w' = set_query (Some token) (Some context) stored (conn w).
Proof.
  cbv zeta. unfold_methods. run_monad.
  cbn [transport set_query authToken contextId authExpiry].
  destruct (transport (conn w)) as [t|]; run_monad; tidy_trace;
    (split_and!; [done..| |done|done]);
    by erewrite emitted_app by reflexivity.
Qed.

(** X12. Over a candidate list of registry entries, what [getTransport]
    returns follows the cursor: [null] exactly when the cursor is past the
    end of the candidate list, otherwise the instance built from the entry
    under the cursor (or what that instance's own [getTransport()] gives),
    never a transport that was replaced.  It never throws and writes no
    field. *)
Theorem getTransport_follows_cursor opts url onFail ops :
  Forall listed (getSupportedTransports (requestedTransports opts)) →
  let w := run (constructed opts url onFail) ops in
  conn (getTransport w).2 = conn w
  ∧ ∃ i, transportIndex (conn w) = Some i
    ∧ match (getTransport w).1 with
      | Return RNull => length (transports (conn w)) ≤ i
      | Return (RTransport t) =>
          t_index t = i
          ∧ hasOwn_getTransport (statics (t_class t)) = false
          ∧ ∃ entry, transports (conn w) !! i = Some (Listed entry)
                     ∧ t_class t = entry_instance entry
      | Return (RUnwrapped t) =>
          t_index t = i
          ∧ hasOwn_getTransport (statics (t_class t)) = true
          ∧ ∃ entry, transports (conn w) !! i = Some (Listed entry)
                     ∧ t_class t = entry_instance entry
      | _ => False
      end.
Proof.
  intros Hlisted w.
  pose proof (cursor_inv_run opts url onFail ops Hlisted) as Hcur.
  fold w in Hcur. unfold cursor_inv in Hcur.
  unfold getTransport. run_monad.
  destruct (transport (conn w)) as [t|].
  - destruct Hcur as (Hidx & entry & Hentry & Hclass).
    destruct (hasOwn_getTransport (statics (t_class t))) eqn:Hown;
      run_monad; (split; [done|]); exists (t_index t);
      (split; [done|]); split_and!; try done; by exists entry.
  - destruct Hcur as (i & Hidx & Hlen). run_monad.
    split; [done|]. by exists i.
Qed.

(** [getTransport] hands out the active transport, or what the transport's
    own [getTransport()] returns when the instance has that property of its
    own; [getQuery] asks the active transport.  Neither writes a field. *)
Theorem getters_read_the_active_transport w t :
  transport (conn w) = Some t →
  getQuery w = (Return (RQueryOf t), mkWorld (conn w) (trace w ++ [GetQuery t]))
  ∧ getTransport w =
      if hasOwn_getTransport (statics (t_class t)) then
        (Return (RUnwrapped t),
         mkWorld (conn w) (trace w ++ [GetTransport t]))
      else (Return (RTransport t), w).
Proof.
  intros Ht. destruct w as [c tr]. cbn in Ht. split.
  - unfold getQuery. run_monad. rewrite Ht. done.
  - unfold getTransport. run_monad. rewrite Ht.
    by destruct (hasOwn_getTransport _).
Qed.

End Further.

(** * Properties of the request layer *)

Section CoreFacts.
Context {Body QueryParams TemplateArgs ServiceOptions : Type}.
Variable formatUrl :
  string → option TemplateArgs → option QueryParams → string.
Variable shouldUseCloud : option ServiceOptions → bool.

Let transportMethod :=
  TransportCore.prepareTransportMethod (Body := Body) formatUrl
    shouldUseCloud.

(** X13. The constructor refuses a missing or empty base URL and accepts any
    other; caching is on by default and only a boolean [defaultCache] turns
    it off; the method override starts off. *)
Theorem constructor_requires_baseUrl
    (url : option string)
    (options : option (TransportCore.Options (ServiceOptions := ServiceOptions))) :
  (TransportCore.missing url = true →
   TransportCore.constructor url options =
     inl (TransportCore.Error "Missing required parameter: baseUrl"))
  ∧ (TransportCore.missing url = false →
     ∃ this,
       TransportCore.constructor url options = inr this
       ∧ url = Some (TransportCore.baseUrl this)
       ∧ TransportCore.defaultCache this =
           default true (options ≫= TransportCore.opt_defaultCache)
       ∧ TransportCore.useXHttpMethodOverride this = false
       ∧ TransportCore.language this = options ≫= TransportCore.opt_language).
Proof.
  unfold TransportCore.constructor. destruct url as [url|]; cbn.
  - destruct (bool_decide (url = "")); (split; [done|]); [done|].
    intros _. eexists. split_and!; try reflexivity.
  - split; done.
Qed.

(** X14. A transport call is refused, before anything is computed and without
    drawing a request id, exactly when the service path or the URL template
    is missing or empty. *)
Theorem call_requires_path_and_template
    this method servicePath urlTemplate templateArgs options generated :
  (TransportCore.missing servicePath || TransportCore.missing urlTemplate
     = true →
   transportMethod this method servicePath urlTemplate templateArgs options
     generated =
     inl (TransportCore.Error
            "Transport calls require a service path and a URL"))
  ∧ (TransportCore.missing servicePath || TransportCore.missing urlTemplate
       = false →
     ∃ fetched,
       transportMethod this method servicePath urlTemplate templateArgs
         options generated = inr fetched).
Proof.
  unfold transportMethod, TransportCore.prepareTransportMethod.
  destruct servicePath as [path|], urlTemplate as [template|]; cbn;
    try (split; [done|by rewrite ?orb_true_r]).
  destruct (bool_decide (path = "")), (bool_decide (template = "")); cbn;
    (split; [done|]); try done.
  intros _. by eexists.
Qed.

Lemma missing_Some_false s value :
  s = Some value → value ≠ "" → TransportCore.missing s = false.
Proof. intros -> Hne. cbn. by rewrite bool_decide_eq_false_2. Qed.

(** What a call that is not refused passes to [fetch]. *)
Lemma sent this method servicePath urlTemplate templateArgs options
    generated fetched :
  transportMethod this method servicePath urlTemplate templateArgs options
    generated = inr fetched →
  ∃ path template,
    servicePath = Some path ∧ urlTemplate = Some template
    ∧ path ≠ "" ∧ template ≠ ""
    ∧ let headers :=
        TransportCore.addRequestId options generated
          (TransportCore.addLanguage this
             (default ∅ (options ≫= TransportCore.headers))) in
      fetched =
        {| TransportCore.fetch_method := method;
           TransportCore.fetch_url :=
             (TransportCore.baseUrl this
              ++ (if shouldUseCloud (TransportCore.services this !! path)
                  then "/oapi" else "/openapi")
              ++ "/" ++ path ++ "/"
              ++ formatUrl template templateArgs
                   (options ≫= TransportCore.queryParams))%string;
           TransportCore.fetch_options :=
             {| TransportCore.fetch_body := options ≫= TransportCore.body;
                TransportCore.fetch_headers := headers.1;
                TransportCore.fetch_cache :=
                  default (TransportCore.defaultCache this)
                    (options ≫= TransportCore.cache);
                TransportCore.fetch_useXHttpMethodOverride :=
                  TransportCore.useXHttpMethodOverride this |};
           TransportCore.asked_for_id := headers.2 |}.
Proof.
  unfold transportMethod, TransportCore.prepareTransportMethod.
  destruct servicePath as [path|]; [|done].
  destruct urlTemplate as [template|]; [|done]. cbn [TransportCore.missing].
  destruct (bool_decide (path = "")) eqn:Hp; [done|].
  destruct (bool_decide (template = "")) eqn:Ht; [done|].
  cbn [orb]. intros [= <-]. exists path, template.
  apply bool_decide_eq_false in Hp, Ht. split_and!; done.
Qed.

Lemma addLanguage_other
    (this : TransportCore.Instance (ServiceOptions := ServiceOptions))
    (headers : gmap string string) key :
  key ≠ "Accept-Language" →
  TransportCore.addLanguage this headers !! key = headers !! key.
Proof.
  intros Hkey. unfold TransportCore.addLanguage.
  destruct (TransportCore.language this); [|done].
  destruct (_ && _); [|done]. by rewrite lookup_insert_ne.
Qed.

Lemma addRequestId_other
    (options : option (TransportCore.TransportCoreOptions
                         (Body := Body) (QueryParams := QueryParams)))
    generated (headers : gmap string string) key :
  key ≠ "X-Request-Id" →
  (TransportCore.addRequestId options generated headers).1 !! key
    = headers !! key.
Proof.
  intros Hkey. unfold TransportCore.addRequestId.
  destruct (TransportCore.missing (headers !! _)); [|done].
  destruct (TransportCore.missing (options ≫= _)); cbn;
    by rewrite lookup_insert_ne.
Qed.

Lemma addLanguage_given
    (this : TransportCore.Instance (ServiceOptions := ServiceOptions))
    (headers : gmap string string) :
  TransportCore.missing (headers !! "Accept-Language") = false →
  TransportCore.addLanguage this headers = headers.
Proof.
  intros Hgiven. unfold TransportCore.addLanguage. rewrite Hgiven.
  destruct (TransportCore.language this); [|done]. by rewrite andb_false_r.
Qed.

Lemma addRequestId_given
    (options : option (TransportCore.TransportCoreOptions
                         (Body := Body) (QueryParams := QueryParams)))
    generated (headers : gmap string string) :
  TransportCore.missing (headers !! "X-Request-Id") = false →
  TransportCore.addRequestId options generated headers = (headers, false).
Proof. intros Hgiven. unfold TransportCore.addRequestId. by rewrite Hgiven. Qed.

(** X15. The request id of a call: the caller's own [X-Request-Id] header if it
    is there and not empty, else [options.requestId] if given and not
    empty, else a freshly drawn one.  [getRequestId()] is called in the last
    case only. *)
Theorem request_id_precedence
    this method servicePath urlTemplate templateArgs options generated
    fetched :
  transportMethod this method servicePath urlTemplate templateArgs options
    generated = inr fetched →
  let given :=
    default ∅ (options ≫= TransportCore.headers) !! "X-Request-Id" in
  let requested := options ≫= TransportCore.requestId in
  TransportCore.fetch_headers (TransportCore.fetch_options fetched)
    !! "X-Request-Id" =
    (if TransportCore.missing given then
       if TransportCore.missing requested then Some generated else requested
     else given)
  ∧ TransportCore.asked_for_id fetched =
      TransportCore.missing given && TransportCore.missing requested.
Proof.
  intros Hcall given requested.
  destruct (sent _ _ _ _ _ _ _ _ Hcall) as (path & template & _ & _ & _ & _ & ->).
  cbn [TransportCore.fetch_headers TransportCore.fetch_options
       TransportCore.asked_for_id].
  unfold TransportCore.addRequestId.
  rewrite (addLanguage_other this _ "X-Request-Id") by done. fold given.
  destruct (TransportCore.missing given) eqn:Hgiven; cbn [fst snd andb].
  - fold requested.
    destruct (TransportCore.missing requested) eqn:Hreq; cbn [fst snd];
      rewrite lookup_insert_eq; [done|].
    split; [|done]. destruct requested; [done|by cbn in Hreq].
  - by rewrite (addLanguage_other this _ "X-Request-Id") by done.
Qed.

(** X16. The language header of a call: the caller's own [Accept-Language] if it
    is there and not empty; else the configured language followed by
    [", *;q=0.5"], if a language is configured; else none is added. *)
Theorem language_header_rule
    this method servicePath urlTemplate templateArgs options generated
    fetched :
  transportMethod this method servicePath urlTemplate templateArgs options
    generated = inr fetched →
  let given :=
    default ∅ (options ≫= TransportCore.headers) !! "Accept-Language" in
  TransportCore.fetch_headers (TransportCore.fetch_options fetched)
    !! "Accept-Language" =
    (if TransportCore.missing given
        && negb (TransportCore.missing (TransportCore.language this))
     then (λ lang, (lang ++ ", *;q=0.5")%string)
            <$> TransportCore.language this
     else given).
Proof.
  intros Hcall given.
  destruct (sent _ _ _ _ _ _ _ _ Hcall) as (path & template & _ & _ & _ & _ & ->).
  cbn [TransportCore.fetch_headers TransportCore.fetch_options].
  rewrite addRequestId_other by done.
  unfold TransportCore.addLanguage. fold given.
  destruct (TransportCore.language this) as [lang|]; cbn [TransportCore.missing].
  - destruct (TransportCore.missing given) eqn:Hgiven,
      (bool_decide (lang = "")); cbn [negb andb fmap option_fmap option_map];
      rewrite ?lookup_insert_eq; done.
  - by rewrite andb_false_r.
Qed.

(** X17. A call never drops or changes a header the caller supplied with a
    value: every such header is sent as given.  Apart from
    [Accept-Language] and [X-Request-Id] nothing is added either. *)
Theorem caller_headers_are_kept
    this method servicePath urlTemplate templateArgs options generated
    fetched key :
  transportMethod this method servicePath urlTemplate templateArgs options
    generated = inr fetched →
  let given := default ∅ (options ≫= TransportCore.headers) in
  let sent_headers :=
    TransportCore.fetch_headers (TransportCore.fetch_options fetched) in
  (∀ value, given !! key = Some value → value ≠ "" →
     sent_headers !! key = Some value)
  ∧ (key ≠ "Accept-Language" → key ≠ "X-Request-Id" →
     sent_headers !! key = given !! key).
Proof.
  intros Hcall given sent_headers. subst sent_headers.
  destruct (sent _ _ _ _ _ _ _ _ Hcall)
    as (path & template & _ & _ & _ & _ & ->).
  cbn [TransportCore.fetch_headers TransportCore.fetch_options].
  fold given. split.
  - intros value Hvalue Hne.
    pose proof (missing_Some_false _ _ Hvalue Hne) as Hgiven.
    destruct (decide (key = "Accept-Language")) as [->|H1].
    + by rewrite addRequestId_other, addLanguage_given by done.
    + destruct (decide (key = "X-Request-Id")) as [->|H2].
      * rewrite addRequestId_given.
        -- cbn [fst]. by rewrite addLanguage_other by done.
        -- by rewrite addLanguage_other by done.
      * by rewrite addRequestId_other, addLanguage_other by done.
  - intros H1 H2. by rewrite addRequestId_other, addLanguage_other by done.
Qed.

(** X18. From construction to a call: the URL fetched is the base URL given to
    the constructor, then [/oapi] or [/openapi] as [shouldUseCloud] says of
    the service's options, then the service path and the formatted
    template; the cache flag is the call's own boolean, else the
    constructor's [defaultCache], else [true]; the method override is the
    one last set; method and body are passed on. *)
Theorem from_constructor_to_fetch
    url coreOptions override this method servicePath urlTemplate
    templateArgs options generated fetched :
  TransportCore.constructor url coreOptions = inr this →
  transportMethod (TransportCore.setUseXHttpMethodOverride override this)
    method servicePath urlTemplate templateArgs options generated
    = inr fetched →
  ∃ base path template,
    url = Some base ∧ servicePath = Some path ∧ urlTemplate = Some template
    ∧ TransportCore.fetch_url fetched =
        (base
         ++ (if shouldUseCloud
                  (default ∅ (coreOptions ≫= TransportCore.opt_services)
                   !! path)
             then "/oapi" else "/openapi")
         ++ "/" ++ path ++ "/"
         ++ formatUrl template templateArgs
              (options ≫= TransportCore.queryParams))%string
    ∧ TransportCore.fetch_cache (TransportCore.fetch_options fetched) =
        default
          (default true (coreOptions ≫= TransportCore.opt_defaultCache))
          (options ≫= TransportCore.cache)
    ∧ TransportCore.fetch_useXHttpMethodOverride
        (TransportCore.fetch_options fetched) = override
    ∧ TransportCore.fetch_method fetched = method
    ∧ TransportCore.fetch_body (TransportCore.fetch_options fetched) =
        options ≫= TransportCore.body.
Proof.
  intros Hnew Hcall.
  destruct (sent _ _ _ _ _ _ _ _ Hcall)
    as (path & template & -> & -> & _ & _ & ->).
  unfold TransportCore.constructor in Hnew.
  destruct url as [base|]; [|done].
  destruct (TransportCore.missing (Some base)); [done|].
  injection Hnew as <-. exists base, path, template.
  split_and!; done.
Qed.

End CoreFacts.

(** * The class at work *)

(** ** Where the class departs from its description *)

(** C2, counterexample.  [start] hands the consumer's function to the
    transport as it is, so after [dispose()] the start-completion path still
    runs it: no warning, no guard. *)
Lemma start_completion_reaches_consumer_after_dispose :
  let w := run (@constructed modern ∅ "wss://example" None)
             (imports := modern) [DoStart (Consumer 7); DoDispose] in
  state (conn w) = STATE_DISPOSED
  ∧ passed_to_start (Consumer 7) (trace w)
  ∧ emitted w (step (imports := modern) w (TransportCalls (Consumer 7) []))
    = [Called (Consumer 7) []]
  ∧ consumer_calls
      (emitted w (step (imports := modern) w (TransportCalls (Consumer 7) [])))
    ≠ [].
Proof.
  cbv zeta. split_and!.
  - vm_compute. reflexivity.
  - exists {| t_index := 0; t_class := WebsocketTransport |}, ∅.
    apply (list_elem_of_lookup_2 _ 3). vm_compute. reflexivity.
  - vm_compute. reflexivity.
  - vm_compute. discriminate.
Qed.

(** The guard itself fails once the candidate list is exhausted: it reads
    [this.transport.name] to build the log record, and [this.transport] is
    [null] by then. *)
Example guard_throws_once_transport_is_gone :
  let only_websocket := {["transport" := VArr ["plainWebSockets"]]} in
  let w := run (@constructed modern only_websocket "wss://example" None)
             (imports := modern)
             [DoSetReceivedCallback (Consumer 3); TransportFails VNull;
              DoDispose] in
  let received := Bound (Consumer 3) "receivedCallback" in
  registered received (trace w)
  ∧ transport (conn w) = None
  ∧ (call (imports := modern) received [] w).1 =
      Throw (TypeError "Cannot read properties of null (reading 'name')").
Proof.
  cbv zeta. split_and!.
  - exists {| t_index := 0; t_class := WebsocketTransport |}. left.
    apply (list_elem_of_lookup_2 _ 3). vm_compute. reflexivity.
  - vm_compute. reflexivity.
  - vm_compute. reflexivity.
Qed.

(** C4, counterexample.  [dispose()] is not final: with an active transport
    a later [start] sets the state to started and a later [stop] to
    stopped. *)
Lemma start_and_stop_leave_disposed :
  let w := run (@constructed modern ∅ "wss://example" None)
             (imports := modern) [DoDispose] in
  state (conn w) = STATE_DISPOSED
  ∧ state (conn (step (imports := modern) w (DoStart NOOP))) = STATE_STARTED
  ∧ state (conn (step (imports := modern) w DoStop)) = STATE_STOPPED.
Proof. cbv zeta. split_and!; vm_compute; reflexivity. Qed.



(** A preference list that holds nothing but [constructor]: the
    constructor of the Connection throws. *)
Example constructor_throws_on_inherited_name :
  (@new_Connection modern {["transport" := VArr ["constructor"]]}
     "wss://example" (Some (Consumer 0))).1 =
    Throw (TypeError
      "Cannot read properties of undefined (reading 'isSupported')").
Proof. vm_compute. reflexivity. Qed.

(** [options.transport] set to [true], or to a string, is not an array of
    identifiers: the loop finds nothing to push, the candidate list is
    empty and the constructor reports total failure. *)
Example truthy_option_that_is_no_array :
  @getSupportedTransports modern
    (requestedTransports {["transport" := VBool true]}) = []
  ∧ @getSupportedTransports modern
      (requestedTransports {["transport" := VStr "plainWebSockets"]}) = []
  ∧ fired (Consumer 0)
      (trace (@constructed modern {["transport" := VBool true]}
                "wss://example" (Some (Consumer 0)))) = 1
  ∧ @getSupportedTransports modern
      (requestedTransports {["transport" := VBool false]}) =
      [Listed plainWebsockets; Listed legacySignalr].
Proof. split_and!; vm_compute; reflexivity. Qed.

(** What a consumer's function throws comes out of the guard, and out of
    the constructor when the function is [failCallback]. *)
Example consumer_exception_propagates :
  let env := throwing 3 (VStr "boom") modern in
  let w := run (@constructed env ∅ "wss://example" None) (imports := env)
             [DoSetReceivedCallback (Consumer 3)] in
  (call (imports := env) (Bound (Consumer 3) "receivedCallback")
     [VStr "tick"] w).1 = Throw (Thrown (VStr "boom"))
  ∧ (@new_Connection (throwing 3 (VStr "boom") barren) ∅ "wss://example"
       (Some (Consumer 3))).1 = Throw (Thrown (VStr "boom")).
Proof. cbv zeta. split; vm_compute; reflexivity. Qed.

(** C7, counterexample.  The function given to [start] is stored and handed
    to the transport without the guard. *)
Lemma start_callback_is_not_wrapped :
  let w := @constructed modern ∅ "wss://example" None in
  let w' := step (imports := modern) w (DoStart (Consumer 1)) in
  is_Some (transport (conn w))
  ∧ startCallback (conn w') = Some (Consumer 1)
  ∧ (∃ t merged, emitted w w' = [Start t merged (Some (Consumer 1))])
  ∧ ¬ ∃ callbackType,
        startCallback (conn w') = Some (Bound (Consumer 1) callbackType).
Proof.
  cbv zeta. split_and!.
  - eexists. vm_compute. reflexivity.
  - vm_compute. reflexivity.
  - eexists _, _. vm_compute. reflexivity.
  - intros [callbackType Heq]. vm_compute in Heq. discriminate.
Qed.

(** ** The theorems at concrete inputs *)

(** Nothing is supported: the constructor reports total failure once. *)
Lemma onFail_on_exhaustion_only_witness :
  let w0 := @constructed barren ∅ "wss://example" (Some (Consumer 0)) in
  fired (Consumer 0) (trace w0) = 1
  ∧ instantiations (trace (run (imports := barren) w0 [])) = []
  ∧ transport (conn w0) = None.
Proof.
  apply (proj2 (proj2 (proj2 (proj2 (proj2 (proj2 (proj2
    (@onFail_on_exhaustion_only barren ∅ "wss://example"
       (Some (Consumer 0)) [] VNull)))))))).
  vm_compute. repeat constructor.
Defined.



(** A callback set through [setReceivedCallback] is silent after
    [dispose()]. *)
Lemma disposal_silences_forwarding_witness :
  let w := run (@constructed modern ∅ "wss://example" None)
             (imports := modern)
             [DoSetReceivedCallback (Consumer 3); DoDispose] in
  let received := Bound (Consumer 3) "receivedCallback" in
  let after := call (imports := modern) received [VStr "tick"] w in
  after.1 = Return ()
  ∧ conn after.2 = conn w
  ∧ consumer_calls (emitted w after.2) = []
  ∧ (received ≠ NOOP →
     ∃ details,
       emitted w after.2 =
         [Called received [VStr "tick"];
          Log warn "callback called after transport was disposed" details]).
Proof.
  apply (@disposal_silences_forwarding modern ∅ "wss://example" None
           [DoSetReceivedCallback (Consumer 3); DoDispose]
           (Bound (Consumer 3) "receivedCallback") [VStr "tick"]).
  - exists {| t_index := 0; t_class := WebsocketTransport |}. left.
    apply (list_elem_of_lookup_2 _ 3). vm_compute. reflexivity.
  - vm_compute. reflexivity.
  - eexists. vm_compute. reflexivity.
Defined.

(** The scenario of the specification: [updateQuery("T1", "C1", 1000)],
    [start(cb)], then the WebSocket transport fails and legacy SignalR
    takes over. *)
Lemma session_replay_on_fallback_witness :
  let w := run (@constructed modern ∅ "wss://example" None)
             (imports := modern)
             [DoUpdateQuery "T1" "C1" (Some 1000%Z) None;
              DoStart (Consumer 9)] in
  let t := {| t_index := 1; t_class := SignalrTransport |} in
  emitted w (step (imports := modern) w (TransportFails VNull)) =
    [Log info "Transport failed"
       [("error", VNull); ("url", VStr "wss://example"); ("index", VNum 0);
        ("contextId", VStr "C1"); ("enabledTransports", VUndefined)];
     IsSupported 1 SignalrTransport;
     New t "wss://example" this_onTransportFail;
     Log debug "Next supported Transport found" [("name", VStr "signalr")];
     SetReceivedCallback t (Some NOOP);
     SetStateChangedCallback t (Some NOOP);
     SetUnauthorizedCallback t None;
     SetConnectionSlowCallback t (Some NOOP);
     UpdateQuery t (Some "T1") (Some "C1") (VNum 1000) None;
     Start t ∅ (Some (Consumer 9))].
Proof.
  cbv zeta. etransitivity.
  - apply (@session_replay_on_fallback modern _ VNull 1
             legacySignalr).
    + vm_compute. reflexivity.
    + unfold next_viable. split_and!.
      * vm_compute. lia.
      * vm_compute. reflexivity.
      * reflexivity.
      * intros j skipped Hj. vm_compute in Hj. lia.
  - vm_compute. reflexivity.
Defined.

(** After [dispose()], [updateQuery] leaves the state disposed. *)
Lemma disposed_persists_except_start_stop_witness :
  let w := run (@constructed modern ∅ "wss://example" None)
             (imports := modern) [DoDispose] in
  state (conn (step (imports := modern) w
                 (DoUpdateQuery "T1" "C1" None None))) = STATE_DISPOSED.
Proof.
  cbv zeta.
  assert (H : _) by
    (apply (@disposed_persists_except_start_stop modern
              (run (@constructed modern ∅ "wss://example" None)
                 (imports := modern) [DoDispose])
              (DoUpdateQuery "T1" "C1" None None));
     vm_compute; reflexivity).
  apply (proj1 H).
  - intros cb. discriminate.
  - discriminate.
Defined.

(** No WebSocket in the environment: the default list skips entry 0 and
    the Connection runs on legacy SignalR, entry 1. *)
Lemma skip_unsupported_witness :
  transport (conn (@constructed legacy_only ∅ "wss://example" None)) =
    Some {| t_index := 1; t_class := SignalrTransport |}
  ∧ transportIndex (conn (@constructed legacy_only ∅ "wss://example" None)) =
      Some 1.
Proof.
  assert (H : _) by
    (apply (@skip_unsupported legacy_only ∅ "wss://example" None 1
              legacySignalr);
     [ vm_compute; reflexivity
     | reflexivity
     | intros j skipped Hj Hsk; destruct j; [|lia];
       vm_compute in Hsk; injection Hsk as <-; reflexivity ]).
  cbv zeta in H. split; apply H.
Defined.

(** Each setter stores and registers the guarded function. *)
Lemma setters_wrap_start_does_not_witness :
  let w := @constructed modern ∅ "wss://example" None in
  let w' := step (imports := modern) w (DoSetReceivedCallback (Consumer 1)) in
  receiveCallback (conn w') = Bound (Consumer 1) "receivedCallback"
  ∧ emitted w w' =
      [SetReceivedCallback {| t_index := 0; t_class := WebsocketTransport |}
         (Some (Bound (Consumer 1) "receivedCallback"))].
Proof.
  cbv zeta.
  apply (@setters_wrap_start_does_not modern
           (@constructed modern ∅ "wss://example" None)
           {| t_index := 0; t_class := WebsocketTransport |} (Consumer 1)).
  vm_compute. reflexivity.
Defined.

(** [stop()], then the WebSocket transport fails: legacy SignalR is
    constructed and wired, and neither [updateQuery] nor [start] is called
    on it. *)
Lemma fallback_after_stop_witness :
  let w := run (@constructed modern ∅ "wss://example" None)
             (imports := modern) [DoStart (Consumer 9); DoStop] in
  let t := {| t_index := 1; t_class := SignalrTransport |} in
  emitted w (step (imports := modern) w (TransportFails VNull)) =
    [Log info "Transport failed"
       [("error", VNull); ("url", VStr "wss://example"); ("index", VNum 0);
        ("contextId", VNull); ("enabledTransports", VUndefined)];
     IsSupported 1 SignalrTransport;
     New t "wss://example" this_onTransportFail;
     Log debug "Next supported Transport found" [("name", VStr "signalr")];
     SetReceivedCallback t (Some NOOP);
     SetStateChangedCallback t (Some NOOP);
     SetUnauthorizedCallback t None;
     SetConnectionSlowCallback t (Some NOOP)].
Proof.
  cbv zeta. etransitivity.
  - apply (@fallback_after_stop modern _ VNull 1 legacySignalr).
    + vm_compute. reflexivity.
    + unfold next_viable. split_and!.
      * vm_compute. lia.
      * vm_compute. reflexivity.
      * reflexivity.
      * intros j skipped Hj. vm_compute in Hj. lia.
  - vm_compute. reflexivity.
Defined.

(** The consumer set nothing: the replacement gets [NOOP] three times and
    [undefined] for the unauthorized slot. *)
Lemma unauthorized_slot_defaults_to_undefined_witness :
  let w := @constructed modern ∅ "wss://example" None in
  let t := {| t_index := 1; t_class := SignalrTransport |} in
  SetUnauthorizedCallback t None
    ∈ emitted w (step (imports := modern) w (TransportFails VNull)).
Proof.
  cbv zeta.
  assert (H : _) by
    (apply (@unauthorized_slot_defaults_to_undefined modern ∅ "wss://example"
              None [] VNull 1 legacySignalr);
     unfold next_viable; split_and!;
     [ vm_compute; lia
     | vm_compute; reflexivity
     | reflexivity
     | intros j skipped Hj; vm_compute in Hj; lia ]).
  cbv zeta in H. apply (proj2 H). intros cb Hin. inversion Hin.
Defined.

(** ** The further properties at concrete inputs *)

(** After [start], the WebSocket transport fails: what is constructed is
    the transport that is active afterwards. *)
Lemma calls_go_to_active_transport_witness :
  let w := run (@constructed modern ∅ "wss://example" None)
             (imports := modern) [DoStart (Consumer 9)] in
  transport (conn (step (imports := modern) w (TransportFails VNull))) =
    Some {| t_index := 1; t_class := SignalrTransport |}.
Proof.
  cbv zeta.
  apply (@calls_go_to_active_transport modern _ (TransportFails VNull)
           (New {| t_index := 1; t_class := SignalrTransport |}
              "wss://example" this_onTransportFail)).
  - apply (list_elem_of_lookup_2 _ 2). vm_compute. reflexivity.
  - reflexivity.
Defined.

(** Nothing is supported: no [start] and no failure report brings a
    transport. *)
Lemma exhaustion_is_permanent_witness :
  let w := run (@constructed barren ∅ "wss://example" None)
             (imports := barren) [] in
  let later := run (imports := barren) w [DoStart NOOP; TransportFails VNull] in
  transport (conn later) = None
  ∧ instantiations (trace later) = instantiations (trace w).
Proof.
  cbv zeta.
  apply (@exhaustion_is_permanent barren ∅ "wss://example" None []
           [DoStart NOOP; TransportFails VNull]).
  - vm_compute. reflexivity.
  - vm_compute. reflexivity.
Defined.

(** A fallback in the started state leaves the state started. *)
Lemma lifecycle_written_by_start_stop_dispose_only_witness :
  let w := run (@constructed modern ∅ "wss://example" None)
             (imports := modern) [DoStart (Consumer 9)] in
  state (conn (step (imports := modern) w (TransportFails VNull))) =
    state (conn w).
Proof.
  cbv zeta.
  apply (proj1 (@lifecycle_written_by_start_stop_dispose_only modern _
                  (TransportFails VNull) [])).
  - intros cb. discriminate.
  - discriminate.
  - discriminate.
Defined.

(** Without WebSocket support the one transport constructed is the legacy
    SignalR one, listed at index 1. *)
Lemma constructed_transports_are_listed_and_supported_witness :
  isSupported (@statics legacy_only SignalrTransport) = true
  ∧ ∃ entry,
      @getSupportedTransports legacy_only (requestedTransports ∅) !! 1
        = Some (Listed entry)
      ∧ SignalrTransport = entry_instance entry.
Proof.
  apply (@constructed_transports_are_listed_and_supported legacy_only ∅
           "wss://example" None []
           {| t_index := 1; t_class := SignalrTransport |} "wss://example"
           this_onTransportFail).
  apply (list_elem_of_lookup_2 _ 2). vm_compute. reflexivity.
Defined.

(** A received callback set once is registered on the replacement, after a
    [start] and an [updateQuery] in between. *)
Lemma callbacks_survive_fallback_witness :
  let w := run (step (imports := modern)
                  (@constructed modern ∅ "wss://example" None)
                  (DoSetReceivedCallback (Consumer 5)))
             (imports := modern)
             [DoStart NOOP; DoUpdateQuery "T1" "C1" None None] in
  SetReceivedCallback {| t_index := 1; t_class := SignalrTransport |}
    (Some (Bound (Consumer 5) "receivedCallback"))
    ∈ emitted w (step (imports := modern) w (TransportFails VNull)).
Proof.
  cbv zeta.
  assert (H : _) by
    (apply (@callbacks_survive_fallback modern
              (@constructed modern ∅ "wss://example" None)
              {| t_index := 0; t_class := WebsocketTransport |} (Consumer 5)
              [DoStart NOOP; DoUpdateQuery "T1" "C1" None None] VNull 1
              legacySignalr);
     vm_compute; reflexivity).
  cbv zeta in H. apply (proj1 H).
  - intros other Hin. rewrite !elem_of_cons, elem_of_nil in Hin.
    destruct Hin as [?|[?|[]]]; discriminate.
  - unfold next_viable. split_and!.
    + vm_compute. lia.
    + vm_compute. reflexivity.
    + reflexivity.
    + intros j skipped Hj. vm_compute in Hj. lia.
Defined.

(** [dispose()], then the WebSocket transport fails: legacy SignalR is
    constructed and becomes the active transport all the same. *)
Lemma fallback_after_dispose_witness :
  let w := run (@constructed modern ∅ "wss://example" None)
             (imports := modern) [DoDispose] in
  let w' := step (imports := modern) w (TransportFails VNull) in
  transport (conn w') = Some {| t_index := 1; t_class := SignalrTransport |}
  ∧ state (conn w') = STATE_DISPOSED.
Proof.
  cbv zeta.
  assert (H : _) by
    (apply (@fallback_after_dispose modern
              (run (@constructed modern ∅ "wss://example" None)
                 (imports := modern) [DoDispose])
              VNull 1 legacySignalr);
     [ vm_compute; reflexivity
     | unfold next_viable; split_and!;
       [ vm_compute; lia
       | vm_compute; reflexivity
       | reflexivity
       | intros j skipped Hj; vm_compute in Hj; lia ] ]).
  cbv zeta in H. apply H.
Defined.

(** The default list after one failure: entries 0 and 1 were probed, in
    that order. *)
Lemma probes_are_consecutive_witness :
  let w := run (@constructed modern ∅ "wss://example" None) (imports := modern)
             [TransportFails VNull] in
  ∃ i, transportIndex (conn w) = Some i
       ∧ probes (trace w) = seq 0 (S i `min` length (transports (conn w))).
Proof.
  cbv zeta.
  destruct (@probes_are_consecutive modern ∅ "wss://example" None
              [TransportFails VNull]) as (i & Hi & _ & Hall).
  exists i. split; [exact Hi|]. apply Hall.
  vm_compute. repeat constructor.
Defined.

(** The one list entry has failed and the Connection was disposed: the
    guarded callback throws. *)
Lemma guard_throws_exactly_when_witness :
  let w := run (@constructed modern {["transport" := VArr ["plainWebSockets"]]}
                  "wss://example" None)
             (imports := modern)
             [DoSetReceivedCallback (Consumer 3); TransportFails VNull;
              DoDispose] in
  (call (imports := modern) (Bound (Consumer 3) "receivedCallback") [] w).1
    ≠ Return ().
Proof.
  cbv zeta.
  apply (proj2 (proj2 (proj2 (@guard_throws_exactly_when modern
                    (Bound (Consumer 3) "receivedCallback") [] _)))).
  left. split_and!.
  - cbn. lia.
  - vm_compute. reflexivity.
  - vm_compute. reflexivity.
Defined.

(** [start] after a fallback returns. *)
Lemma public_methods_return_witness :
  (perform (imports := modern) (DoStart (Consumer 1))
     (run (@constructed modern ∅ "wss://example" None) (imports := modern)
        [TransportFails VNull])).1 = Return ().
Proof.
  apply (proj1 (@public_methods_return modern ∅ "wss://example" None
           [TransportFails VNull] (DoStart (Consumer 1)) eq_refl)).
Defined.

(** On the default list [getTransport] writes no field. *)
Lemma getTransport_follows_cursor_witness :
  let w := run (@constructed modern ∅ "wss://example" None) (imports := modern)
             [TransportFails VNull] in
  conn (getTransport (imports := modern) w).2 = conn w.
Proof.
  cbv zeta.
  apply (@getTransport_follows_cursor modern ∅ "wss://example" None
           [TransportFails VNull]).
  vm_compute. repeat constructor.
Defined.

(** Nothing is supported: [start] changes nothing, not even the state. *)
Lemma without_transport_nothing_happens_witness :
  let w := @constructed barren ∅ "wss://example" None in
  perform (imports := barren) (DoStart (Consumer 1)) w = (Return (), w).
Proof.
  cbv zeta.
  apply (@without_transport_nothing_happens barren _ (DoStart (Consumer 1))).
  - vm_compute. reflexivity.
  - reflexivity.
  - reflexivity.
Defined.

(** *** The request layer *)

Lemma constructor_requires_baseUrl_witness :
  TransportCore.constructor (ServiceOptions := unit) (Some "") None =
    inl (TransportCore.Error "Missing required parameter: baseUrl").
Proof.
  apply (proj1 (@constructor_requires_baseUrl unit (Some "") None)).
  reflexivity.
Defined.

Lemma call_requires_path_and_template_witness :
  TransportCore.prepareTransportMethod (Body := unit) plain_template
    never_cloud gateway "get" None (Some "accounts") None None "7" =
    inl (TransportCore.Error
           "Transport calls require a service path and a URL").
Proof.
  apply (proj1 (@call_requires_path_and_template unit unit unit unit
                  plain_template never_cloud gateway "get" None
                  (Some "accounts") None None "7")).
  reflexivity.
Defined.

Lemma request_id_precedence_witness :
  ∃ fetched,
    TransportCore.prepareTransportMethod plain_template never_cloud gateway
      "get" (Some "port") (Some "accounts") None (Some tagged_call) "7"
      = inr fetched
    ∧ TransportCore.fetch_headers (TransportCore.fetch_options fetched)
        !! "X-Request-Id" = Some "abc"
    ∧ TransportCore.asked_for_id fetched = false.
Proof.
  eexists. split; [vm_compute; reflexivity|].
  apply (@request_id_precedence unit unit unit unit plain_template
           never_cloud gateway "get" (Some "port") (Some "accounts") None
           (Some tagged_call) "7").
  vm_compute. reflexivity.
Defined.

Lemma language_header_rule_witness :
  ∃ fetched,
    TransportCore.prepareTransportMethod plain_template never_cloud gateway
      "get" (Some "port") (Some "accounts") None (Some tagged_call) "7"
      = inr fetched
    ∧ TransportCore.fetch_headers (TransportCore.fetch_options fetched)
        !! "Accept-Language" = Some "en, *;q=0.5".
Proof.
  eexists. split; [vm_compute; reflexivity|].
  apply (@language_header_rule unit unit unit unit plain_template
           never_cloud gateway "get" (Some "port") (Some "accounts") None
           (Some tagged_call) "7").
  vm_compute. reflexivity.
Defined.

Lemma caller_headers_are_kept_witness :
  ∃ fetched,
    TransportCore.prepareTransportMethod plain_template never_cloud gateway
      "get" (Some "port") (Some "accounts") None (Some tagged_call) "7"
      = inr fetched
    ∧ TransportCore.fetch_headers (TransportCore.fetch_options fetched)
        !! "X-Request-Id" = Some "abc".
Proof.
  eexists. split; [vm_compute; reflexivity|].
  apply (proj1 (@caller_headers_are_kept unit unit unit unit plain_template
                  never_cloud gateway "get" (Some "port") (Some "accounts")
                  None (Some tagged_call) "7" _ "X-Request-Id"
                  ltac:(vm_compute; reflexivity))).
  - vm_compute. reflexivity.
  - discriminate.
Defined.

Lemma from_constructor_to_fetch_witness :
  ∃ this fetched,
    TransportCore.constructor (ServiceOptions := unit)
      (Some "https://gateway") None = inr this
    ∧ TransportCore.prepareTransportMethod plain_template never_cloud
        (TransportCore.setUseXHttpMethodOverride true this)
        "put" (Some "port") (Some "accounts") None (Some tagged_call) "7"
        = inr fetched
    ∧ TransportCore.fetch_url fetched = "https://gateway/openapi/port/accounts"
    ∧ TransportCore.fetch_cache (TransportCore.fetch_options fetched) = false
    ∧ TransportCore.fetch_useXHttpMethodOverride
        (TransportCore.fetch_options fetched) = true.
Proof.
  eexists _, _.
  split; [vm_compute; reflexivity|]. split; [vm_compute; reflexivity|].
  destruct (@from_constructor_to_fetch unit unit unit unit plain_template
              never_cloud (Some "https://gateway") None true _ "put"
              (Some "port") (Some "accounts") None (Some tagged_call) "7" _
              ltac:(vm_compute; reflexivity) ltac:(vm_compute; reflexivity))
    as (base & path & template & Hb & Hp & Ht & Hurl & Hcache & Hover & _).
  injection Hb as <-. injection Hp as <-. injection Ht as <-.
  split_and!; [|exact Hcache|exact Hover].
  rewrite Hurl. vm_compute. reflexivity.
Defined.
